(** * AprilTag detection quality analysis: a shallow embedding

    The program under study is [analyze-quality.js]: it converts RAW
    photographs to a lossless reference image and to JPEGs at nine
    quality levels, detects AprilTag markers in both, and summarises how
    far the detected corners drift.

    The embedding follows the source function by function:
    - [calculateCornerDistance], [calculateDeltas] and [calculateStats]
      are the pure helpers;
    - [main] and the top-level script are written in a small monad that
      threads the trace of console output and external calls, with
      exceptions and [process.exit].

    JavaScript numbers are kept behind the interface [JSNumber], so that
    the same translation of the code can be run on IEEE-754 binary64
    (the arithmetic Node.js performs, instance [ieee]) and on exact real
    arithmetic (instance [exact]). *)

From Stdlib Require Import Floats Reals Lra Lia ZArith QArith String Ascii.
From Stdlib Require Import Sorting.Sorted Sorting.Permutation DecimalString DecimalPos.
From stdpp Require Import base option list gmap strings.

#[local] Set Warnings "-inexact-float".
#[local] Open Scope Z_scope.
#[local] Open Scope nat_scope.

(** ** Numbers *)

(** The operations of a JavaScript number that the program uses. *)
Class JSNumber (num : Type) : Type := {
  lit0 : num;                       (* the literal 0 *)
  lit2 : num;                       (* the literal 2 *)
  nadd : num -> num -> num;         (* a + b *)
  nsub : num -> num -> num;         (* a - b *)
  nmul : num -> num -> num;         (* a * b *)
  ndiv : num -> num -> num;         (* a / b *)
  nsqrt : num -> num;               (* Math.sqrt(a) *)
  nlt : num -> num -> bool;         (* a < b *)
  nmin : num -> num -> num;         (* Math.min(a, b) *)
  nmax : num -> num -> num;         (* Math.max(a, b) *)
  nan : num;                        (* NaN, also ToNumber(undefined) *)
  of_nat : nat -> num;              (* an array length, as a number *)
}.

(** IEEE-754 binary64, the arithmetic of the JavaScript engine. *)
Module IEEE.

Definition fmin (a b : float) : float :=
  if (PrimFloat.is_nan a || PrimFloat.is_nan b)%bool then PrimFloat.nan
  else if PrimFloat.ltb a b then a
  else if PrimFloat.ltb b a then b
  else if PrimFloat.get_sign a then a else b.

Definition fmax (a b : float) : float :=
  if (PrimFloat.is_nan a || PrimFloat.is_nan b)%bool then PrimFloat.nan
  else if PrimFloat.ltb a b then b
  else if PrimFloat.ltb b a then a
  else if PrimFloat.get_sign a then b else a.

Definition of_length (n : nat) : float :=
  PrimFloat.of_uint63 (Uint63.of_Z (Z.of_nat n)).

End IEEE.

#[export] Instance ieee : JSNumber float := {|
  lit0 := 0%float;
  lit2 := 2%float;
  nadd := PrimFloat.add;
  nsub := PrimFloat.sub;
  nmul := PrimFloat.mul;
  ndiv := PrimFloat.div;
  nsqrt := PrimFloat.sqrt;
  nlt := PrimFloat.ltb;
  nmin := IEEE.fmin;
  nmax := IEEE.fmax;
  nan := PrimFloat.nan;
  of_nat := IEEE.of_length;
|}.

(** Exact arithmetic: a real number or NaN.  There is no rounding and no
    infinity; what IEEE arithmetic answers with an infinity (division by
    zero) is NaN here. *)
Inductive xreal : Type :=
| XReal (r : R)
| XNaN.

Module Exact.

Definition lift2 (f : R -> R -> R) (a b : xreal) : xreal :=
  match a, b with
  | XReal x, XReal y => XReal (f x y)
  | _, _ => XNaN
  end.

Definition div (a b : xreal) : xreal :=
  match a, b with
  | XReal x, XReal y => if Req_dec_T y 0 then XNaN else XReal (x / y)
  | _, _ => XNaN
  end.

Definition sqrt (a : xreal) : xreal :=
  match a with
  | XReal x => if Rlt_dec x 0 then XNaN else XReal (R_sqrt.sqrt x)
  | XNaN => XNaN
  end.

Definition ltb (a b : xreal) : bool :=
  match a, b with
  | XReal x, XReal y => if Rlt_dec x y then true else false
  | _, _ => false
  end.

End Exact.

#[export] Instance exact : JSNumber xreal := {|
  lit0 := XReal 0;
  lit2 := XReal 2;
  nadd := Exact.lift2 Rplus;
  nsub := Exact.lift2 Rminus;
  nmul := Exact.lift2 Rmult;
  ndiv := Exact.div;
  nsqrt := Exact.sqrt;
  nlt := Exact.ltb;
  nmin := Exact.lift2 Rmin;
  nmax := Exact.lift2 Rmax;
  nan := XNaN;
  of_nat := fun n => XReal (INR n);
|}.

(** ** Completions *)

Inductive error : Type :=
| TypeError (what : string)          (* raised by the language itself *)
| ExternalError (what : string).     (* raised by a library or the file system *)

(** How the evaluation of a piece of code ends.  [Exit] arises only from
    [process.exit]. *)
Inductive completion (A : Type) : Type :=
| Normal (a : A)
| Throw (e : error)
| Exit (code : Z).
Arguments Normal {A} a.
Arguments Throw {A} e.
Arguments Exit {A} code.

#[export] Instance completion_ret : MRet completion := fun _ a => Normal a.
#[export] Instance completion_bind : MBind completion := fun _ _ f c =>
  match c with
  | Normal a => f a
  | Throw e => Throw e
  | Exit code => Exit code
  end.

(** [for (const x of xs) { ... }], with the variables the loop updates
    passed from one iteration to the next; in any monad. *)
Fixpoint for_of {M : Type -> Type} `{!MBind M, !MRet M} {A S : Type}
    (xs : list A) (body : S -> A -> M S) (acc : S) : M S :=
  match xs with
  | [] => mret acc
  | x :: xs' => acc' ← body acc x; for_of xs' body acc'
  end.

(** ** Detections and the corner metric *)

Section Analysis.
Context {num : Type} `{JSNumber num}.

(** [{ id: detection.id, corners: detection.corners }]; a corner is the
    array [[x, y]]. *)
Record Detection : Type := {
  tag_id : Z;
  corners : list (list num);
}.

(** [corner[k]] used as a number: an index out of range reads
    [undefined], which arithmetic turns into NaN; reading an index of
    [undefined] itself is a TypeError. *)
Definition coordinate (corner : option (list num)) (k : nat) : completion num :=
  match corner with
  | None => Throw (TypeError "Cannot read properties of undefined")
  | Some c => Normal (default nan (c !! k))
  end.

Definition calculateCornerDistance (corner1 corner2 : option (list num))
    : completion num :=
  x1 ← coordinate corner1 0;
  x2 ← coordinate corner2 0;
  let dx := nsub x1 x2 in
  y1 ← coordinate corner1 1;
  y2 ← coordinate corner2 1;
  let dy := nsub y1 y2 in
  Normal (nsqrt (nadd (nmul dx dx) (nmul dy dy))).

(** [detection.find((d) => d.id === gtTag.id)] *)
Definition find_by_id (detection : list Detection) (i : Z) : option Detection :=
  List.find (fun d => Z.eqb (tag_id d) i) detection.

Definition calculateDeltas (groundTruth detection : list Detection)
    : completion (list num) :=
  for_of groundTruth (fun deltas gtTag =>
    match find_by_id detection (tag_id gtTag) with
    | Some detTag =>
        for_of (seq 0 4) (fun deltas i =>
          delta ← calculateCornerDistance (corners gtTag !! i) (corners detTag !! i);
          Normal (deltas ++ [delta])) deltas
    | None => Normal deltas
    end) [].

(** The same two functions with every array read made partial: a read
    out of range answers [None] instead of [undefined]. *)
Definition calculateCornerDistance_checked (corner1 corner2 : option (list num))
    : option num :=
  c1 ← corner1;
  c2 ← corner2;
  x1 ← c1 !! 0;
  x2 ← c2 !! 0;
  let dx := nsub x1 x2 in
  y1 ← c1 !! 1;
  y2 ← c2 !! 1;
  let dy := nsub y1 y2 in
  Some (nsqrt (nadd (nmul dx dx) (nmul dy dy))).

Definition calculateDeltas_checked (groundTruth detection : list Detection)
    : option (list num) :=
  for_of groundTruth (fun deltas gtTag =>
    match find_by_id detection (tag_id gtTag) with
    | Some detTag =>
        for_of (seq 0 4) (fun deltas i =>
          delta ← calculateCornerDistance_checked
                    (corners gtTag !! i) (corners detTag !! i);
          Some (deltas ++ [delta])) deltas
    | None => Some deltas
    end) [].

(** ** Statistics *)

(** [Array.prototype.sort(comparefn)], by insertion.  The language
    fixes the result only for a consistent [comparefn]: the elements
    in ascending order, elements that compare equal in their original
    order; every stable sort then returns this same array.  The model
    takes the test [comparefn(a, b) > 0]. *)
Fixpoint sort_insert {A : Type} (after : A -> A -> bool) (x : A) (l : list A)
    : list A :=
  match l with
  | [] => [x]
  | y :: l' => if after x y then y :: sort_insert after x l' else x :: l
  end.

Definition array_sort {A : Type} (after : A -> A -> bool) (l : list A) : list A :=
  foldr (sort_insert after) [] l.

(** [(a, b) => a - b], tested for a positive result *)
Definition by_difference (a b : num) : bool := nlt lit0 (nsub a b).

(** [a[i]] read as a number ([undefined] becomes NaN) *)
Definition element (a : list num) (i : nat) : num := default nan (a !! i).

Record Stats : Type := {
  min : num;
  mean : num;
  median : num;
  max : num;
}.

(** [calculateStats(deltas)] returns the statistics and, as [sort]
    works in place, leaves the caller's array changed: the second
    component is the content of [deltas] after the call. *)
Definition calculateStats (deltas : list num) : Stats * list num :=
  if length deltas =? 0 then
    ({| min := lit0; mean := lit0; median := lit0; max := lit0 |}, deltas)
  else
    let sorted := array_sort by_difference deltas in
    let deltas := sorted in                 (* one array, two names *)
    let min := element sorted 0 in
    let max := element sorted (length sorted - 1) in
    let mean :=
      ndiv (fold_left (fun sum val => nadd sum val) deltas lit0)
           (of_nat (length deltas)) in
    let median :=
      if length sorted mod 2 =? 0
      then ndiv (nadd (element sorted (length sorted / 2 - 1))
                      (element sorted (length sorted / 2))) lit2
      else element sorted (length sorted / 2) in
    ({| min := min; mean := mean; median := median; max := max |}, deltas).

End Analysis.

Arguments Detection num : clear implicits.
Arguments Stats num : clear implicits.


(** ** Strings and command-line words *)

(** A string is kept as the sequence of bytes of its UTF-8 encoding,
    the form in which a literal of this file holds it.  The tests the
    program makes on strings ([startsWith("-")], [endsWith(".arw")]
    after [toLowerCase], [includes]) look for ASCII text, which UTF-8
    keeps apart from the bytes of every other character. *)

#[local] Open Scope string_scope.
#[local] Open Scope list_scope.
#[local] Open Scope nat_scope.

Definition startsWith (s p : string) : bool := String.prefix p s.

Definition endsWith (s p : string) : bool :=
  (String.length p <=? String.length s)
  && String.eqb (substring (String.length s - String.length p) (String.length p) s) p.

(** [String.prototype.toLowerCase], on the ASCII letters *)
Definition lower (c : ascii) : ascii :=
  let n := nat_of_ascii c in
  if (65 <=? n) && (n <=? 90) then ascii_of_nat (n + 32) else c.

Fixpoint toLowerCase (s : string) : string :=
  match s with
  | EmptyString => EmptyString
  | String c s' => String (lower c) (toLowerCase s')
  end.

Definition includes (args : list string) (x : string) : bool :=
  existsb (String.eqb x) args.

(** [parseInt(s)] with no radix: leading white space, a sign, a [0x]
    prefix, then the longest run of digits, whose value is turned into
    a Number; [None] stands for NaN. *)

(** The white space that [parseInt] skips is made of the characters
    WhiteSpace and LineTerminator of the language: U+0009 to U+000D,
    U+0020, U+00A0, U+1680, U+2000 to U+200A, U+2028, U+2029, U+202F,
    U+205F, U+3000 and U+FEFF.  The first six are single bytes. *)
Definition is_space (c : ascii) : bool :=
  let n := nat_of_ascii c in
  (n =? 32) || ((9 <=? n) && (n <=? 13)).

Definition byte (c : ascii) (n : nat) : bool := nat_of_ascii c =? n.

(** U+00A0 is C2 A0. *)
Definition is_space2 (c1 c2 : ascii) : bool := byte c1 194 && byte c2 160.

(** The others take three bytes: U+1680 is E1 9A 80; U+2000 to U+200A
    are E2 80 80 to E2 80 8A; U+2028, U+2029 and U+202F are E2 80 A8,
    E2 80 A9 and E2 80 AF; U+205F is E2 81 9F; U+3000 is E3 80 80;
    U+FEFF is EF BB BF. *)
Definition is_space3 (c1 c2 c3 : ascii) : bool :=
  let n3 := nat_of_ascii c3 in
  (byte c1 225 && byte c2 154 && byte c3 128)
  || (byte c1 226 && byte c2 128
      && (((128 <=? n3) && (n3 <=? 138)) || (n3 =? 168) || (n3 =? 169) || (n3 =? 175)))
  || (byte c1 226 && byte c2 129 && byte c3 159)
  || (byte c1 227 && byte c2 128 && byte c3 128)
  || (byte c1 239 && byte c2 187 && byte c3 191).

(** White space is skipped character by character; an ASCII character
    that is not white space ends it at once. *)

Fixpoint trimStart (s : string) : string :=
  match s with
  | String c1 s1 =>
      if is_space c1 then trimStart s1
      else if nat_of_ascii c1 <? 128 then s
      else match s1 with
           | String c2 s2 =>
               if is_space2 c1 c2 then trimStart s2
               else match s2 with
                    | String c3 s3 => if is_space3 c1 c2 c3 then trimStart s3 else s
                    | EmptyString => s
                    end
           | EmptyString => s
           end
  | EmptyString => EmptyString
  end.

Definition digit_value (c : ascii) : option Z :=
  let n := nat_of_ascii c in
  if (48 <=? n) && (n <=? 57) then Some (Z.of_nat (n - 48))
  else if (97 <=? n) && (n <=? 122) then Some (Z.of_nat (n - 87))
  else if (65 <=? n) && (n <=? 90) then Some (Z.of_nat (n - 55))
  else None.

Fixpoint parse_digits (radix : Z) (s : string) (acc : option Z) : option Z :=
  match s with
  | EmptyString => acc
  | String c s' =>
      match digit_value c with
      | Some d =>
          if (d <? radix)%Z
          then parse_digits radix s' (Some (default 0 acc * radix + d)%Z)
          else acc
      | None => acc
      end
  end.

(** A Number whose value is integral: what [parseInt] returns when it
    is not NaN.  [Integer 0] stands for both zeros, which the program
    cannot tell apart: it tests the number for truth and compares it. *)
Variant integral : Type :=
| Integer (n : Z)
| Infinity (negative : bool).

(** The Number value of a mathematical integer: the nearest binary64
    number, a tie going to the even significand, and an infinity from
    2^1024 - 2^970 on.  An integer of at most 53 bits is kept as it is;
    of a longer one the 53 leading bits [q] are kept and rounded by the
    rest [r]. *)
Definition number_of_integer (n : Z) : integral :=
  let a := Z.abs n in
  let bits := (Z.log2 a + 1)%Z in
  if (bits <=? 53)%Z then Integer n
  else
    let shift := (bits - 53)%Z in
    let q := Z.shiftr a shift in
    let r := (a - Z.shiftl q shift)%Z in
    let half := Z.shiftl 1 (shift - 1) in
    let q := if (half <? r)%Z || ((r =? half)%Z && Z.odd q) then (q + 1)%Z else q in
    let m := Z.shiftl q shift in
    if (2 ^ 1024 <=? m)%Z then Infinity (n <? 0)%Z else Integer (Z.sgn n * m).

Definition parseInt (s : string) : option integral :=
  let s := trimStart s in
  let '(sign, s) :=
    match s with
    | String "-" s' => ((-1)%Z, s')
    | String "+" s' => (1%Z, s')
    | _ => (1%Z, s)
    end in
  let '(radix, s) :=
    match s with
    | String "0" (String "x" s') | String "0" (String "X" s') => (16%Z, s')
    | _ => (10%Z, s)
    end in
  (fun n => number_of_integer (sign * n)) <$> parse_digits radix s None.

(** A string used as a condition: [null], [undefined] and the empty
    string are falsy. *)
Definition truthy (s : option string) : bool :=
  match s with
  | Some s => negb (String.eqb s "")
  | None => false
  end.

(** ** The command line *)

Record Config : Type := {
  subsetSize : option integral;   (* null when absent or not a number *)
  rawDir : option string;         (* null when absent *)
  preserveFiles : bool;
  printCorners : bool;
  noPlot : bool;
}.

(** [args.filter(arg => !arg.startsWith('-'))] *)
Definition nonFlagArgs (args : list string) : list string :=
  List.filter (fun arg => negb (startsWith arg "-")) args.

(** [args] is [process.argv.slice(2)], [RAW_DIR] is [process.env.RAW_DIR]. *)
Definition parse_arguments (args : list string) (RAW_DIR : option string) : Config :=
  let nonFlagArgs := nonFlagArgs args in
  {| subsetSize :=
       match nonFlagArgs with
       | arg0 :: _ => parseInt arg0
       | [] => None
       end;
     rawDir :=
       if 1 <? length nonFlagArgs then nonFlagArgs !! 1
       else if truthy RAW_DIR then RAW_DIR else None;
     preserveFiles := includes args "--preserve" || includes args "-p";
     printCorners := includes args "--corners" || includes args "-c";
     noPlot := includes args "--no-plot" |}.

Definition QUALITY_VALUES : list Q :=
  [0.1; 0.2; 0.3; 0.4; 0.5; 0.6; 0.7; 0.8; 0.9]%Q.

(** The number as the template literal prints it, for the values above. *)
Definition quality_text (quality : Q) : string :=
  match (Qnum quality * 10 / Z.pos (Qden quality))%Z with
  | 1 => "0.1" | 2 => "0.2" | 3 => "0.3" | 4 => "0.4" | 5 => "0.5"
  | 6 => "0.6" | 7 => "0.7" | 8 => "0.8" | 9 => "0.9" | _ => "?"
  end%Z.

(** [quality === QUALITY_VALUES[0]] *)
Definition is_first_quality (quality : Q) : bool :=
  match QUALITY_VALUES with
  | q0 :: _ => Qeq_bool quality q0
  | [] => false
  end.

(** [names.filter((file) => file.toLowerCase().endsWith(".arw"))] *)
Definition raw_files (names : list string) : list string :=
  List.filter (fun file => endsWith (toLowerCase file) ".arw") names.

(** The two revisions of [analyze-quality.js]: the later one also keeps
    per-image scatter records, saves the table to a file and draws the
    plot. *)
Variant revision : Type := Original | WithPlot.

(** ** The driver *)

Section Driver.
Context {num : Type} `{JSNumber num}.

(** One row of the summary: [{ quality, ...stats, missingMarkers }] *)
Record QualityResult : Type := {
  quality : Q;
  stats : Stats num;
  missingMarkers : nat;
}.

(** One entry of [scatterData] *)
Record ScatterPoint : Type := {
  point_quality : Q;
  meanDelta : num;
  minDelta : num;
  maxDelta : num;
  image : string;
}.

(** *** What the program does to the outside world *)

(** What is written to a file; the bytes themselves are not modelled. *)
Inductive content : Type :=
| Picture (arwPath : string) (jpegQuality : option Q)
| TableFile (rows : list QualityResult)
| PlotPage (data : list ScatterPoint).

Inductive call : Type :=
| Access (path : string)                          (* fs.access *)
| Dotenv (path : string)                          (* dotenv.config *)
| NewDetector                                     (* new AprilTag(...) *)
| Mkdir (path : string)                           (* fs.mkdir, recursive *)
| Readdir (path : string)                         (* fs.readdir *)
| ReadFile (path : string)                        (* fs.readFile *)
| ConvertRaw (arwPath : string) (jpegQuality : option Q)   (* convertRaw *)
| WriteFile (path : string) (c : content)         (* fs.writeFile *)
| LoadImage (path : string)                       (* sharp(...).toBuffer *)
| Detect (path : string)                          (* detector.detect *)
| Unlink (path : string)                          (* fs.unlink *)
| Rmdir (path : string)                           (* fs.rmdir *)
| OpenBrowser (path : string).                    (* open *)

Inductive reply : Type :=
| Returned
| Failed (e : error)
| Names (files : list string)
| Tags (detections : list (Detection num)).

(** A line of console output; numbers are kept as values, not as the
    digits [toFixed] prints. *)
Inductive line : Type :=
| Text (s : string)
| UsingTempDir (tempDir : string)
| FoundFiles (n : nat)
| UsingSubset (n : Z)
| ProcessingQuality (q : Q)
| PngPath (path : string)
| JpegPath (q : Q) (path : string)
| MarkersDetected (arwFile : string) (n : nat) (jpegQuality : option Q)
| CornersHeading (arwFile : string) (jpegQuality : option Q)
| TagCorners (id : Z) (points : list (num * num))
| TableRow (r : QualityResult)
| PreservedFiles (tempDir : string)
| TableSaved (path : string)
| PlotSaved (path : string)
| ErrorLine (e : error).

Inductive event : Type :=
| Log (l : line)                 (* console.log *)
| LogError (l : line)            (* console.error *)
| Called (c : call) (r : reply).

Definition trace : Type := list event.

(** The outside world answers every call; an answer may depend on all
    that happened before.  The functions of Node's [path] module belong
    to it as well: what they return depends on the platform, and the
    program only passes their results on. *)
Record World : Type := {
  cwd : string;                                   (* process.cwd() *)
  tmpdir : string;                                (* os.tmpdir() *)
  path_join : string -> string -> string;         (* path.join(a, b) *)
  path_basename : string -> string -> string;     (* path.basename(name, ext) *)
  RAW_DIR : trace -> option string;               (* process.env.RAW_DIR *)
  date_now : trace -> string;                     (* Date.now(), printed *)
  date_iso : trace -> string;                     (* new Date().toISOString() *)
  fails : trace -> call -> option error;          (* does this call throw? *)
  listing : trace -> string -> list string;       (* what readdir returns *)
  detected : trace -> string -> list (Detection num);   (* what detect returns *)
}.

Variable w : World.

(** *** The monad of the script: a trace, exceptions and exit *)

Definition M (A : Type) : Type := trace -> completion A * trace.

#[export] Instance M_ret : MRet M := fun _ a t => (Normal a, t).
#[export] Instance M_bind : MBind M := fun _ _ f m t =>
  match m t with
  | (Normal a, t') => f a t'
  | (Throw e, t') => (Throw e, t')
  | (Exit code, t') => (Exit code, t')
  end.

Definition lift {A : Type} (c : completion A) : M A := fun t => (c, t).

Definition log (l : line) : M unit := fun t => (Normal tt, t ++ [Log l]).

Definition log_error (l : line) : M unit := fun t => (Normal tt, t ++ [LogError l]).

Definition ask {A : Type} (f : trace -> A) : M A := fun t => (Normal (f t), t).

(** An external call: it throws, or returns what the world answers. *)
Definition perform {A : Type} (c : call) (answer : trace -> A) (shown : A -> reply)
    : M A := fun t =>
  match fails w t c with
  | Some e => (Throw e, t ++ [Called c (Failed e)])
  | None => (Normal (answer t), t ++ [Called c (shown (answer t))])
  end.

Definition do_call (c : call) : M unit := perform c (fun _ => tt) (fun _ => Returned).

(** [process.exit(code)] *)
Definition exit {A : Type} (code : Z) : M A := fun t => (Exit code, t).

(** [try { body } catch (error) { handler }] *)
Definition try_catch {A : Type} (body : M A) (handler : error -> M A) : M A := fun t =>
  match body t with
  | (Throw e, t') => handler e t'
  | r => r
  end.

Definition when (b : bool) (m : M unit) : M unit := if b then m else mret tt.

(** *** The adapters *)

Definition createTempDir : M string :=
  now ← ask (date_now w);
  let tempDir := path_join w (tmpdir w) ("apriltag-quality-" ++ now)%string in
  do_call (Mkdir tempDir);;
  mret tempDir.

Definition convertARWToPNG (arwPath outputPath : string) : M unit :=
  do_call (ReadFile arwPath);;
  do_call (ConvertRaw arwPath None);;
  do_call (WriteFile outputPath (Picture arwPath None)).

Definition convertARWToJPEG (arwPath outputPath : string) (quality : Q) : M unit :=
  do_call (ReadFile arwPath);;
  do_call (ConvertRaw arwPath (Some quality));;
  do_call (WriteFile outputPath (Picture arwPath (Some quality))).

Definition detectAprilTags (imagePath : string) : M (list (Detection num)) :=
  do_call (LoadImage imagePath);;
  detections ← perform (Detect imagePath) (fun t => detected w t imagePath) Tags;
  mret ((fun detection =>
           {| tag_id := tag_id detection; corners := corners detection |})
        <$> detections).

(** *** Printing corners *)

(** [`(${c[0].toFixed(2)}, ${c[1].toFixed(2)})`]: a missing coordinate
    is [undefined], which has no [toFixed]. *)
Definition corner_point (c : list num) : completion (num * num) :=
  match c !! 0, c !! 1 with
  | Some x, Some y => Normal (x, y)
  | _, _ => Throw (TypeError "Cannot read properties of undefined")
  end.

Fixpoint corner_points (cs : list (list num)) : completion (list (num * num)) :=
  match cs with
  | [] => Normal []
  | c :: cs' => p ← corner_point c; ps ← corner_points cs'; Normal (p :: ps)
  end.

(** [(a, b) => a.id - b.id], tested for a positive result *)
Definition by_id (a b : Detection num) : bool := (0 <? tag_id a - tag_id b)%Z.

(** The loop over [[...tags].sort((a, b) => a.id - b.id)] *)
Definition print_tags (tags : list (Detection num)) : M unit :=
  for_of (array_sort by_id tags) (fun _ tag =>
    points ← lift (corner_points (corners tag));
    log (TagCorners (tag_id tag) points)) tt.

(** *** Missing markers *)

(** [new Set(detection.map((d) => d.id))] *)
Definition id_set (detection : list (Detection num)) : gset Z :=
  list_to_set (tag_id <$> detection).

(** [groundTruth.filter((gt) => !detectedIds.has(gt.id)).length] *)
Definition count_missing (groundTruth detection : list (Detection num)) : nat :=
  let detectedIds := id_set detection in
  length (filter (fun gt => tag_id gt ∉ detectedIds) groundTruth).

(** *** Reports *)

Definition saveTableToFile (rows : list QualityResult) : M unit :=
  let outDir := path_join w (cwd w) "out" in
  do_call (Mkdir outDir);;
  timestamp ← ask (date_iso w);
  let filePath := path_join w outDir ("quality-analysis-" ++ timestamp ++ ".txt")%string in
  do_call (WriteFile filePath (TableFile rows));;
  log (TableSaved filePath).

Definition createScatterPlot (data : list ScatterPoint) : M unit :=
  let outDir := path_join w (cwd w) "out" in
  do_call (Mkdir outDir);;
  let plotPath := path_join w outDir "quality-analysis-plot.html" in
  do_call (WriteFile plotPath (PlotPage data));;
  log (PlotSaved plotPath);;
  try_catch (do_call (OpenBrowser plotPath))
    (fun _ => log (Text "Could not automatically open the plot. Please open manually.")).

(** *** main *)

Variable rev : revision.

(** The variables of one pass over the files. *)
Record Pool : Type := {
  allDeltas : list num;
  totalMissingMarkers : nat;
  scatterData : list ScatterPoint;
}.

(** [Math.min(...deltas)], [Math.max(...deltas)] and the mean of a
    non-empty [deltas] *)
Definition scatter_point (quality : Q) (arwFile : string) (d : num) (ds : list num)
    : ScatterPoint :=
  let deltas := d :: ds in
  {| point_quality := quality;
     meanDelta := ndiv (fold_left (fun sum val => nadd sum val) deltas lit0)
                       (of_nat (length deltas));
     minDelta := fold_left nmin ds d;
     maxDelta := fold_left nmax ds d;
     image := arwFile |}.

(** The body of [for (const arwFile of arwFiles)]. *)
Definition process_file (cfg : Config) (dir tempDir : string) (quality : Q)
    (pool : Pool) (arwFile : string) : M Pool :=
  let arwPath := path_join w dir arwFile in
  let baseName := path_basename w arwFile ".ARW" in
  (* Convert to PNG (ground truth) *)
  let pngPath := path_join w tempDir (baseName ++ "_gt.png")%string in
  convertARWToPNG arwPath pngPath;;
  when (preserveFiles cfg && is_first_quality quality) (log (PngPath pngPath));;
  groundTruth ← detectAprilTags pngPath;
  log (MarkersDetected arwFile (length groundTruth) None);;
  when (printCorners cfg && is_first_quality quality)
    (log (CornersHeading arwFile None);; print_tags groundTruth);;
  (* Convert to JPEG with specific quality *)
  let jpegPath :=
    path_join w tempDir (baseName ++ "_q" ++ quality_text quality ++ ".jpg")%string in
  convertARWToJPEG arwPath jpegPath quality;;
  when (preserveFiles cfg) (log (JpegPath quality jpegPath));;
  detection ← detectAprilTags jpegPath;
  log (MarkersDetected arwFile (length detection) (Some quality));;
  (* Count missing markers *)
  let missing := count_missing groundTruth detection in
  let totalMissingMarkers := totalMissingMarkers pool + missing in
  when (printCorners cfg)
    (log (CornersHeading arwFile (Some quality));; print_tags detection);;
  (* Calculate deltas *)
  deltas ← lift (calculateDeltas groundTruth detection);
  let allDeltas := allDeltas pool ++ deltas in
  (* Store per-image data for scatter plot *)
  let scatterData :=
    match rev, deltas with
    | WithPlot, d :: ds => scatterData pool ++ [scatter_point quality arwFile d ds]
    | _, _ => scatterData pool
    end in
  (* Clean up temporary files if not preserving *)
  when (negb (preserveFiles cfg))
    (do_call (Unlink pngPath);; do_call (Unlink jpegPath));;
  mret {| allDeltas := allDeltas;
          totalMissingMarkers := totalMissingMarkers;
          scatterData := scatterData |}.

(** The body of [for (const quality of QUALITY_VALUES)]. *)
Definition process_quality (cfg : Config) (dir tempDir : string) (arwFiles : list string)
    (acc : list QualityResult * list ScatterPoint) (quality : Q)
    : M (list QualityResult * list ScatterPoint) :=
  let '(results, scatter) := acc in
  log (ProcessingQuality quality);;
  pool ← for_of arwFiles (process_file cfg dir tempDir quality)
           {| allDeltas := []; totalMissingMarkers := 0; scatterData := scatter |};
  let '(stats, _) := calculateStats (allDeltas pool) in
  mret (results ++ [{| quality := quality; stats := stats;
                       missingMarkers := totalMissingMarkers pool |}],
        scatterData pool).

(** [subsetSize && subsetSize > 0 && subsetSize < arwFiles.length] *)
Definition subset_applies (cfg : Config) (arwFiles : list string) : option Z :=
  match subsetSize cfg with
  | Some (Integer n) =>
      if negb (n =? 0)%Z && (0 <? n)%Z && (n <? Z.of_nat (length arwFiles))%Z
      then Some n else None
  | Some (Infinity _) => None      (* neither -Infinity > 0 nor Infinity < length *)
  | None => None
  end.

Definition usage : list string :=
  [ "AprilTag Quality Analysis";
    "Usage: node analyze-quality.js [subset_size] [raw_directory] [options]";
    "Arguments:";
    "  subset_size     Number of images to process (default: all)";
    "  raw_directory   Path to directory containing ARW files (default: from .env.local)";
    "Options:";
    "  --preserve,-p   Keep converted files and print paths";
    "  --corners,-c    Print corner positions ordered by marker ID" ]
  ++ match rev with
     | WithPlot => [ "  --no-plot       Skip generating the scatter plot" ]
     | Original => []
     end
  ++ [ "Example: node analyze-quality.js 10 /path/to/raw --preserve" ].

Definition table_heading : list string :=
  [ "Quality Analysis Results:";
    "Quality | Min Delta | Mean Delta | Median Delta | Max Delta | Missing Markers";
    "--------|-----------|------------|--------------|-----------|----------------" ].

(** The [try] block of [main]; [dir] is the global [rawDir]. *)
Definition main_body (cfg : Config) (dir : string) : M unit :=
  tempDir ← createTempDir;
  log (UsingTempDir tempDir);;
  names ← perform (Readdir dir) (fun t => listing w t dir) Names;
  let arwFiles := raw_files names in
  log (FoundFiles (length arwFiles));;
  (* Apply subset if specified *)
  arwFiles ← match subset_applies cfg arwFiles with
             | Some n => log (UsingSubset n);; mret (take (Z.to_nat n) arwFiles)
             | None => mret arwFiles
             end;
  '(results, scatterData) ←
    for_of QUALITY_VALUES (process_quality cfg dir tempDir arwFiles) ([], []);
  (* Display results as table *)
  for_of table_heading (fun _ s => log (Text s)) tt;;
  for_of results (fun _ result => log (TableRow result)) tt;;
  match rev with
  | WithPlot => saveTableToFile results
  | Original => mret tt
  end;;
  (* Clean up temp directory if not preserving files *)
  (if negb (preserveFiles cfg) then do_call (Rmdir tempDir)
   else log (PreservedFiles tempDir));;
  (* Create scatter plot *)
  match rev with
  | WithPlot =>
      when (negb (noPlot cfg) && (0 <? length scatterData))
        (createScatterPlot scatterData)
  | Original => mret tt
  end.

Definition main (cfg : Config) (dir : string) : M unit :=
  for_of usage (fun _ s => log (Text s)) tt;;
  try_catch (main_body cfg dir)
    (fun error => log_error (ErrorLine error);; exit 1).

(** *** The script, top to bottom *)

(** [args] is [process.argv.slice(2)]. *)
Definition script (args : list string) : M unit :=
  (* Load environment variables from .env.local if it exists *)
  let envPath := path_join w (cwd w) ".env.local" in
  try_catch (do_call (Access envPath);; do_call (Dotenv envPath))
    (fun _ => mret tt);;
  (* Parse command line arguments *)
  env ← ask (RAW_DIR w);
  let cfg := parse_arguments args env in
  if negb (truthy (rawDir cfg)) then
    log_error (Text "Error: No RAW directory specified.");;
    log_error (Text "Please provide a directory path as the second argument or set RAW_DIR in .env.local");;
    exit 1
  else
    (* Create detector once to avoid re-initialization *)
    do_call NewDetector;;
    main cfg (default "" (rawDir cfg)).

(** The exit status of the process: 0 when the script runs to its end,
    1 for an uncaught exception. *)
Definition exit_status {A : Type} (c : completion A) : Z :=
  match c with
  | Normal _ => 0
  | Throw _ => 1
  | Exit code => code
  end.

End Driver.

Arguments content num : clear implicits.
Arguments call num : clear implicits.
Arguments reply num : clear implicits.
Arguments line num : clear implicits.
Arguments World num : clear implicits.
Arguments event num : clear implicits.
Arguments trace num : clear implicits.
Arguments M num A : clear implicits.
Arguments QualityResult num : clear implicits.
Arguments ScatterPoint num : clear implicits.
Arguments Pool num : clear implicits.

(** ** Vocabulary of the statements *)

Section Vocabulary.
Context {num : Type} `{JSNumber num}.
Implicit Types (gt det : list (Detection num)) (g d : Detection num).

(** The Euclidean distance of two corners, from their coordinates. *)
Definition distance (c1 c2 : list num) : num :=
  let dx := nsub (element c1 0) (element c2 0) in
  let dy := nsub (element c1 1) (element c2 1) in
  nsqrt (nadd (nmul dx dx) (nmul dy dy)).

(** What one reference marker adds to the delta list: the distances of
    its first four corners to those of the comparison marker with the
    same identifier, or nothing when there is none. *)
Definition marker_deltas det g : list num :=
  match find_by_id det (tag_id g) with
  | Some d => zip_with distance (take 4 (corners g)) (take 4 (corners d))
  | None => []
  end.

Definition four_corners d : Prop := length (corners d) = 4.

Definition well_formed d : Prop :=
  length (corners d) = 4 ∧ Forall (fun c => length c = 2) (corners d).

End Vocabulary.

(** *** Statements about runs *)

Section RunVocabulary.
Context {num : Type} `{JSNumber num}.

(** Started on any trace, [m] appends events [es] to it and ends with a
    completion [c] such that [post c es]. *)
Definition emits {A : Type} (m : M num A) (post : completion A -> list (event num) -> Prop)
    : Prop :=
  ∀ t, ∃ es, (m t).2 = t ++ es ∧ post (m t).1 es.

(** A completion without its value. *)
Variant ending : Type := Finished | Raised (e : error) | Exited (code : Z).

Definition ending_of {A : Type} (c : completion A) : ending :=
  match c with
  | Normal _ => Finished
  | Throw e => Raised e
  | Exit code => Exited code
  end.

(** A property of the events of a run that is kept by running one piece
    of code after another and by every single step: console output, a
    call that returns, a call that throws, and a thrown failure of a
    call other than [unlink] that is caught. *)
Record invariant (P : ending -> list (event num) -> Prop) : Prop := {
  inv_silent : ∀ k, P k [];
  inv_app : ∀ es1 k es2, P Finished es1 → P k es2 → P k (es1 ++ es2);
  inv_log : ∀ l, P Finished [Log l];
  inv_log_error : ∀ l, P Finished [LogError l];
  inv_returned : ∀ c r, (∀ e, r ≠ Failed e) → P Finished [Called c r];
  inv_failed : ∀ c e, P (Raised e) [Called c (Failed e)];
  inv_caught : ∀ c e, (∀ path, c ≠ Unlink path) → P Finished [Called c (Failed e)];
}.

Definition keeps (P : ending -> list (event num) -> Prop) {A : Type} (m : M num A) : Prop :=
  emits m (fun c es => P (ending_of c) es).

Definition failed_unlink (ev : event num) : Prop :=
  ∃ path e, ev = Called (Unlink path) (Failed e).

(** No deletion has failed, or the last event is a failed deletion and
    its error is being thrown. *)
Definition stops_at_failed_unlink (k : ending) (es : list (event num)) : Prop :=
  Forall (fun ev => ¬ failed_unlink ev) es
  ∨ ∃ es' path e,
      es = es' ++ [Called (Unlink path) (Failed e)]
      ∧ Forall (fun ev => ¬ failed_unlink ev) es'
      ∧ k = Raised e.

(** Once a deletion has failed, its error is logged and the process
    exits with status 1; nothing else happens. *)
Definition aborts_on_failed_unlink {A : Type} (c : completion A) (es : list (event num))
    : Prop :=
  ∀ es1 path e es2,
    es = es1 ++ Called (Unlink path) (Failed e) :: es2 →
    es2 = [LogError (ErrorLine e)] ∧ c = Exit 1.

(** The events of loading [.env.local]. *)
Definition env_loading (ev : event num) : Prop :=
  ∃ path r, ev = Called (Access path) r ∨ ev = Called (Dotenv path) r.

(** The JPEG conversion that a call is: which RAW file, at which quality. *)
Definition conversion_of (c : call num) : list (string * Q) :=
  match c with
  | ConvertRaw arwPath (Some quality) => [(arwPath, quality)]
  | _ => []
  end.

(** The JPEG conversions of a trace, whether they returned or threw. *)
Definition conversions (es : list (event num)) : list (string * Q) :=
  flat_map (fun ev =>
    match ev with
    | Called c _ => conversion_of c
    | _ => []
    end) es.

(** Every quality level in turn, and at each level every file in turn. *)
Definition plan (w : World num) (dir : string) (files : list string)
    : list (string * Q) :=
  flat_map (fun quality => (fun file => (path_join w dir file, quality)) <$> files)
           QUALITY_VALUES.

(** The files that [main] goes through, given the RAW files of the
    directory. *)
Definition selected_files (cfg : Config) (arwFiles : list string) : list string :=
  match subset_applies cfg arwFiles with
  | Some n => take (Z.to_nat n) arwFiles
  | None => arwFiles
  end.

(** The events are conversions [expected], or the beginning of them when
    the run is cut short. *)
Definition converts {A : Type} (expected : list (string * Q))
    (c : completion A) (es : list (event num)) : Prop :=
  conversions es `prefix_of` expected
  ∧ (ending_of c = Finished → conversions es = expected).

(** A run converts, level by level, the selected RAW files of the
    listing that [readdir] returned, a listing of the world. *)
Definition converts_selected {A : Type} (w : World num) (cfg : Config) (dir : string)
    (c : completion A) (es : list (event num)) : Prop :=
  ∃ names,
    (∃ t, names = listing w t dir)
    ∧ (ending_of c = Finished → Called (Readdir dir) (Names names) ∈ es)
    ∧ converts (plan w dir (selected_files cfg (raw_files names))) c es.

End RunVocabulary.

(** *** Runs in which nothing goes wrong *)

Section Obliging.
Context {num : Type} `{JSNumber num}.

(** A world in which nothing goes wrong: no call throws, and every
    marker that the detector returns has four corners of two
    coordinates each. *)
Definition obliging (w : World num) : Prop :=
  (∀ t c, fails w t c = None)
  ∧ (∀ t path, Forall well_formed (detected w t path)).

(** The script finds a directory to work on: the second positional
    word, or else [RAW_DIR], is a string that is not empty. *)
Definition directory_given (w : World num) (args : list string) : Prop :=
  ∀ t, truthy (rawDir (parse_arguments args (RAW_DIR w t))) = true.

(** Started on any trace, [m] runs to its end, and its value satisfies
    [Q]. *)
Definition finishes {A : Type} (m : M num A) (Q : A -> Prop) : Prop :=
  ∀ t, ∃ a t', m t = (Normal a, t') ∧ Q a.

End Obliging.

(** The decimal numeral of a positive integer, as one types it on the
    command line. *)
Definition decimal (n : positive) : string := NilEmpty.string_of_uint (Pos.to_uint n).

(** The value of a run of decimal digits read after [acc]. *)
Fixpoint digits_value (d : Decimal.uint) (acc : N) : N :=
  match d with
  | Decimal.Nil => acc
  | Decimal.D0 l => digits_value l (10 * acc)
  | Decimal.D1 l => digits_value l (10 * acc + 1)
  | Decimal.D2 l => digits_value l (10 * acc + 2)
  | Decimal.D3 l => digits_value l (10 * acc + 3)
  | Decimal.D4 l => digits_value l (10 * acc + 4)
  | Decimal.D5 l => digits_value l (10 * acc + 5)
  | Decimal.D6 l => digits_value l (10 * acc + 6)
  | Decimal.D7 l => digits_value l (10 * acc + 7)
  | Decimal.D8 l => digits_value l (10 * acc + 8)
  | Decimal.D9 l => digits_value l (10 * acc + 9)
  end%N.

(** [(a, b) => a - b] on real numbers, tested for a positive result. *)
Definition after_real (a b : R) : bool := if Rlt_dec 0 (a - b) then true else false.

(** The median of an ascending list of real numbers, in the words of the
    specification: the middle element for an odd length, the arithmetic
    mean of the two middle elements for an even length. *)
Definition median_of_sorted (s : list R) : R :=
  if Nat.even (length s)
  then ((nth (length s / 2 - 1) s 0 + nth (length s / 2) s 0) / 2)%R
  else nth (length s / 2) s 0%R.

(** [a <= b] on IEEE numbers. *)
Definition at_most (a b : float) : Prop := PrimFloat.leb a b = true.

(** A list of numbers proper: none of them is NaN. *)
Definition numbers (l : list float) : Prop :=
  Forall (fun x => PrimFloat.is_nan x = false) l.

(** The median of an ascending list of IEEE numbers, in the same words,
    with the mean of the two middle elements computed in IEEE
    arithmetic. *)
Definition median_of_sorted_ieee (s : list float) : float :=
  if Nat.even (length s)
  then ((nth (length s / 2 - 1) s PrimFloat.nan
         + nth (length s / 2) s PrimFloat.nan) / 2)%float
  else nth (length s / 2) s PrimFloat.nan.

(** Whether a binary floating-point datum is above zero. *)
Definition positive_sf (x : spec_float) : bool := SFltb (S754_zero false) x.

(** Two detection sets and a world to run the script in, on IEEE
    numbers. *)
Module Sample.

Definition square (y : float) : list (list float) :=
  [[0; 0]; [1; 0]; [1; 1]; [0; y]]%float.

Definition reference : list (Detection float) :=
  [ {| tag_id := 1; corners := square 1 |};
    {| tag_id := 2; corners := square 1 |} ].

Definition comparison : list (Detection float) :=
  [ {| tag_id := 1; corners := square 2 |} ].

(** Two markers whose corners all lie on the line x = 0, and the same
    markers found 0.1 pixel to the right. *)
Definition column (x : float) : list (list float) :=
  [[x; 0]; [x; 1]; [x; 2]; [x; 3]]%float.

Definition column_reference : list (Detection float) :=
  [ {| tag_id := 1; corners := column 0 |};
    {| tag_id := 2; corners := column 0 |} ].

Definition column_comparison : list (Detection float) :=
  [ {| tag_id := 1; corners := column 0.1 |};
    {| tag_id := 2; corners := column 0.1 |} ].

Definition tenths : list float :=
  [0.1; 0.1; 0.1; 0.1; 0.1; 0.1; 0.1; 0.1]%float.

(** [path.join] and [path.basename] on a POSIX platform, for a
    directory in normal form and a plain file name. *)
Definition join (a b : string) : string := (a ++ "/" ++ b)%string.

Definition basename (name ext : string) : string :=
  if String.eqb name ext then ""
  else if endsWith name ext
  then substring 0 (String.length name - String.length ext) name
  else name.

(** A directory with two RAW files; the detector finds [reference] in
    every PNG and [comparison] in every JPEG; nothing fails. *)
Definition world : World float := {|
  cwd := "/home/user";
  tmpdir := "/tmp";
  path_join := join;
  path_basename := basename;
  RAW_DIR := fun _ => None;
  date_now := fun _ => "1700000000000";
  date_iso := fun _ => "2024-01-01T00-00-00-000Z";
  fails := fun _ _ => None;
  listing := fun _ _ => ["a.ARW"; "notes.txt"; "b.arw"];
  detected := fun _ path => if endsWith path "_gt.png" then reference else comparison;
|}.

(** The same, except that no file can be deleted. *)
Definition world_without_unlink : World float := {|
  cwd := cwd world;
  tmpdir := tmpdir world;
  path_join := path_join world;
  path_basename := path_basename world;
  RAW_DIR := RAW_DIR world;
  date_now := date_now world;
  date_iso := date_iso world;
  fails := fun _ c =>
    match c with
    | Unlink _ => Some (ExternalError "EACCES: permission denied")
    | _ => None
    end;
  listing := listing world;
  detected := detected world;
|}.

(** [node analyze-quality.js 5 /data/raw] *)
Definition args : list string := ["5"; "/data/raw"].

Definition empty_pool : Pool float :=
  {| allDeltas := []; totalMissingMarkers := 0; scatterData := [] |}.

(** The body of the file loop, run once in [world]. *)
Definition file_run : completion (Pool float) * trace float :=
  process_file world WithPlot (parse_arguments args None) "/data/raw" "/tmp/work"
    0.1%Q empty_pool "a.ARW" [].

Definition pool_after : Pool float :=
  match file_run.1 with
  | Normal pool => pool
  | _ => empty_pool
  end.

(** Is this event a row of the summary table? *)
Definition is_table_row (ev : event float) : bool :=
  match ev with
  | Log (TableRow _) => true
  | _ => false
  end.

End Sample.

(** ** Further vocabulary *)

Section ComparisonVocabulary.
Context {num : Type} `{JSNumber num}.

(** Whether the corner loop can read four corners of a reference marker
    and of the comparison marker that [find] returns for it; a marker
    without a match is not read at all. *)
Definition comparable (detection : list (Detection num)) (gtTag : Detection num) : bool :=
  match find_by_id detection (tag_id gtTag) with
  | Some detTag => (4 <=? length (corners gtTag)) && (4 <=? length (corners detTag))
  | None => true
  end.

End ComparisonVocabulary.

(** An IEEE number that is not below zero: a zero, a positive number,
    plus infinity, or NaN (which is below nothing). *)
Definition not_negative (x : float) : Prop := PrimFloat.ltb x 0 = false.

(** A binary floating-point datum that is not below zero. *)
Definition unsigned_sf (x : spec_float) : bool :=
  match x with
  | S754_zero _ | S754_nan => true
  | S754_infinity s | S754_finite s _ _ => negb s
  end.

(** A datum whose sign bit is clear, or NaN. *)
Definition plus_sf (x : spec_float) : bool :=
  match x with
  | S754_nan => true
  | S754_zero s | S754_infinity s | S754_finite s _ _ => negb s
  end.

(** An IEEE number that is zero or above and is not the negative zero:
    it is not NaN, and its sign bit is clear. *)
Definition unsigned (x : float) : Prop :=
  PrimFloat.leb 0 x = true ∧ x ≠ (-0)%float.

(** A corner whose coordinates are finite numbers. *)
Definition finite_corner (c : list float) : Prop :=
  Forall (fun x => PrimFloat.is_finite x = true) c.

Definition finite_corners (d : Detection float) : Prop :=
  Forall finite_corner (corners d).

(** The options that the script looks for. *)
Definition known_options : list string :=
  ["--preserve"; "-p"; "--corners"; "-c"; "--no-plot"].

Section CornerLines.
Context {num : Type} `{JSNumber num}.

(** The line that the corner listing prints for a marker whose corners
    all have two coordinates. *)
Definition corner_line (tag : Detection num) : event num :=
  Log (TagCorners (tag_id tag)
                  ((fun c => (element c 0, element c 1)) <$> corners tag)).

(** A marker one of whose corners lacks a coordinate. *)
Definition short_corner (tag : Detection num) : Prop :=
  Exists (fun c => length c < 2) (corners tag).

End CornerLines.

(** *** The discipline of a run of [main] *)

Section RunDiscipline.
Context {num : Type} `{JSNumber num}.

(** A call that threw, other than the opening of the browser, the one
    call of [main] whose failure has a handler of its own. *)
Definition fatal_failure (ev : event num) : Prop :=
  ∃ c e, ev = Called c (Failed e) ∧ ∀ path, c ≠ OpenBrowser path.

Definition unfailing (es : list (event num)) : Prop :=
  Forall (fun ev => ¬ fatal_failure ev) es.

(** Every event satisfies [Q]; the code does not leave through
    [process.exit]; a call that throws is the last thing that happens,
    and what is thrown otherwise is a TypeError of the language. *)
Definition orderly (Q : event num -> Prop) (k : ending) (es : list (event num)) : Prop :=
  Forall Q es
  ∧ match k with
    | Finished => unfailing es
    | Raised e =>
        (∃ es' c, es = es' ++ [Called c (Failed e)] ∧ unfailing es')
        ∨ ((∃ what, e = TypeError what) ∧ unfailing es)
    | Exited _ => False
    end.

Context (w : World num) (rev : revision) (cfg : Config) (dir : string).

(** The temporary directory of a run, and a file in it. *)
Definition temp_dir (path : string) : Prop :=
  ∃ now, path = path_join w (tmpdir w) ("apriltag-quality-" ++ now)%string.

Definition temp_file (path : string) : Prop :=
  ∃ tempDir name, temp_dir tempDir ∧ path = path_join w tempDir name.

(** The directory of the reports. *)
Definition out_dir : string := path_join w (cwd w) "out".

Definition plot_path : string := path_join w out_dir "quality-analysis-plot.html".

(** A file of the RAW directory whose name ends in [.arw], in any
    letter case. *)
Definition raw_file (path : string) : Prop :=
  ∃ file, path = path_join w dir file ∧ endsWith (toLowerCase file) ".arw" = true.

(** The calls that [main] makes, given the configuration. *)
Definition expected_call (c : call num) : Prop :=
  match c with
  | Access _ | Dotenv _ | NewDetector => False
  | Mkdir path => temp_dir path ∨ (rev = WithPlot ∧ path = out_dir)
  | Readdir path => path = dir
  | ReadFile path => raw_file path
  | ConvertRaw arwPath jpegQuality =>
      raw_file arwPath ∧ ∀ q, jpegQuality = Some q → q ∈ QUALITY_VALUES
  | WriteFile path (Picture arwPath _) => temp_file path ∧ raw_file arwPath
  | WriteFile path (TableFile _) =>
      rev = WithPlot ∧ ∃ name, path = path_join w out_dir name
  | WriteFile path (PlotPage data) =>
      rev = WithPlot ∧ noPlot cfg = false ∧ path = plot_path ∧ data ≠ []
  | LoadImage path | Detect path => temp_file path
  | Unlink path => preserveFiles cfg = false ∧ temp_file path
  | Rmdir path => preserveFiles cfg = false ∧ temp_dir path
  | OpenBrowser path => rev = WithPlot ∧ noPlot cfg = false ∧ path = plot_path
  end.

(** The lines that [main] prints with [console.log]. *)
Definition expected_line (l : line num) : Prop :=
  match l with
  | PngPath _ | JpegPath _ _ | PreservedFiles _ => preserveFiles cfg = true
  | CornersHeading _ _ | TagCorners _ _ => printCorners cfg = true
  | UsingSubset n => subsetSize cfg = Some (Integer n)
  | TableSaved _ => rev = WithPlot
  | PlotSaved _ => rev = WithPlot ∧ noPlot cfg = false
  | ErrorLine _ => False
  | _ => True
  end.

(** What happens inside the [try] block of [main]. *)
Definition expected_event (ev : event num) : Prop :=
  match ev with
  | Log l => expected_line l
  | LogError _ => False
  | Called c _ => expected_call c
  end.

(** The file of environment variables that the script looks for. *)
Definition env_file : string := path_join w (cwd w) ".env.local".

(** Looking for that file and loading it. *)
Definition reads_env_file (ev : event num) : Prop :=
  ∃ r, ev = Called (Access env_file) r ∨ ev = Called (Dotenv env_file) r.

(** What happens in a run of the whole script. *)
Definition script_event (ev : event num) : Prop :=
  reads_env_file ev
  ∨ (∃ l, ev = LogError l)
  ∨ (∃ r, ev = Called NewDetector r)
  ∨ (∃ s, ev = Log (Text s))
  ∨ expected_event ev.

End RunDiscipline.

(** *** What a run leaves in the temporary directory *)

(** What is done to the temporary directory and the pictures in it. *)
Variant temp_op : Type :=
| Wrote (path : string)
| Deleted (path : string)
| Removed (path : string).

Section Tallies.
Context {num : Type} `{JSNumber num}.

(** The events of a run, each replaced by the tokens [of_line] and
    [of_call] make of it. *)
Definition tokens {X : Type} (of_line : line num -> list X) (of_call : call num -> list X)
    (es : list (event num)) : list X :=
  flat_map (fun ev =>
    match ev with
    | Log l => of_line l
    | LogError _ => []
    | Called c _ => of_call c
    end) es.

(** A piece of code that runs to its end leaves the tokens [expected]. *)
Definition tallies {X A : Type} (of_line : line num -> list X)
    (of_call : call num -> list X) (expected : list X)
    (c : completion A) (es : list (event num)) : Prop :=
  ending_of c = Finished → tokens of_line of_call es = expected.

Definition temp_op_of (c : call num) : list temp_op :=
  match c with
  | WriteFile path (Picture _ _) => [Wrote path]
  | Unlink path => [Deleted path]
  | Rmdir path => [Removed path]
  | _ => []
  end.

(** The operations of a run on its temporary directory. *)
Definition temp_ops (es : list (event num)) : list temp_op :=
  tokens (fun _ => []) temp_op_of es.

(** The rows of the summary table that a run prints. *)
Definition table_rows (es : list (event num)) : list (QualityResult num) :=
  tokens (fun l => match l with TableRow r => [r] | _ => [] end) (fun _ => []) es.

(** What processing one file at one quality level does to the
    temporary directory. *)
Definition file_ops (w : World num) (cfg : Config) (tempDir : string) (quality : Q)
    (arwFile : string)
    : list temp_op :=
  let baseName := path_basename w arwFile ".ARW" in
  let pngPath := path_join w tempDir (baseName ++ "_gt.png")%string in
  let jpegPath :=
    path_join w tempDir (baseName ++ "_q" ++ quality_text quality ++ ".jpg")%string in
  [Wrote pngPath; Wrote jpegPath]
  ++ if preserveFiles cfg then [] else [Deleted pngPath; Deleted jpegPath].

(** The row of a quality level at which no delta was collected. *)
Definition empty_row (q : Q) : QualityResult num :=
  {| quality := q;
     stats := {| min := lit0; mean := lit0; median := lit0; max := lit0 |};
     missingMarkers := 0 |}.

End Tallies.

(** * Properties *)

Lemma for_of_nil {M : Type -> Type} `{!MBind M, !MRet M} {A S : Type}
    (body : S -> A -> M S) (acc : S) :
  for_of [] body acc = mret acc.
Proof. reflexivity. Qed.

Lemma for_of_cons {M : Type -> Type} `{!MBind M, !MRet M} {A S : Type}
    (x : A) (xs : list A) (body : S -> A -> M S) (acc : S) :
  for_of (x :: xs) body acc = body acc x ≫= for_of xs body.
Proof. reflexivity. Qed.

Lemma completion_bind_normal {A B : Type} (a : A) (f : A -> completion B) :
  Normal a ≫= f = f a.
Proof. reflexivity. Qed.

(** ** The delta calculator *)

Section DeltaProperties.
Context {num : Type} `{JSNumber num}.
Implicit Types (gt det : list (Detection num)) (g d : Detection num).

Lemma calculateCornerDistance_some c1 c2 :
  calculateCornerDistance (Some c1) (Some c2) = Normal (distance c1 c2).
Proof. reflexivity. Qed.

Lemma corner_loop g d deltas :
  for_of (seq 0 4) (fun deltas i =>
      delta ← calculateCornerDistance (corners g !! i) (corners d !! i);
      Normal (deltas ++ [delta])) deltas
  = if (4 <=? length (corners g)) && (4 <=? length (corners d))
    then Normal (deltas ++ zip_with distance (take 4 (corners g)) (take 4 (corners d)))
    else Throw (TypeError "Cannot read properties of undefined").
Proof.
  destruct (corners g) as [|a0 [|a1 [|a2 [|a3 la]]]];
    destruct (corners d) as [|b0 [|b1 [|b2 [|b3 lb]]]];
    cbn; rewrite <- ?app_assoc; reflexivity.
Qed.

Lemma find_by_id_Some det i d :
  find_by_id det i = Some d → d ∈ det ∧ tag_id d = i.
Proof.
  intros Hf. apply find_some in Hf as [Hin Heq].
  split; [by apply list_elem_of_In | by apply Z.eqb_eq].
Qed.

Lemma find_by_id_None det i : find_by_id det i = None ↔ i ∉ id_set det.
Proof.
  unfold find_by_id, id_set. rewrite not_elem_of_list_to_set, list_elem_of_fmap.
  split.
  - intros Hf (d & -> & Hin). apply list_elem_of_In in Hin.
    pose proof (find_none _ _ Hf _ Hin) as Hne. cbn in Hne.
    by rewrite Z.eqb_refl in Hne.
  - intros Hno. destruct (find _ det) as [d|] eqn:Hf; [|done].
    apply find_some in Hf as [Hin Heq]. exfalso. apply Hno.
    exists d. split; [symmetry; by apply Z.eqb_eq | by apply list_elem_of_In].
Qed.

(** With unique identifiers, [find] returns the one detection that
    carries the identifier. *)
Lemma find_by_id_unique det d :
  NoDup (tag_id <$> det) → d ∈ det → find_by_id det (tag_id d) = Some d.
Proof.
  induction det as [|d' det IH]; intros Hnd Hin; [by apply elem_of_nil in Hin|].
  rewrite fmap_cons in Hnd. apply NoDup_cons in Hnd as [Hnotin Hnd].
  unfold find_by_id. cbn. destruct (Z.eqb_spec (tag_id d') (tag_id d)) as [Heq|Hne].
  - apply elem_of_cons in Hin as [->|Hin]; [done|].
    exfalso. apply Hnotin. rewrite Heq. apply list_elem_of_fmap. eauto.
  - apply elem_of_cons in Hin as [->|Hin]; [done|]. by apply IH.
Qed.

(** Whenever [calculateDeltas] returns, it returns the blocks of the
    reference markers in reference order. *)
Lemma calculateDeltas_loop det gt acc deltas :
  for_of gt (fun deltas gtTag =>
    match find_by_id det (tag_id gtTag) with
    | Some detTag =>
        for_of (seq 0 4) (fun deltas i =>
          delta ← calculateCornerDistance (corners gtTag !! i) (corners detTag !! i);
          Normal (deltas ++ [delta])) deltas
    | None => Normal deltas
    end) acc = Normal deltas →
  deltas = acc ++ concat (marker_deltas det <$> gt).
Proof.
  revert acc. induction gt as [|g gt IH]; intros acc.
  - intros [= <-]. by rewrite app_nil_r.
  - rewrite for_of_cons, fmap_cons. cbn [concat]. unfold marker_deltas at 1.
    destruct (find_by_id det (tag_id g)) as [d|].
    + rewrite corner_loop. destruct (_ && _); [|discriminate].
      rewrite completion_bind_normal. intros Hrest.
      apply IH in Hrest. by rewrite Hrest, app_assoc.
    + rewrite completion_bind_normal. apply IH.
Qed.

Lemma calculateDeltas_returns gt det deltas :
  calculateDeltas gt det = Normal deltas →
  deltas = concat (marker_deltas det <$> gt).
Proof. apply calculateDeltas_loop. Qed.

Lemma calculateDeltas_loop_four det gt acc :
  Forall four_corners gt → Forall four_corners det →
  for_of gt (fun deltas gtTag =>
    match find_by_id det (tag_id gtTag) with
    | Some detTag =>
        for_of (seq 0 4) (fun deltas i =>
          delta ← calculateCornerDistance (corners gtTag !! i) (corners detTag !! i);
          Normal (deltas ++ [delta])) deltas
    | None => Normal deltas
    end) acc = Normal (acc ++ concat (marker_deltas det <$> gt)).
Proof.
  intros Hgt Hdet. revert acc.
  induction Hgt as [|g gt Hg Hgt IH]; intros acc.
  - cbn. by rewrite app_nil_r.
  - rewrite for_of_cons, fmap_cons. cbn [concat]. unfold marker_deltas at 1.
    destruct (find_by_id det (tag_id g)) as [d|] eqn:Hf.
    + apply find_by_id_Some in Hf as [Hin _].
      rewrite Forall_forall in Hdet. specialize (Hdet d Hin).
      unfold four_corners in *. rewrite corner_loop, Hg, Hdet.
      cbn [Nat.leb andb]. rewrite completion_bind_normal.
      by rewrite IH, app_assoc.
    + rewrite completion_bind_normal. apply IH.
Qed.

Lemma calculateDeltas_four_corners gt det :
  Forall four_corners gt → Forall four_corners det →
  calculateDeltas gt det = Normal (concat (marker_deltas det <$> gt)).
Proof. intros Hgt Hdet. by apply (calculateDeltas_loop_four det gt []). Qed.

Lemma marker_deltas_length gt det g :
  Forall four_corners gt → Forall four_corners det → g ∈ gt →
  length (marker_deltas det g) = if decide (tag_id g ∈ id_set det) then 4 else 0.
Proof.
  intros Hgt Hdet Hin. unfold marker_deltas.
  destruct (find_by_id det (tag_id g)) as [d|] eqn:Hf.
  - pose proof Hf as Hf'. apply find_by_id_Some in Hf as [Hd Hid].
    rewrite Forall_forall in Hgt, Hdet.
    specialize (Hgt g Hin). specialize (Hdet d Hd). unfold four_corners in *.
    rewrite length_zip_with, !length_take, Hgt, Hdet.
    destruct (decide _) as [|Hno]; [done|].
    apply find_by_id_None in Hno. congruence.
  - apply find_by_id_None in Hf. by destruct (decide _).
Qed.

(** The number of identifiers common to two sets, counted along the
    first one. *)
Lemma common_ids_size (ids : list Z) (X : gset Z) :
  NoDup ids →
  size ((list_to_set ids : gset Z) ∩ X) = length (filter (fun i => i ∈ X) ids).
Proof.
  intros Hnd.
  assert ((list_to_set ids : gset Z) ∩ X = list_to_set (filter (fun i => i ∈ X) ids))
    as ->.
  { apply set_eq. intros i.
    rewrite elem_of_intersection, !elem_of_list_to_set, list_elem_of_filter. tauto. }
  apply size_list_to_set. by apply NoDup_filter.
Qed.

Lemma deltas_length gt det :
  Forall four_corners gt → Forall four_corners det →
  length (concat (marker_deltas det <$> gt))
  = 4 * length (filter (fun i => i ∈ id_set det) (tag_id <$> gt)).
Proof.
  intros Hgt Hdet.
  assert (∀ l, (∀ g, g ∈ l → g ∈ gt) →
    length (concat (marker_deltas det <$> l))
    = 4 * length (filter (fun i => i ∈ id_set det) (tag_id <$> l))) as Hgen.
  { induction l as [|g l IH]; intros Hsub; [done|].
    rewrite fmap_cons. cbn [concat]. rewrite length_app.
    rewrite (marker_deltas_length gt det g Hgt Hdet) by (apply Hsub; left).
    rewrite IH by (intros; apply Hsub; by right).
    rewrite fmap_cons, filter_cons.
    destruct (decide (tag_id g ∈ id_set det)); cbn; lia. }
  apply Hgen. auto.
Qed.

End DeltaProperties.

Section DeltaTheorems.
Context {num : Type} `{JSNumber num}.
Implicit Types (gt det : list (Detection num)) (g d : Detection num).

(** C1.  When every detection has exactly four corners and the
    identifiers are unique within each set, [calculateDeltas] returns
    normally; its list is the concatenation, in reference order, of one
    block per reference marker; the block of a marker that the
    comparison set also holds is the four distances of the
    corresponding corners, in corner order; the block of a marker that
    only the reference set holds is empty; and the length of the list
    is four times the number of identifiers common to both sets. *)
Theorem calculateDeltas_common_markers gt det :
  Forall four_corners gt → Forall four_corners det →
  NoDup (tag_id <$> gt) → NoDup (tag_id <$> det) →
  ∃ deltas,
    calculateDeltas gt det = Normal deltas
    ∧ deltas = concat (marker_deltas det <$> gt)
    ∧ (∀ g d, g ∈ gt → d ∈ det → tag_id d = tag_id g →
         ∃ p0 p1 p2 p3 q0 q1 q2 q3 : list num,
           corners g = [p0; p1; p2; p3] ∧ corners d = [q0; q1; q2; q3]
           ∧ marker_deltas det g
             = [distance p0 q0; distance p1 q1; distance p2 q2; distance p3 q3])
    ∧ (∀ g, g ∈ gt → tag_id g ∉ id_set det → marker_deltas det g = [])
    ∧ length deltas = 4 * size (id_set gt ∩ id_set det).
Proof.
  intros Hgt Hdet Hnd_gt Hnd_det.
  exists (concat (marker_deltas det <$> gt)).
  split; [by apply calculateDeltas_four_corners|].
  split; [done|]. split; [|split].
  - intros g d Hg Hd Hid. unfold marker_deltas.
    rewrite <- Hid, (find_by_id_unique det d Hnd_det Hd).
    rewrite Forall_forall in Hgt, Hdet.
    specialize (Hgt g Hg). specialize (Hdet d Hd). unfold four_corners in *.
    destruct (corners g) as [|p0 [|p1 [|p2 [|p3 [|? ?]]]]]; try discriminate.
    destruct (corners d) as [|q0 [|q1 [|q2 [|q3 [|? ?]]]]]; try discriminate.
    by exists p0, p1, p2, p3, q0, q1, q2, q3.
  - intros g _ Hno. unfold marker_deltas.
    apply find_by_id_None in Hno. by rewrite Hno.
  - rewrite deltas_length by done. f_equal. symmetry.
    apply (common_ids_size (tag_id <$> gt) (id_set det) Hnd_gt).
Qed.

Lemma checked_distance c1 c2 :
  length c1 = 2 → length c2 = 2 →
  calculateCornerDistance_checked (Some c1) (Some c2) = Some (distance c1 c2).
Proof.
  destruct c1 as [|x1 [|y1 [|? ?]]]; try discriminate.
  destruct c2 as [|x2 [|y2 [|? ?]]]; try discriminate.
  reflexivity.
Qed.

Lemma checked_corner_loop g d deltas :
  well_formed g → well_formed d →
  for_of (seq 0 4) (fun deltas i =>
      delta ← calculateCornerDistance_checked (corners g !! i) (corners d !! i);
      Some (deltas ++ [delta])) deltas
  = Some (deltas ++ zip_with distance (take 4 (corners g)) (take 4 (corners d))).
Proof.
  intros [Hg Hcg] [Hd Hcd].
  destruct (corners g) as [|p0 [|p1 [|p2 [|p3 [|? ?]]]]]; try discriminate.
  destruct (corners d) as [|q0 [|q1 [|q2 [|q3 [|? ?]]]]]; try discriminate.
  repeat match goal with
         | Hf : Forall _ (_ :: _) |- _ => apply Forall_cons in Hf as [? Hf]
         end.
  cbn [seq for_of lookup list_lookup].
  rewrite !checked_distance by done. cbn. by rewrite <- !app_assoc.
Qed.

Lemma calculateDeltas_checked_loop det gt acc :
  Forall well_formed gt → Forall well_formed det →
  for_of gt (fun deltas gtTag =>
    match find_by_id det (tag_id gtTag) with
    | Some detTag =>
        for_of (seq 0 4) (fun deltas i =>
          delta ← calculateCornerDistance_checked
                    (corners gtTag !! i) (corners detTag !! i);
          Some (deltas ++ [delta])) deltas
    | None => Some deltas
    end) acc = Some (acc ++ concat (marker_deltas det <$> gt)).
Proof.
  intros Hgt Hdet. revert acc.
  induction Hgt as [|g gt Hg Hgt' IH]; intros acc.
  - cbn. by rewrite app_nil_r.
  - rewrite for_of_cons, fmap_cons. cbn [concat]. unfold marker_deltas at 1.
    destruct (find_by_id det (tag_id g)) as [d|] eqn:Hf.
    + apply find_by_id_Some in Hf as [Hin _].
      rewrite Forall_forall in Hdet. pose proof (Hdet d Hin) as Hd.
      rewrite checked_corner_loop by done. cbn [mbind option_bind].
      by rewrite IH, app_assoc.
    + cbn [mbind option_bind]. apply IH.
Qed.

(** C10.  When every detection of both sets has exactly four corners,
    each of two coordinates, the run of [calculateDeltas] in which
    every array read is partial never meets a read out of range: it
    returns a list, and [calculateDeltas] returns that same list
    without raising. *)
Theorem calculateDeltas_reads_in_range gt det :
  Forall well_formed gt → Forall well_formed det →
  ∃ deltas,
    calculateDeltas_checked gt det = Some deltas
    ∧ calculateDeltas gt det = Normal deltas.
Proof.
  intros Hgt Hdet. exists (concat (marker_deltas det <$> gt)). split.
  - by apply (calculateDeltas_checked_loop det gt []).
  - apply calculateDeltas_four_corners.
    + eapply Forall_impl; [exact Hgt | by intros ? [? _]].
    + eapply Forall_impl; [exact Hdet | by intros ? [? _]].
Qed.

End DeltaTheorems.

Lemma sample_four_corners :
  Forall four_corners Sample.reference ∧ Forall four_corners Sample.comparison.
Proof. split; repeat constructor. Qed.

Lemma sample_unique_ids :
  NoDup (tag_id <$> Sample.reference) ∧ NoDup (tag_id <$> Sample.comparison).
Proof. split; apply (bool_decide_unpack _); vm_compute; exact I. Qed.

Lemma calculateDeltas_common_markers_sample :
  (Forall four_corners Sample.reference ∧ Forall four_corners Sample.comparison
   ∧ NoDup (tag_id <$> Sample.reference) ∧ NoDup (tag_id <$> Sample.comparison))
  ∧ ∃ deltas,
      calculateDeltas Sample.reference Sample.comparison = Normal deltas
      ∧ length deltas = 4 * size (id_set Sample.reference ∩ id_set Sample.comparison).
Proof.
  destruct sample_four_corners as [Hr Hc]. destruct sample_unique_ids as [Hnr Hnc].
  split; [done|].
  destruct (calculateDeltas_common_markers Sample.reference Sample.comparison
              Hr Hc Hnr Hnc) as (deltas & Hd & _ & _ & _ & Hlen).
  by exists deltas.
Defined.

Lemma sample_well_formed :
  Forall well_formed Sample.reference ∧ Forall well_formed Sample.comparison.
Proof. split; repeat (constructor || split). Qed.

Lemma calculateDeltas_reads_in_range_sample :
  (Forall well_formed Sample.reference ∧ Forall well_formed Sample.comparison)
  ∧ ∃ deltas,
      calculateDeltas_checked Sample.reference Sample.comparison = Some deltas
      ∧ calculateDeltas Sample.reference Sample.comparison = Normal deltas.
Proof.
  destruct sample_well_formed as [Hr Hc]. split; [done|].
  exact (calculateDeltas_reads_in_range Sample.reference Sample.comparison Hr Hc).
Defined.

(** The partial reads do answer [None] when a corner or a coordinate
    is missing; [calculateDeltas] raises in the first case and returns
    NaN in the second. *)
Example missing_corner :
  let short := [ {| tag_id := 1; corners := [[0; 0]; [1; 0]; [1; 1]]%float |} ] in
  calculateDeltas_checked short Sample.comparison = None
  ∧ calculateDeltas short Sample.comparison
    = Throw (TypeError "Cannot read properties of undefined").
Proof. split; vm_compute; reflexivity. Qed.

Example missing_coordinate :
  let flat := [ {| tag_id := 1; corners := [[0; 0]; [1; 0]; [1; 1]; [0]]%float |} ] in
  calculateDeltas_checked flat Sample.comparison = None
  ∧ calculateDeltas flat Sample.comparison = Normal [0; 0; 0; PrimFloat.nan]%float.
Proof. split; vm_compute; reflexivity. Qed.


(** ** The statistics aggregator *)

Section SortProperties.
Context {A : Type} (after : A -> A -> bool).

Lemma sort_insert_perm (x : A) (l : list A) : sort_insert after x l ≡ₚ x :: l.
Proof.
  induction l as [|y l IH]; [done|]. cbn. destruct (after x y); [|done].
  rewrite IH. apply Permutation_swap.
Qed.

(** Whatever the comparison function, sorting permutes the array. *)
Lemma array_sort_perm (l : list A) : array_sort after l ≡ₚ l.
Proof.
  induction l as [|x l IH]; [done|]. cbn.
  by rewrite sort_insert_perm, IH.
Qed.

Lemma array_sort_length (l : list A) : length (array_sort after l) = length l.
Proof. by rewrite array_sort_perm. Qed.

Lemma sort_insert_fmap {B : Type} (f : A -> B) (after' : B -> B -> bool) x l :
  (∀ a b, after' (f a) (f b) = after a b) →
  sort_insert after' (f x) (f <$> l) = f <$> sort_insert after x l.
Proof.
  intros Hf. induction l as [|y l IH]; [done|]. cbn.
  rewrite Hf. destruct (after x y); [|done]. cbn. f_equal. apply IH.
Qed.

Lemma array_sort_fmap {B : Type} (f : A -> B) (after' : B -> B -> bool) l :
  (∀ a b, after' (f a) (f b) = after a b) →
  array_sort after' (f <$> l) = f <$> array_sort after l.
Proof.
  intros Hf. induction l as [|x l IH]; [done|]. cbn.
  fold (array_sort after' (f <$> l)). fold (array_sort after l).
  rewrite IH. by apply sort_insert_fmap.
Qed.

End SortProperties.

Section ExactStatistics.
#[local] Open Scope R_scope.

Lemma sort_insert_ascending (x : R) (s : list R) :
  StronglySorted Rle s → StronglySorted Rle (sort_insert after_real x s).
Proof.
  induction 1 as [|y s Hs IH Hy]; cbn.
  - repeat constructor.
  - unfold after_real at 1. destruct (Rlt_dec 0 (x - y)) as [Hlt|Hge].
    + constructor; [done|].
      rewrite sort_insert_perm. constructor; [lra | done].
    + constructor; [by constructor|].
      constructor; [lra|]. eapply Forall_impl; [exact Hy|].
      intros z Hz. cbn in Hz. lra.
Qed.

(** On real numbers the comparison function is consistent, and the
    array comes out in ascending order. *)
Lemma array_sort_ascending (l : list R) :
  StronglySorted Rle (array_sort after_real l).
Proof.
  induction l as [|x l IH]; cbn; [constructor|].
  by apply sort_insert_ascending.
Qed.

Lemma ascending_nth (s : list R) (i j : nat) :
  StronglySorted Rle s → (i <= j)%nat → (j < length s)%nat →
  nth i s 0 <= nth j s 0.
Proof.
  intros Hs. revert i j. induction Hs as [|x s Hs IH Hx]; intros i j Hij Hj.
  - cbn in Hj. lia.
  - destruct j as [|j].
    + assert (i = 0%nat) as -> by lia. cbn. lra.
    + destruct i as [|i].
      * cbn [nth]. rewrite Forall_forall in Hx. apply Hx.
        apply list_elem_of_In, nth_In. cbn in Hj. lia.
      * cbn [nth]. apply IH; cbn in Hj; lia.
Qed.

Lemma element_real (s : list R) (i : nat) :
  (i < length s)%nat → element (XReal <$> s) i = XReal (nth i s 0).
Proof.
  intros Hi. unfold element. rewrite list_lookup_fmap.
  destruct (s !! i) as [x|] eqn:Hx.
  - cbn. f_equal. symmetry. by apply nth_lookup_Some with (d := 0) in Hx.
  - apply lookup_ge_None in Hx. lia.
Qed.

Lemma sum_real (s : list R) (a : R) :
  fold_left (fun sum val => nadd sum val) (XReal <$> s) (XReal a)
  = XReal (fold_left Rplus s a).
Proof. revert a. induction s as [|x s IH]; intros a; [done|]. cbn. apply IH. Qed.

(** [calculateStats] on real numbers, in closed form. *)
Lemma calculateStats_real (d : R) (ds : list R) :
  let s := array_sort after_real (d :: ds) in
  let n := length s in
  calculateStats (XReal <$> d :: ds)
  = ({| min := XReal (nth 0 s 0);
        mean := XReal (fold_left Rplus s 0 / INR n);
        median := XReal (median_of_sorted s);
        max := XReal (nth (n - 1) s 0) |},
     XReal <$> s).
Proof.
  intros s n. unfold calculateStats.
  assert (n = S (length ds)) as Hn.
  { unfold n, s. by rewrite array_sort_length. }
  rewrite length_fmap. cbn [length Nat.eqb].
  rewrite (array_sort_fmap after_real XReal by_difference) by done.
  fold s. rewrite !length_fmap. fold n.
  rewrite !element_real by (fold n; lia).
  change lit0 with (XReal 0). rewrite sum_real.
  assert (n / 2 < n)%nat as Hhalf by (apply Nat.div_lt; lia).
  f_equal. f_equal.
  - change (Exact.div (XReal (fold_left Rplus s 0)) (XReal (INR n))
            = XReal (fold_left Rplus s 0 / INR n)).
    unfold Exact.div. destruct (Req_dec_T (INR n) 0) as [H0|_]; [|done].
    exfalso. rewrite Hn in H0. by apply (not_0_INR (S (length ds))) in H0.
  - unfold median_of_sorted. fold n.
    destruct (n mod 2 =? 0)%nat eqn:Hmod.
    + assert (Nat.even n = true) as ->.
      { apply Nat.even_spec. apply Nat.eqb_eq in Hmod.
        exists (n / 2)%nat. pose proof (Nat.div_mod_eq n 2). lia. }
      rewrite !element_real by (fold n; lia).
      change (Exact.div (XReal (nth (n / 2 - 1) s 0 + nth (n / 2) s 0)) (XReal 2)
              = XReal ((nth (n / 2 - 1) s 0 + nth (n / 2) s 0) / 2)).
      unfold Exact.div. destruct (Req_dec_T 2 0); [lra | done].
    + assert (Nat.even n = false) as ->.
      { apply Nat.eqb_neq in Hmod. destruct (Nat.even n) eqn:He; [|done].
        apply Nat.even_spec in He as [k Hk]. exfalso. apply Hmod.
        rewrite Hk, Nat.mul_comm. apply Nat.Div0.mod_mul. }
      by rewrite element_real by (fold n; lia).
  - apply element_real. fold n. lia.
Qed.

End ExactStatistics.

(** ** Comparison of IEEE numbers

    The comparison function of [calculateStats] decides the order of two
    numbers by the sign of their rounded difference.  This section
    derives, from the specification of binary64 operations, that the
    difference of two numbers is positive exactly when the first is the
    larger one, and that [<=] is a total preorder on the numbers that
    are not NaN. *)

Section Binary64.
#[local] Open Scope Z_scope.

#[local] Abbreviation emin := (SpecFloat.emin prec emax).
#[local] Abbreviation fexp := (SpecFloat.fexp prec emax).

Lemma digits2_pos_bounds (m : positive) :
  2 ^ (Z.pos (digits2_pos m) - 1) <= Z.pos m < 2 ^ Z.pos (digits2_pos m).
Proof.
  induction m as [m IH|m IH|]; cbn [digits2_pos].
  - rewrite Pos2Z.inj_succ.
    replace (Z.succ (Z.pos (digits2_pos m)) - 1) with (Z.succ (Z.pos (digits2_pos m) - 1)) by lia.
    rewrite !Z.pow_succ_r by lia. lia.
  - rewrite Pos2Z.inj_succ.
    replace (Z.succ (Z.pos (digits2_pos m)) - 1) with (Z.succ (Z.pos (digits2_pos m) - 1)) by lia.
    rewrite !Z.pow_succ_r by lia. lia.
  - cbn. lia.
Qed.

Lemma shr_1_m (mrs : shr_record) :
  0 <= shr_m mrs -> shr_m (shr_1 mrs) = shr_m mrs / 2.
Proof.
  destruct mrs as [m r s]. cbn [shr_m]. intros Hm.
  destruct m as [|[p|p|]|p]; cbn [shr_1 shr_m]; try lia; try reflexivity.
  - apply Z.div_unique with 1; lia.
  - apply Z.div_unique with 0; lia.
Qed.

Lemma iter_shr_m (p : positive) (mrs : shr_record) :
  0 <= shr_m mrs -> shr_m (SpecFloat.iter_pos shr_1 p mrs) = shr_m mrs / 2 ^ Z.pos p.
Proof.
  revert mrs. induction p as [p IH|p IH|]; intros mrs Hm; cbn [SpecFloat.iter_pos].
  - assert (0 <= shr_m (shr_1 mrs)) as H1.
    { rewrite shr_1_m by assumption. apply Z.div_pos; lia. }
    assert (0 <= shr_m (SpecFloat.iter_pos shr_1 p (shr_1 mrs))) as H2.
    { rewrite IH by assumption. apply Z.div_pos; [assumption|]. apply Z.pow_pos_nonneg; lia. }
    rewrite IH, IH, shr_1_m by assumption.
    rewrite !Z.div_div by (try apply Z.pow_pos_nonneg; lia).
    f_equal.
    replace (Z.pos p~1) with (1 + Z.pos p + Z.pos p) by lia.
    rewrite !Z.pow_add_r by lia. lia.
  - assert (0 <= shr_m (SpecFloat.iter_pos shr_1 p mrs)) as H2.
    { rewrite IH by assumption. apply Z.div_pos; [assumption|]. apply Z.pow_pos_nonneg; lia. }
    rewrite IH, IH by assumption.
    rewrite !Z.div_div by (try apply Z.pow_pos_nonneg; lia).
    f_equal.
    replace (Z.pos p~0) with (Z.pos p + Z.pos p) by lia.
    rewrite !Z.pow_add_r by lia. lia.
  - rewrite shr_1_m by assumption. by rewrite Z.pow_1_r.
Qed.

Lemma shr_fexp_pos (m e : Z) (l : location) :
  0 < m -> emin <= e ->
  0 < shr_m (fst (shr_fexp prec emax m e l)) /\ emin <= snd (shr_fexp prec emax m e l).
Proof.
  intros Hm He. unfold shr_fexp, shr.
  destruct m as [|m|m]; try lia. cbn [Zdigits2].
  pose proof (digits2_pos_bounds m) as [Hlo Hhi].
  set (d := Z.pos (digits2_pos m)) in *.
  assert (shr_m (shr_record_of_loc (Z.pos m) l) = Z.pos m) as Hrec.
  { by destruct l as [|[]]. }
  unfold SpecFloat.fexp.
  destruct (Z.max (d + e - prec) emin - e) as [|p|p] eqn:Hn; cbn [fst snd].
  - rewrite Hrec. lia.
  - rewrite iter_shr_m by (rewrite Hrec; lia). rewrite Hrec. split; [|lia].
    apply Z.div_str_pos. split; [apply Z.pow_pos_nonneg; lia|].
    assert (Z.pos p = d - prec) as -> by (unfold prec in *; lia).
    transitivity (2 ^ (d - 1)); [|assumption].
    apply Z.pow_le_mono_r; unfold prec; lia.
  - rewrite Hrec. lia.
Qed.

Lemma round_nearest_even_pos (m : Z) (l : location) :
  0 < m -> 0 < round_nearest_even m l.
Proof.
  intros Hm. destruct l as [|[]]; cbn [round_nearest_even]; try lia.
  destruct (Z.even m); lia.
Qed.

Lemma binary_round_aux_positive (m e : Z) (l : location) :
  0 < m -> emin <= e -> positive_sf (binary_round_aux prec emax false m e l) = true.
Proof.
  intros Hm He. unfold binary_round_aux.
  pose proof (shr_fexp_pos m e l Hm He) as [H1 H1e].
  destruct (shr_fexp prec emax m e l) as [mrs' e']. cbn [fst snd] in H1, H1e.
  pose proof (round_nearest_even_pos _ (loc_of_shr_record mrs') H1) as H2.
  pose proof (shr_fexp_pos _ e' loc_Exact H2 H1e) as [H3 _].
  destruct (shr_fexp prec emax _ e' loc_Exact) as [mrs'' e'']. cbn [fst] in H3.
  destruct (shr_m mrs'') as [|m''|m'']; try lia.
  by destruct (e'' <=? emax - prec).
Qed.

Lemma binary_round_aux_negative (m e : Z) (l : location) :
  positive_sf (binary_round_aux prec emax true m e l) = false.
Proof.
  unfold binary_round_aux.
  destruct (shr_fexp prec emax m e l) as [mrs' e'].
  destruct (shr_fexp prec emax _ e' loc_Exact) as [mrs'' e''].
  destruct (shr_m mrs'') as [|m''|m'']; try done.
  by destruct (e'' <=? emax - prec).
Qed.

Lemma fexp_ge_emin (e : Z) : emin <= fexp e.
Proof. unfold SpecFloat.fexp. lia. Qed.

Lemma binary_normalize_positive (D e : Z) :
  emin <= e ->
  positive_sf (binary_normalize prec emax D e false) = (0 <? D).
Proof.
  intros He. destruct D as [|m|m]; cbn [binary_normalize].
  - reflexivity.
  - unfold binary_round.
    destruct (shl_align m e _) as [mz ez] eqn:Halign.
    rewrite binary_round_aux_positive; [done | lia |].
    unfold shl_align in Halign.
    destruct (fexp (Z.pos (digits2_pos m) + e) - e) eqn:Hd;
      injection Halign as <- <-; try lia.
    apply fexp_ge_emin.
  - unfold binary_round.
    destruct (shl_align m e _) as [mz ez].
    by rewrite binary_round_aux_negative.
Qed.

Lemma shl_align_value (m : positive) (e e' : Z) :
  e' <= e -> Z.pos (fst (shl_align m e e')) = Z.pos m * 2 ^ (e - e').
Proof.
  intros He. unfold shl_align.
  destruct (e' - e) as [|d|d] eqn:Hd; cbn [fst]; try lia.
  - replace (e - e') with 0 by lia. lia.
  - change (Pos.iter xO m d) with (shift_pos d m).
    replace (e - e') with (Z.pos d) by lia.
    rewrite shift_pos_correct. unfold Zpower_pos.
    change (Pos.iter (Z.mul 2) 1 d) with (2 ^ Z.pos d). lia.
Qed.

(** A number in canonical form. *)
Lemma bounded_canonical (m : positive) (e : Z) :
  SpecFloat.bounded prec emax m e = true ->
  emin <= e /\ Z.pos m < 2 ^ prec /\ (emin < e -> 2 ^ (prec - 1) <= Z.pos m).
Proof.
  unfold SpecFloat.bounded, canonical_mantissa, SpecFloat.fexp. intros Hb.
  apply andb_prop in Hb as [Hc _]. apply Z.eqb_eq in Hc.
  pose proof (digits2_pos_bounds m) as [Hlo Hhi].
  set (d := Z.pos (digits2_pos m)) in *.
  split; [lia|]. split.
  - eapply Z.lt_le_trans; [exact Hhi|]. apply Z.pow_le_mono_r; lia.
  - intros He. replace (prec - 1) with (d - 1) by lia. exact Hlo.
Qed.

Lemma scaled_mantissas (mx : positive) (ex : Z) (my : positive) (ey : Z) :
  SpecFloat.bounded prec emax mx ex = true -> SpecFloat.bounded prec emax my ey = true ->
  let ez := Z.min ex ey in
  let ax := Z.pos (fst (shl_align mx ex ez)) in
  let ay := Z.pos (fst (shl_align my ey ez)) in
  match ey ?= ex with
  | Lt => ay < ax
  | Gt => ax < ay
  | Eq => ax = Z.pos mx /\ ay = Z.pos my
  end.
Proof.
  intros Hx Hy ez ax ay.
  apply bounded_canonical in Hx as (Hex & Hmx & Hnx).
  apply bounded_canonical in Hy as (Hey & Hmy & Hny).
  assert (2 ^ prec = 2 * 2 ^ (prec - 1)) as Hpow by reflexivity.
  unfold ax, ay. rewrite !shl_align_value by lia.
  destruct (Z.compare_spec ey ex) as [Heq|Hlt|Hgt].
  - subst ey. replace (ex - ez) with 0 by lia. lia.
  - replace (ey - ez) with 0 by lia.
    assert (2 ^ 1 <= 2 ^ (ex - ez)) as Hk by (apply Z.pow_le_mono_r; lia).
    specialize (Hnx ltac:(lia)). change (2 ^ 1) with 2 in Hk. nia.
  - replace (ex - ez) with 0 by lia.
    assert (2 ^ 1 <= 2 ^ (ey - ez)) as Hk by (apply Z.pow_le_mono_r; lia).
    specialize (Hny ltac:(lia)). change (2 ^ 1) with 2 in Hk. nia.
Qed.

Lemma finite_difference_sign (sx : bool) (mx : positive) (ex : Z)
    (sy : bool) (my : positive) (ey : Z) :
  SpecFloat.bounded prec emax mx ex = true -> SpecFloat.bounded prec emax my ey = true ->
  let ez := Z.min ex ey in
  (0 <? cond_Zopp sx (Z.pos (fst (shl_align mx ex ez)))
        - cond_Zopp sy (Z.pos (fst (shl_align my ey ez))))
  = SFltb (S754_finite sy my ey) (S754_finite sx mx ex).
Proof.
  intros Hx Hy ez. pose proof (scaled_mantissas mx ex my ey Hx Hy) as Hs.
  cbv zeta in Hs. fold ez in Hs.
  set (ax := Z.pos (fst (shl_align mx ex ez))) in *.
  set (ay := Z.pos (fst (shl_align my ey ez))) in *.
  assert (0 < ax) as Hax by (unfold ax; lia).
  assert (0 < ay) as Hay by (unfold ay; lia).
  unfold SFltb, SFcompare.
  change (Pos.compare_cont Eq my mx) with (Pos.compare my mx).
  revert Hs. clearbody ax ay.
  destruct (ey ?= ex); intros Hs.
  - destruct Hs as [-> ->].
    destruct sx, sy; cbn [cond_Zopp]; destruct (Pos.compare_spec my mx);
      cbn [CompOpp]; lia.
  - destruct sx, sy; cbn [cond_Zopp CompOpp]; lia.
  - destruct sx, sy; cbn [cond_Zopp CompOpp]; lia.
Qed.

Lemma SFsub_positive (x y : spec_float) :
  SpecFloat.valid_binary prec emax x = true ->
  SpecFloat.valid_binary prec emax y = true ->
  positive_sf (SFsub prec emax x y) = SFltb y x.
Proof.
  intros Hx Hy.
  destruct x as [sx|sx| |sx mx ex], y as [sy|sy| |sy my ey];
    try done; try (by destruct sx); try (by destruct sy); try (by destruct sx, sy).
  cbn [SpecFloat.valid_binary] in Hx, Hy.
  unfold SFsub. cbv zeta.
  rewrite binary_normalize_positive.
  - by apply finite_difference_sign.
  - apply bounded_canonical in Hx as (Hex & _). apply bounded_canonical in Hy as (Hey & _).
    lia.
Qed.

(** The sign of a difference of two doubles tells which is larger. *)
Lemma difference_positive (x y : float) :
  (0 <? x - y)%float = (y <? x)%float.
Proof.
  rewrite !FloatAxioms.ltb_spec, FloatAxioms.sub_spec.
  apply (SFsub_positive (Prim2SF x) (Prim2SF y)); apply FloatAxioms.Prim2SF_valid.
Qed.

Lemma SFcompare_antisym (x y : spec_float) :
  SFcompare y x = option_map CompOpp (SFcompare x y).
Proof.
  destruct x as [sx|sx| |sx mx ex], y as [sy|sy| |sy my ey];
    try done; try (by destruct sx); try (by destruct sy); try (by destruct sx, sy).
  cbn [SFcompare option_map].
  change (Pos.compare_cont Eq my mx) with (Pos.compare my mx).
  change (Pos.compare_cont Eq mx my) with (Pos.compare mx my).
  rewrite (Z.compare_antisym ex ey), (Pos.compare_antisym mx my).
  by destruct sx, sy, (ex ?= ey), (mx ?= my)%positive.
Qed.

Lemma SFcompare_defined (x y : spec_float) :
  SFeqb x x = true -> SFeqb y y = true -> is_Some (SFcompare x y).
Proof.
  unfold SFeqb.
  destruct x as [sx|sx| |sx mx ex], y as [sy|sy| |sy my ey]; try done;
    intros _ _; cbn [SFcompare]; try (by destruct sx); try (by destruct sx, sy).
Qed.

Lemma not_less_is_at_most (x y : float) :
  PrimFloat.is_nan x = false -> PrimFloat.is_nan y = false ->
  (y <? x)%float = false -> (x <=? y)%float = true.
Proof.
  unfold PrimFloat.is_nan. rewrite !FloatAxioms.eqb_spec, FloatAxioms.ltb_spec, FloatAxioms.leb_spec.
  intros Hx%negb_false_iff Hy%negb_false_iff.
  destruct (SFcompare_defined _ _ Hx Hy) as [c Hc].
  unfold SFltb, SFleb. rewrite (SFcompare_antisym (Prim2SF x) (Prim2SF y)), Hc.
  by destruct c.
Qed.

Lemma less_is_at_most (x y : float) :
  (y <? x)%float = true -> (y <=? x)%float = true.
Proof.
  rewrite FloatAxioms.ltb_spec, FloatAxioms.leb_spec. unfold SFltb, SFleb.
  by destruct (SFcompare _ _) as [[]|].
Qed.

Lemma SFleb_trans (x y z : spec_float) :
  SFleb x y = true -> SFleb y z = true -> SFleb x z = true.
Proof.
  unfold SFleb.
  destruct x as [sx|sx| |sx mx ex], y as [sy|sy| |sy my ey], z as [sz|sz| |sz mz ez];
    cbn [SFcompare]; try done;
    try (by destruct sx); try (by destruct sy); try (by destruct sz);
    try (by destruct sx, sy); try (by destruct sy, sz); try (by destruct sx, sz);
    try (by destruct sx, sy, sz).
  change (Pos.compare_cont Eq) with Pos.compare.
  destruct sx, sy, sz; try done;
    destruct (Z.compare_spec ex ey), (Z.compare_spec ey ez), (Z.compare_spec ex ez);
    try lia; try done;
    destruct (Pos.compare_spec mx my), (Pos.compare_spec my mz), (Pos.compare_spec mx mz);
    cbn [CompOpp]; try done; lia.
Qed.

Lemma leb_trans (x y z : float) :
  (x <=? y)%float = true -> (y <=? z)%float = true -> (x <=? z)%float = true.
Proof. rewrite !FloatAxioms.leb_spec. apply SFleb_trans. Qed.

End Binary64.

Section IEEEStatistics.

Lemma by_difference_ieee (a b : float) : by_difference a b = PrimFloat.ltb b a.
Proof. apply difference_positive. Qed.

Lemma sort_insert_ascending_ieee (x : float) (s : list float) :
  PrimFloat.is_nan x = false → numbers s →
  StronglySorted at_most s → StronglySorted at_most (sort_insert by_difference x s).
Proof.
  intros Hx Hn Hs. induction Hs as [|y s Hs IH Hy]; cbn [sort_insert].
  - repeat constructor.
  - apply Forall_cons in Hn as [Hny Hn].
    rewrite by_difference_ieee. destruct (PrimFloat.ltb y x) eqn:Hlt.
    + constructor; [by apply IH|].
      rewrite sort_insert_perm. constructor; [by apply less_is_at_most | done].
    + assert (at_most x y) as Hxy by (by apply not_less_is_at_most).
      constructor; [by constructor|].
      constructor; [done|]. eapply Forall_impl; [exact Hy|].
      intros z Hz. by apply (leb_trans x y z).
Qed.

(** On IEEE numbers other than NaN the comparison function is
    consistent as well, and the array comes out in ascending order. *)
Lemma array_sort_ascending_ieee (l : list float) :
  numbers l → StronglySorted at_most (array_sort by_difference l).
Proof.
  induction 1 as [|x l Hx Hl IH]; [constructor|].
  change (array_sort by_difference (x :: l))
    with (sort_insert by_difference x (array_sort by_difference l)).
  apply sort_insert_ascending_ieee; [done| |done].
  unfold numbers. by rewrite array_sort_perm.
Qed.

(** [calculateStats] on IEEE numbers, in closed form. *)
Lemma calculateStats_ieee (d : float) (ds : list float) :
  let s := array_sort by_difference (d :: ds) in
  let n := length s in
  calculateStats (d :: ds)
  = ({| min := nth 0 s PrimFloat.nan;
        mean := (fold_left PrimFloat.add s 0 / IEEE.of_length n)%float;
        median := median_of_sorted_ieee s;
        max := nth (n - 1) s PrimFloat.nan |},
     s).
Proof.
  intros s n. unfold calculateStats. cbn [length Nat.eqb].
  fold s. fold n. unfold element. rewrite <- !nth_lookup.
  unfold median_of_sorted_ieee. fold n.
  replace (n mod 2 =? 0) with (Nat.even n); [done|].
  rewrite <- Nat.negb_odd, <- Nat.bit0_mod.
  change (Nat.testbit n 0) with (Nat.odd n). by destruct (Nat.odd n).
Qed.

End IEEEStatistics.

Section StatisticsTheorems.
#[local] Open Scope R_scope.

(** C3.  For the empty list [calculateStats] returns, without raising,
    the record whose four fields are the number 0 (in every arithmetic;
    spelled out for IEEE numbers, where it is the float 0 and not NaN),
    and leaves the list empty. *)
Theorem calculateStats_empty :
  (∀ (num : Type) (N : JSNumber num),
     calculateStats (@nil num)
     = ({| min := lit0; mean := lit0; median := lit0; max := lit0 |}, []))
  ∧ calculateStats (@nil float)
    = ({| min := 0%float; mean := 0%float; median := 0%float; max := 0%float |}, []).
Proof. split; reflexivity. Qed.

Ltac sort_real :=
  unfold array_sort, after_real;
  repeat (cbn [foldr sort_insert];
          match goal with
          | |- context [Rlt_dec 0 (?a - ?b)] =>
              destruct (Rlt_dec 0 (a - b)); try (exfalso; lra)
          end).

(** C4.  The median that [calculateStats] returns is the median of an
    ascending permutation of the list: its middle element for an odd
    length, the arithmetic mean of its two middle elements for an even
    length.  This holds for every non-empty list of real deltas in
    exact arithmetic, and for every non-empty list of IEEE deltas none
    of which is NaN, the mean of the two middle elements then being the
    rounded one.  The median of [1,2,3,4] is 2.5 and the median of
    [1,2,3] is 2, in exact and in IEEE arithmetic. *)
Theorem median_by_sorting :
  (∀ (d : R) (ds : list R),
     ∃ s : list R,
       d :: ds ≡ₚ s ∧ StronglySorted Rle s
       ∧ median (calculateStats (XReal <$> d :: ds)).1 = XReal (median_of_sorted s))
  ∧ (∀ (d : float) (ds : list float),
       numbers (d :: ds) →
       ∃ s : list float,
         d :: ds ≡ₚ s ∧ StronglySorted at_most s
         ∧ median (calculateStats (d :: ds)).1 = median_of_sorted_ieee s)
  ∧ median (calculateStats (XReal <$> [1; 2; 3; 4])).1 = XReal 2.5
  ∧ median (calculateStats (XReal <$> [1; 2; 3])).1 = XReal 2
  ∧ median (calculateStats [1; 2; 3; 4]%float).1 = 2.5%float
  ∧ median (calculateStats [1; 2; 3]%float).1 = 2%float.
Proof.
  split; [|split; [|split; [|split; [|split]]]].
  - intros d ds. exists (array_sort after_real (d :: ds)).
    split; [symmetry; apply array_sort_perm|].
    split; [apply array_sort_ascending|].
    by rewrite calculateStats_real.
  - intros d ds Hn. exists (array_sort by_difference (d :: ds)).
    split; [symmetry; apply array_sort_perm|].
    split; [by apply array_sort_ascending_ieee|].
    by rewrite calculateStats_ieee.
  - assert (array_sort after_real [1; 2; 3; 4] = [1; 2; 3; 4]) as Hs
      by (sort_real; reflexivity).
    rewrite calculateStats_real, Hs. cbn. f_equal. lra.
  - assert (array_sort after_real [1; 2; 3] = [1; 2; 3]) as Hs
      by (sort_real; reflexivity).
    rewrite calculateStats_real, Hs. reflexivity.
  - vm_compute. reflexivity.
  - vm_compute. reflexivity.
Qed.

Lemma sum_bounds (lo hi : R) (s : list R) (a : R) :
  Forall (fun x => lo <= x <= hi) s →
  a + INR (length s) * lo <= fold_left Rplus s a <= a + INR (length s) * hi.
Proof.
  intros Hs. revert a. induction Hs as [|x s Hx Hs IH]; intros a.
  - cbn. lra.
  - cbn [fold_left length]. rewrite S_INR. specialize (IH (a + x)). lra.
Qed.

Lemma ascending_bounds (s : list R) :
  StronglySorted Rle s →
  Forall (fun x => nth 0 s 0 <= x <= nth (length s - 1) s 0) s.
Proof.
  intros Hs. apply Forall_forall. intros x Hx.
  apply list_elem_of_In, (In_nth _ _ 0) in Hx as (i & Hi & <-).
  split; apply ascending_nth; try done; lia.
Qed.

(** In exact arithmetic the four statistics of a non-empty list are
    real numbers, in the order one expects. *)
Lemma stats_ordered_real (d : R) (ds : list R) :
  ∃ lo avg mid hi : R,
    (calculateStats (XReal <$> d :: ds)).1
    = {| min := XReal lo; mean := XReal avg; median := XReal mid; max := XReal hi |}
    ∧ lo <= mid <= hi ∧ lo <= avg <= hi.
Proof.
  rewrite calculateStats_real. cbn [fst].
  set (s := array_sort after_real (d :: ds)).
  assert (length s = S (length ds)) as Hn.
  { unfold s. by rewrite array_sort_length. }
  pose proof (array_sort_ascending (d :: ds)) as Hs. fold s in Hs.
  eexists _, _, _, _. split; [reflexivity|].
  assert (length s / 2 < length s)%nat as Hhalf by (apply Nat.div_lt; lia).
  split.
  - unfold median_of_sorted. destruct (Nat.even (length s)).
    + pose proof (ascending_nth s 0 (length s / 2 - 1) Hs) as H1.
      pose proof (ascending_nth s 0 (length s / 2) Hs) as H2.
      pose proof (ascending_nth s (length s / 2 - 1) (length s - 1) Hs) as H3.
      pose proof (ascending_nth s (length s / 2) (length s - 1) Hs) as H4.
      specialize (H1 ltac:(lia) ltac:(lia)). specialize (H2 ltac:(lia) ltac:(lia)).
      specialize (H3 ltac:(lia) ltac:(lia)). specialize (H4 ltac:(lia) ltac:(lia)).
      lra.
    + split; apply ascending_nth; try done; lia.
  - pose proof (sum_bounds _ _ s 0 (ascending_bounds s Hs)) as Hsum.
    assert (0 < INR (length s)) as Hpos by (rewrite Hn; apply lt_0_INR; lia).
    set (n := INR (length s)) in *. set (total := fold_left Rplus s 0) in *.
    assert (total / n * n = total) as Hdiv by (field; lra).
    split; apply (Rmult_le_reg_r n); try done; rewrite Hdiv; lra.
Qed.

(** C5, the claim as stated, in the arithmetic of the code.  Two
    markers whose four corners have each moved by 0.1 pixel give eight
    deltas of 0.1; their sum is rounded to 0.7999999999999999, and the
    mean that [calculateStats] returns, 0.09999999999999999, is below
    the minimum 0.1. *)
Lemma mean_below_min_ieee :
  calculateDeltas Sample.column_reference Sample.column_comparison = Normal Sample.tenths
  ∧ let stats := (calculateStats Sample.tenths).1 in
    min stats = 0.1%float
    ∧ PrimFloat.leb (min stats) (mean stats) = false
    ∧ PrimFloat.ltb (mean stats) (min stats) = true.
Proof. vm_compute. repeat split. Qed.

(** Rounding can also lift the mean above the maximum, and the sum of
    two large finite deltas overflows to infinity. *)
Example mean_above_max_ieee :
  let stats := (calculateStats [0.1; 0.1; 0.1]%float).1 in
  max stats = 0.1%float ∧ PrimFloat.ltb (max stats) (mean stats) = true.
Proof. vm_compute. repeat split. Qed.

Example median_overflow_ieee :
  let stats := (calculateStats [1e308; 1e308]%float).1 in
  max stats = 1e308%float ∧ median stats = infinity ∧ mean stats = infinity.
Proof. vm_compute. repeat split. Qed.

(** C9.  [calculateStats] permutes the caller's array, in every
    arithmetic.  For a non-empty list of real deltas the array is
    afterwards in ascending order and the statistics are those of the
    array in that order; the same holds on IEEE numbers for every list
    of deltas none of which is NaN.  The array [3, 1, 2] is left as
    [1, 2, 3], and the mean of [1e16, 1, 1] is the one summed in sorted
    order, (1 + 1 + 1e16) / 3, not the one summed in the order given. *)
Theorem calculateStats_sorts_in_place :
  (∀ (num : Type) (N : JSNumber num) (deltas : list num),
     (calculateStats deltas).2 ≡ₚ deltas)
  ∧ (∀ (d : R) (ds : list R),
       ∃ s : list R,
         (calculateStats (XReal <$> d :: ds)).2 = XReal <$> s
         ∧ d :: ds ≡ₚ s ∧ StronglySorted Rle s
         ∧ (calculateStats (XReal <$> d :: ds)).1
           = {| min := XReal (nth 0 s 0);
                mean := XReal (fold_left Rplus s 0 / INR (length s));
                median := XReal (median_of_sorted s);
                max := XReal (nth (length s - 1) s 0) |})
  ∧ (∀ deltas : list float,
       numbers deltas → StronglySorted at_most (calculateStats deltas).2)
  ∧ (∀ (d : float) (ds : list float),
       let s := (calculateStats (d :: ds)).2 in
       (calculateStats (d :: ds)).1
       = {| min := nth 0 s PrimFloat.nan;
            mean := (fold_left PrimFloat.add s 0 / IEEE.of_length (length s))%float;
            median := median_of_sorted_ieee s;
            max := nth (length s - 1) s PrimFloat.nan |})
  ∧ (calculateStats [3; 1; 2]%float).2 = [1; 2; 3]%float
  ∧ (let stats := (calculateStats [1e16; 1; 1]%float).1 in
     mean stats = ((0 + 1 + 1 + 1e16) / 3)%float
     ∧ PrimFloat.eqb (mean stats) ((0 + 1e16 + 1 + 1) / 3)%float = false).
Proof.
  split; [|split; [|split; [|split; [|split]]]].
  - intros num N deltas. unfold calculateStats.
    destruct (length deltas =? 0)%nat; [done|]. apply array_sort_perm.
  - intros d ds. exists (array_sort after_real (d :: ds)).
    rewrite calculateStats_real. cbn [fst snd].
    split; [done|]. split; [symmetry; apply array_sort_perm|].
    split; [apply array_sort_ascending | done].
  - intros [|d ds] Hn; [constructor|].
    rewrite calculateStats_ieee. by apply array_sort_ascending_ieee.
  - intros d ds. cbv zeta. by rewrite calculateStats_ieee.
  - vm_compute. reflexivity.
  - vm_compute. split; reflexivity.
Qed.

End StatisticsTheorems.

Lemma median_by_sorting_sample :
  numbers [3; 1; 2]%float
  ∧ ∃ s : list float,
      [3; 1; 2]%float ≡ₚ s ∧ StronglySorted at_most s
      ∧ median (calculateStats [3; 1; 2]%float).1 = median_of_sorted_ieee s.
Proof.
  assert (numbers [3; 1; 2]%float) as Hn by (repeat constructor).
  split; [exact Hn|].
  exact (proj1 (proj2 median_by_sorting) 3%float [1; 2]%float Hn).
Defined.

Lemma calculateStats_sorts_in_place_sample :
  numbers [3; 1; 2]%float
  ∧ StronglySorted at_most (calculateStats [3; 1; 2]%float).2.
Proof.
  assert (numbers [3; 1; 2]%float) as Hn by (repeat constructor).
  split; [exact Hn|].
  exact (proj1 (proj2 (proj2 calculateStats_sorts_in_place)) [3; 1; 2]%float Hn).
Defined.

(** ** The command line *)

(** *** [parseInt] reads decimal numerals *)

Ltac eval_chars :=
  repeat match goal with
         | |- context [digit_value ?c] =>
             let v := eval vm_compute in (digit_value c) in
             change (digit_value c) with v
         | |- context [is_space ?c] =>
             let v := eval vm_compute in (is_space c) in
             change (is_space c) with v
         | |- context [nat_of_ascii ?c <? 128] =>
             let v := eval vm_compute in (nat_of_ascii c <? 128) in
             change (nat_of_ascii c <? 128) with v
         end.

Lemma parse_digits_numeral (d : Decimal.uint) (acc : N) :
  parse_digits 10 (NilEmpty.string_of_uint d) (Some (Z.of_N acc))
  = Some (Z.of_N (digits_value d acc)).
Proof.
  revert acc. induction d; intros acc; cbn [NilEmpty.string_of_uint digits_value];
    [reflexivity|..];
    (cbn [parse_digits]; eval_chars;
     cbn [Z.ltb Z.compare Pos.compare Pos.compare_cont default from_option Datatypes.id];
     rewrite <- IHd; do 2 f_equal; lia).
Qed.

Lemma of_uint_acc_value (d : Decimal.uint) (acc : positive) :
  Npos (Pos.of_uint_acc d acc) = digits_value d (Npos acc).
Proof.
  revert acc. induction d; intros acc; cbn [Pos.of_uint_acc digits_value];
    [reflexivity|..]; rewrite IHd; f_equal; lia.
Qed.

Lemma of_uint_value (d : Decimal.uint) : Pos.of_uint d = digits_value d 0.
Proof.
  induction d; cbn [Pos.of_uint digits_value]; try reflexivity; try exact IHd;
    rewrite of_uint_acc_value; f_equal.
Qed.

Ltac first_digit :=
  unfold parseInt; cbn [NilEmpty.string_of_uint trimStart]; eval_chars;
  cbn [fmap option_fmap option_map parse_digits]; eval_chars;
  cbn [Z.ltb Z.compare Pos.compare Pos.compare_cont default from_option Datatypes.id digits_value].

Lemma parseInt_numeral (d : Decimal.uint) :
  d ≠ Decimal.Nil →
  parseInt (NilEmpty.string_of_uint d)
  = Some (number_of_integer (Z.of_N (Pos.of_uint d))).
Proof.
  intros Hd. rewrite of_uint_value.
  destruct d as [|d|d|d|d|d|d|d|d|d|d]; [done|..].
  2-10: first_digit;
    match goal with
    | |- context [Some (0 * 10 + ?k)%Z] => change (0 * 10 + k)%Z with (Z.of_N (10 * 0 + (Z.to_N k)))
    end;
    rewrite parse_digits_numeral; cbn [fmap option_fmap option_map];
    do 2 f_equal; apply Z.mul_1_l.
  destruct d as [|d|d|d|d|d|d|d|d|d|d]; [reflexivity|..];
    first_digit; eval_chars;
    cbn [Z.ltb Z.compare Pos.compare Pos.compare_cont default from_option Datatypes.id digits_value];
    match goal with
    | |- context [Some ((0 * 10 + 0) * 10 + ?k)%Z] =>
        change ((0 * 10 + 0) * 10 + k)%Z with (Z.of_N (10 * (10 * 0) + (Z.to_N k)))
    end;
    rewrite parse_digits_numeral; cbn [fmap option_fmap option_map];
    do 2 f_equal; apply Z.mul_1_l.
Qed.

Lemma parseInt_decimal (n : positive) :
  parseInt (decimal n) = Some (number_of_integer (Zpos n)).
Proof.
  unfold decimal. rewrite parseInt_numeral by apply DecimalPos.Unsigned.to_uint_nonnil.
  by rewrite DecimalPos.Unsigned.of_to.
Qed.

(** *** Integers as Numbers *)

Lemma number_of_small_integer (n : Z) :
  (Z.abs n < 2 ^ 53)%Z → number_of_integer n = Integer n.
Proof.
  intros Hn. unfold number_of_integer.
  destruct (Z.leb_spec (Z.log2 (Z.abs n) + 1) 53) as [|Hbits]; [done|].
  exfalso. destruct (Z.eq_dec (Z.abs n) 0%Z) as [H0|H0].
  - rewrite H0 in Hbits. cbn in Hbits. lia.
  - assert (0 < Z.abs n)%Z as Hpos by lia.
    apply (Z.log2_lt_pow2 _ 53 Hpos) in Hn. lia.
Qed.

Lemma number_of_large_integer (n : Z) :
  (2 ^ 53 <= n)%Z →
  number_of_integer n = Infinity false
  ∨ ∃ m, number_of_integer n = Integer m ∧ (2 ^ 53 <= m)%Z.
Proof.
  intros Hn. unfold number_of_integer.
  assert (0 < n)%Z as Hpos by lia.
  rewrite (Z.abs_eq n) by lia.
  destruct (Z.leb_spec (Z.log2 n + 1) 53) as [|Hbits]; [right; eauto|].
  set (shift := (Z.log2 n + 1 - 53)%Z).
  set (q := Z.shiftr n shift).
  match goal with
  | |- context [if ?b then (q + 1)%Z else q] => set (q' := if b then (q + 1)%Z else q)
  end.
  assert (1 <= shift)%Z as Hshift by (unfold shift; lia).
  assert (2 ^ 52 <= q)%Z as Hq.
  { unfold q. rewrite Z.shiftr_div_pow2 by lia.
    apply Z.div_le_lower_bound; [apply Z.pow_pos_nonneg; lia|].
    rewrite <- Z.pow_add_r by lia.
    replace (shift + 52)%Z with (Z.log2 n) by (unfold shift; lia).
    apply Z.log2_spec. lia. }
  assert (q <= q')%Z as Hq' by (unfold q'; case (_ || _); lia).
  assert (2 ^ 53 <= Z.shiftl q' shift)%Z as Hm.
  { rewrite Z.shiftl_mul_pow2 by lia.
    assert (2 ^ 1 <= 2 ^ shift)%Z as Hp by (apply Z.pow_le_mono_r; lia).
    change (2 ^ 53)%Z with (2 ^ 52 * 2 ^ 1)%Z.
    apply Z.mul_le_mono_nonneg; lia. }
  destruct (2 ^ 1024 <=? _)%Z.
  - left. f_equal. lia.
  - right. eexists. split; [reflexivity|].
    rewrite (proj2 (Z.sgn_pos_iff n)) by lia. lia.
Qed.

(** The rounding is the one of the processor, here on integers around
    2^53, where it sets in, and at the largest double. *)
Example number_of_integer_rounds :
  number_of_integer 9007199254740993%Z = Integer 9007199254740992%Z
  ∧ number_of_integer 9007199254740995%Z = Integer 9007199254740996%Z
  ∧ number_of_integer (-9007199254740995)%Z = Integer (-9007199254740996)%Z
  ∧ Prim2SF (PrimFloat.of_uint63 (Uint63.of_Z 9007199254740993%Z))
    = S754_finite false 4503599627370496%positive 1%Z
  ∧ Prim2SF (PrimFloat.of_uint63 (Uint63.of_Z 9007199254740995%Z))
    = S754_finite false 4503599627370498%positive 1%Z
  ∧ number_of_integer (2 ^ 1024 - 2 ^ 970 - 1)%Z = Integer (2 ^ 1024 - 2 ^ 971)%Z
  ∧ number_of_integer (2 ^ 1024 - 2 ^ 970)%Z = Infinity false.
Proof. vm_compute. repeat split. Qed.

(** White space of more than one byte is skipped too, and the sign and
    the prefix are read after it. *)
Example parseInt_examples :
  parseInt "42" = Some (Integer 42%Z)
  ∧ parseInt "  7 files" = Some (Integer 7%Z)
  ∧ parseInt (String (ascii_of_nat 194) (String (ascii_of_nat 160) "5")) = Some (Integer 5%Z)
  ∧ parseInt (String (ascii_of_nat 239) (String (ascii_of_nat 187)
               (String (ascii_of_nat 191) " -0x1f"))) = Some (Integer (-31)%Z)
  ∧ parseInt "0x" = None
  ∧ parseInt "" = None
  ∧ parseInt "files" = None.
Proof. vm_compute. repeat split. Qed.

(** ** Runs of the script *)

Section RunRules.
Context {num : Type} `{JSNumber num} (w : World num).
Implicit Types (t es : list (event num)).

Lemma run_bind {A B : Type} (m : M num A) (f : A -> M num B) t :
  (m ≫= f) t
  = match m t with
    | (Normal a, t') => f a t'
    | (Throw e, t') => (Throw e, t')
    | (Exit code, t') => (Exit code, t')
    end.
Proof. reflexivity. Qed.

Lemma run_bind_ret {A B : Type} (a : A) (f : A -> M num B) : mret a ≫= f = f a.
Proof. reflexivity. Qed.

Lemma run_bind_assoc {A B C : Type} (m : M num A) (f : A -> M num B) (g : B -> M num C) t :
  ((m ≫= f) ≫= g) t = (m ≫= (fun a => f a ≫= g)) t.
Proof. rewrite !run_bind. by destruct (m t) as [[a|e|code] t1]. Qed.

Lemma emits_ext {A : Type} (m m' : M num A) (post : completion A -> list (event num) -> Prop) :
  (∀ t, m t = m' t) → emits m' post → emits m post.
Proof. intros Heq Hm t. rewrite Heq. apply Hm. Qed.

Lemma emits_mono {A : Type} (m : M num A) (post post' : completion A -> list (event num) -> Prop) :
  emits m post → (∀ c es, post c es → post' c es) → emits m post'.
Proof. intros Hm Himp t. destruct (Hm t) as (es & Ht & Hp). eauto. Qed.

Lemma emits_ret {A : Type} (a : A) (post : completion A -> list (event num) -> Prop) :
  post (Normal a) [] → emits (mret a) post.
Proof. intros Hp t. exists []. by rewrite app_nil_r. Qed.

Lemma emits_lift {A : Type} (c : completion A) (post : completion A -> list (event num) -> Prop) :
  post c [] → emits (lift c) post.
Proof. intros Hp t. exists []. by rewrite app_nil_r. Qed.

Lemma emits_ask {A : Type} (f : trace num -> A) (post : completion A -> list (event num) -> Prop) :
  (∀ a, post (Normal a) []) → emits (ask f) post.
Proof. intros Hp t. exists []. rewrite app_nil_r. split; [done | apply Hp]. Qed.

Lemma emits_exit {A : Type} (code : Z) (post : completion A -> list (event num) -> Prop) :
  post (Exit code) [] → emits (exit code) post.
Proof. intros Hp t. exists []. by rewrite app_nil_r. Qed.

Lemma emits_log (l : line num) (post : completion unit -> list (event num) -> Prop) :
  post (Normal tt) [Log l] → emits (log l) post.
Proof. intros Hp t. by exists [Log l]. Qed.

Lemma emits_log_error (l : line num) (post : completion unit -> list (event num) -> Prop) :
  post (Normal tt) [LogError l] → emits (log_error l) post.
Proof. intros Hp t. by exists [LogError l]. Qed.

Lemma emits_perform {A : Type} (c : call num) (answer : trace num -> A) (shown : A -> reply num)
    (post : completion A -> list (event num) -> Prop) :
  (∀ a, post (Normal a) [Called c (shown a)]) →
  (∀ e, post (Throw e) [Called c (Failed e)]) →
  emits (perform w c answer shown) post.
Proof.
  intros Hok Hfail t. unfold perform. destruct (fails w t c) as [e|].
  - exists [Called c (Failed e)]. split; [done | apply Hfail].
  - exists [Called c (shown (answer t))]. split; [done | apply Hok].
Qed.

Lemma emits_bind {A B : Type} (m : M num A) (f : A -> M num B)
    (post1 : completion A -> list (event num) -> Prop)
    (post2 : A -> completion B -> list (event num) -> Prop)
    (post : completion B -> list (event num) -> Prop) :
  emits m post1 →
  (∀ a, emits (f a) (post2 a)) →
  (∀ a es1 c es2, post1 (Normal a) es1 → post2 a c es2 → post c (es1 ++ es2)) →
  (∀ e es, post1 (Throw e) es → post (Throw e) es) →
  (∀ code es, post1 (Exit code) es → post (Exit code) es) →
  emits (m ≫= f) post.
Proof.
  intros Hm Hf Hseq Hthrow Hexit t. rewrite run_bind.
  destruct (Hm t) as (es1 & Ht1 & Hp1).
  destruct (m t) as [[a|e|code] t1]; cbn in Ht1, Hp1; subst t1.
  - destruct (Hf a (t ++ es1)) as (es2 & Ht2 & Hp2).
    exists (es1 ++ es2). rewrite Ht2, app_assoc. eauto.
  - exists es1. eauto.
  - exists es1. eauto.
Qed.

Lemma emits_try_catch {A : Type} (body : M num A) (handler : error -> M num A)
    (post1 : completion A -> list (event num) -> Prop)
    (post2 : error -> completion A -> list (event num) -> Prop)
    (post : completion A -> list (event num) -> Prop) :
  emits body post1 →
  (∀ e, emits (handler e) (post2 e)) →
  (∀ a es, post1 (Normal a) es → post (Normal a) es) →
  (∀ code es, post1 (Exit code) es → post (Exit code) es) →
  (∀ e es1 c es2, post1 (Throw e) es1 → post2 e c es2 → post c (es1 ++ es2)) →
  emits (try_catch body handler) post.
Proof.
  intros Hm Hh Hnormal Hexit Hcatch t. unfold try_catch.
  destruct (Hm t) as (es1 & Ht1 & Hp1).
  destruct (body t) as [[a|e|code] t1]; cbn in Ht1, Hp1; subst t1.
  - exists es1. eauto.
  - destruct (Hh e (t ++ es1)) as (es2 & Ht2 & Hp2).
    exists (es1 ++ es2). rewrite Ht2, app_assoc. eauto.
  - exists es1. eauto.
Qed.

(** *** Rules for invariants *)

Section Keeps.
Context (P : ending -> list (event num) -> Prop) (HP : invariant P).

Lemma keeps_ret {A : Type} (a : A) : keeps P (mret a : M num A).
Proof. apply emits_ret, HP. Qed.

Lemma keeps_lift {A : Type} (c : completion A) : keeps P (lift c).
Proof. apply emits_lift, HP. Qed.

Lemma keeps_ask {A : Type} (f : trace num -> A) : keeps P (ask f).
Proof. apply emits_ask. intros; apply HP. Qed.

Lemma keeps_exit {A : Type} (code : Z) : keeps P (exit code : M num A).
Proof. apply emits_exit, HP. Qed.

Lemma keeps_log (l : line num) : keeps P (log l).
Proof. apply emits_log, HP. Qed.

Lemma keeps_log_error (l : line num) : keeps P (log_error l).
Proof. apply emits_log_error, HP. Qed.

Lemma keeps_perform {A : Type} (c : call num) (answer : trace num -> A) (shown : A -> reply num) :
  (∀ a e, shown a ≠ Failed e) → keeps P (perform w c answer shown).
Proof. intros Hs. apply emits_perform; intros; apply HP; auto. Qed.

Lemma keeps_do_call (c : call num) : keeps P (do_call w c).
Proof. by apply keeps_perform. Qed.

Lemma keeps_bind {A B : Type} (m : M num A) (f : A -> M num B) :
  keeps P m → (∀ a, keeps P (f a)) → keeps P (m ≫= f).
Proof.
  intros Hm Hf.
  apply (emits_bind m f (fun c es => P (ending_of c) es)
           (fun _ c es => P (ending_of c) es)); [exact Hm | exact Hf | | | ]; cbn; auto.
  intros a es1 c es2. apply HP.
Qed.

Lemma keeps_when (b : bool) (m : M num unit) : keeps P m → keeps P (when b m).
Proof. intros Hm. destruct b; [done | apply keeps_ret]. Qed.

Lemma keeps_for_of {A S : Type} (xs : list A) (body : S -> A -> M num S) (acc : S) :
  (∀ acc x, keeps P (body acc x)) → keeps P (for_of xs body acc).
Proof.
  intros Hbody. revert acc. induction xs as [|x xs IH]; intros acc.
  - apply keeps_ret.
  - rewrite for_of_cons. apply keeps_bind; auto.
Qed.

(** A caught failure of a call other than [unlink]. *)
Lemma keeps_try_call (c : call num) (handler : error -> M num unit) :
  (∀ path, c ≠ Unlink path) → (∀ e, keeps P (handler e)) →
  keeps P (try_catch (do_call w c) handler).
Proof.
  intros Hc Hh.
  eapply emits_try_catch with
    (post1 := fun r es => match r with
                          | Throw e => es = [Called c (Failed e)]
                          | _ => P (ending_of r) es
                          end)
    (post2 := fun _ r es => P (ending_of r) es).
  - apply emits_perform; [intros; by apply HP | done].
  - exact Hh.
  - done.
  - done.
  - cbn. intros e es1 r es2 -> Hr.
    apply (inv_app P HP); [by apply (inv_caught P HP) | done].
Qed.

End Keeps.

End RunRules.

(** Every step of the program outside a [try] keeps an invariant. *)
Ltac keeps_step HP :=
  lazymatch goal with
  | |- keeps _ (mret _) => apply keeps_ret, HP
  | |- keeps _ (_ ≫= _) => apply (keeps_bind _ HP); [|intros ?]
  | |- keeps _ (log _) => apply keeps_log, HP
  | |- keeps _ (log_error _) => apply keeps_log_error, HP
  | |- keeps _ (lift _) => apply keeps_lift, HP
  | |- keeps _ (ask _) => apply keeps_ask, HP
  | |- keeps _ (exit _) => apply keeps_exit, HP
  | |- keeps _ (do_call _ _) => apply keeps_do_call, HP
  | |- keeps _ (perform _ _ _ _) => apply keeps_perform; [exact HP | done]
  | |- keeps _ (when _ _) => apply (keeps_when _ HP)
  | |- keeps _ (for_of _ _ _) => apply (keeps_for_of _ HP); intros ? ?
  | |- keeps _ (try_catch (do_call _ _) _) =>
      apply keeps_try_call; [exact HP | done | intros ?]
  | |- keeps _ (match ?x with _ => _ end) => destruct x
  | |- keeps _ (let _ := _ in _) => cbv zeta
  end.

Section RunInvariants.
Context {num : Type} `{JSNumber num} (w : World num) (rev : revision).
Context (P : ending -> list (event num) -> Prop) (HP : invariant P).

Lemma keeps_process_file cfg dir tempDir quality pool arwFile :
  keeps P (process_file w rev cfg dir tempDir quality pool arwFile).
Proof.
  unfold process_file, convertARWToPNG, convertARWToJPEG, detectAprilTags, print_tags.
  repeat keeps_step HP.
Qed.

Lemma keeps_main_body cfg dir : keeps P (main_body w rev cfg dir).
Proof.
  unfold main_body, createTempDir, process_quality, saveTableToFile, createScatterPlot.
  repeat first [ apply keeps_process_file | keeps_step HP ].
Qed.

End RunInvariants.

Section ScriptTheorems.
Context {num : Type} `{JSNumber num} (w : World num) (rev : revision).
Implicit Types (t es : list (event num)).

Lemma not_failed_unlink_log (l : line num) : ¬ failed_unlink (Log l : event num).
Proof. intros (path & e & Heq). discriminate. Qed.

Lemma not_failed_unlink_log_error (l : line num) : ¬ failed_unlink (LogError l : event num).
Proof. intros (path & e & Heq). discriminate. Qed.

Lemma not_failed_unlink_returned (c : call num) (r : reply num) :
  (∀ e, r ≠ Failed e) → ¬ failed_unlink (Called c r).
Proof. intros Hr (path & e & [= -> ->]). by apply (Hr e). Qed.

Lemma not_failed_unlink_other (c : call num) (r : reply num) :
  (∀ path, c ≠ Unlink path) → ¬ failed_unlink (Called c r).
Proof. intros Hc (path & e & [= -> ->]). by apply (Hc path). Qed.

Lemma stops_at_failed_unlink_invariant : invariant (stops_at_failed_unlink (num := num)).
Proof.
  split.
  - intros k. left. constructor.
  - intros es1 k es2 [H1|(es0 & path0 & e0 & _ & _ & [=])]
      [H2|(es' & path & e & -> & H2 & ->)].
    + left. by apply Forall_app.
    + right. exists (es1 ++ es'), path, e. rewrite app_assoc.
      split; [done|]. split; [by apply Forall_app | done].
  - intros l. left. repeat constructor. apply not_failed_unlink_log.
  - intros l. left. repeat constructor. apply not_failed_unlink_log_error.
  - intros c r Hr. left. repeat constructor. by apply not_failed_unlink_returned.
  - intros c e. destruct c;
      try (left; repeat constructor; by apply not_failed_unlink_other).
    right. exists [], path, e. repeat split. constructor.
  - intros c e Hc. left. repeat constructor. by apply not_failed_unlink_other.
Qed.

(** Where the first event of a kind sits in a list is determined. *)
Lemma first_occurrence {X : Type} (Q : X -> Prop) (a a' b b' : list X) (x x' : X) :
  Forall (fun y => ¬ Q y) a → Forall (fun y => ¬ Q y) b → Q x' →
  a ++ x :: b = a' ++ x' :: b' →
  a = a' ∧ x = x' ∧ b = b'.
Proof.
  intros Ha Hb Hx'. revert a'. induction Ha as [|y a Hy Ha IH]; intros a' Heq.
  - destruct a' as [|y' a']; cbn in Heq.
    + by injection Heq as -> ->.
    + injection Heq as -> ->. rewrite Forall_app, Forall_cons in Hb. tauto.
  - destruct a' as [|y' a']; cbn in Heq.
    + injection Heq as -> _. tauto.
    + injection Heq as -> Heq. destruct (IH a' Heq) as (-> & -> & ->). done.
Qed.

Lemma no_occurrence {X : Type} (Q : X -> Prop) (l a b : list X) (x : X) :
  Forall (fun y => ¬ Q y) l → Q x → l ≠ a ++ x :: b.
Proof.
  intros Hl Hx ->. rewrite Forall_app, Forall_cons in Hl. tauto.
Qed.

Lemma occurrence_after {X : Type} (Q : X -> Prop) (l1 l2 a b : list X) (x : X) :
  Forall (fun y => ¬ Q y) l1 → Q x →
  l1 ++ l2 = a ++ x :: b →
  ∃ a', a = l1 ++ a' ∧ l2 = a' ++ x :: b.
Proof.
  intros Hl Hx. revert a. induction Hl as [|y l1 Hy Hl IH]; intros a Heq.
  - by exists a.
  - destruct a as [|y' a]; cbn in Heq.
    + injection Heq as -> _. tauto.
    + injection Heq as -> Heq. destruct (IH a Heq) as (a' & -> & ->). by exists a'.
Qed.

(** Loading [.env.local] never throws, whatever the file system does. *)
Lemma env_loading_emits (envPath : string) :
  emits (try_catch (do_call w (Access envPath);; do_call w (Dotenv envPath))
                   (fun _ => mret tt))
        (fun c es => c = Normal tt ∧ Forall env_loading es).
Proof.
  intros t. unfold try_catch. rewrite run_bind. unfold do_call, perform.
  destruct (fails w t (Access envPath)) as [e|].
  - exists [Called (Access envPath) (Failed e)]. repeat split.
    repeat constructor. exists envPath, (Failed e). by left.
  - destruct (fails w _ (Dotenv envPath)) as [e|]; cbn.
    + exists [Called (Access envPath) Returned; Called (Dotenv envPath) (Failed e)].
      rewrite <- app_assoc. repeat split.
      repeat constructor; eexists _, _; eauto.
    + exists [Called (Access envPath) Returned; Called (Dotenv envPath) Returned].
      rewrite <- app_assoc. repeat split.
      repeat constructor; eexists _, _; eauto.
Qed.

Lemma env_loading_not_unlink (ev : event num) : env_loading ev → ¬ failed_unlink ev.
Proof. intros (path & r & [-> | ->]) (path' & e & [=]). Qed.

Lemma no_second_argument (args : list string) (RAW_DIR : option string) :
  length (nonFlagArgs args) ≤ 1 → truthy RAW_DIR = false →
  truthy (rawDir (parse_arguments args RAW_DIR)) = false.
Proof.
  intros Hlen Henv. unfold parse_arguments. cbn [rawDir].
  destruct (1 <? length (nonFlagArgs args)) eqn:Hlt.
  - apply Nat.ltb_lt in Hlt. lia.
  - by rewrite Henv.
Qed.

(** C7.  When the command line has no second positional word and the
    environment gives no usable [RAW_DIR], the script only loads
    [.env.local], prints the two error lines on the error stream and
    exits with status 1: there is no call to create a directory, list,
    read, convert, detect or delete anything. *)
Theorem no_source_directory (args : list string) :
  length (nonFlagArgs args) ≤ 1 →
  (∀ t, truthy (RAW_DIR w t) = false) →
  ∃ loading,
    script w rev args []
    = (Exit 1,
       loading
       ++ [ LogError (Text "Error: No RAW directory specified.");
            LogError (Text "Please provide a directory path as the second argument or set RAW_DIR in .env.local") ])
    ∧ Forall env_loading loading
    ∧ exit_status (script w rev args []).1 = 1%Z.
Proof.
  intros Hargs Henv. unfold script.
  destruct (env_loading_emits (path_join w (cwd w) ".env.local") []) as (es & Ht & Hc & Hes).
  rewrite run_bind.
  destruct (try_catch _ _ []) as [c t1]. cbn in Ht, Hc. subst c t1.
  rewrite run_bind. cbn [ask].
  rewrite (no_second_argument args (RAW_DIR w es) Hargs (Henv es)). cbn [negb].
  exists es. repeat (rewrite run_bind; unfold log_error, exit; cbn beta iota).
  cbn [fst exit_status]. rewrite <- app_assoc. by repeat split.
Qed.

Lemma text_lines_emit (lines : list string) :
  emits (for_of lines (fun _ s => log (Text s)) tt)
        (fun c es => c = Normal tt ∧ Forall (fun ev => ¬ failed_unlink (num := num) ev) es).
Proof.
  induction lines as [|s lines IH].
  - apply emits_ret. by split.
  - rewrite for_of_cons.
    apply (emits_bind _ _ (fun c es => c = Normal tt ∧ es = [Log (Text s)])
             (fun _ c es => c = Normal tt ∧ Forall (fun ev => ¬ failed_unlink ev) es)).
    + by apply emits_log.
    + by intros [].
    + intros [] es1 c es2 [_ ->] [-> Hq]. split; [done|].
      constructor; [apply not_failed_unlink_log | done].
    + by intros e es [[=] _].
    + by intros code es [[=] _].
Qed.

(** A piece of code that cannot throw and deletes nothing may run first. *)
Lemma emits_after_quiet {A B : Type} (m : M num A) (f : A -> M num B) :
  emits m (fun c es => (∀ e, c ≠ Throw e)
                       ∧ Forall (fun ev => ¬ failed_unlink ev) es) →
  (∀ a, emits (f a) aborts_on_failed_unlink) →
  emits (m ≫= f) aborts_on_failed_unlink.
Proof.
  intros Hm Hf.
  apply (emits_bind m f _ (fun _ => aborts_on_failed_unlink) _ Hm Hf).
  - intros a es1 c es2 [_ Hq] Hrest es1' path e es2' Heq.
    apply (occurrence_after failed_unlink) in Heq as (a' & -> & Heq);
      [ | done | by eexists _, _ ].
    by apply Hrest in Heq.
  - intros e es [Hne _]. by destruct (Hne e).
  - intros code es [_ Hq] es1 path e es2 Heq.
    exfalso. by eapply (no_occurrence failed_unlink); [exact Hq | eexists _, _ | exact Heq].
Qed.

Lemma main_aborts_on_failed_unlink cfg dir :
  emits (main w rev cfg dir) aborts_on_failed_unlink.
Proof.
  pose proof stops_at_failed_unlink_invariant as HP.
  unfold main. apply emits_after_quiet.
  { eapply emits_mono; [apply text_lines_emit|]. by intros c es [-> Hq]. }
  intros _.
  apply (emits_try_catch _ _ (fun c es => stops_at_failed_unlink (ending_of c) es)
           (fun e c es => c = Exit 1 ∧ es = [LogError (ErrorLine e)])).
  - by apply keeps_main_body.
  - intros e t. exists [LogError (ErrorLine e)]. by repeat split.
  - intros a es [Hq|(es' & path & e & _ & _ & [=])] es1 path0 e0 es2 Heq.
    exfalso. by eapply (no_occurrence failed_unlink); [exact Hq | eexists _, _ | exact Heq].
  - intros code es [Hq|(es' & path & e & _ & _ & [=])] es1 path0 e0 es2 Heq.
    exfalso. by eapply (no_occurrence failed_unlink); [exact Hq | eexists _, _ | exact Heq].
  - intros e es1 c es2 Hstop [-> ->] es1' path' e' es2' Heq.
    destruct Hstop as [Hq|(es' & path & e0 & -> & Hq & [= ->])].
    + exfalso. eapply (no_occurrence failed_unlink); [ | | exact Heq].
      * apply Forall_app. split; [exact Hq|].
        repeat constructor. apply not_failed_unlink_log_error.
      * by eexists _, _.
    + rewrite <- app_assoc in Heq. cbn in Heq.
      apply (first_occurrence failed_unlink) in Heq as (_ & [= _ ->] & <-).
      * done.
      * done.
      * repeat constructor. apply not_failed_unlink_log_error.
      * by eexists _, _.
Qed.

Lemma script_aborts_on_failed_unlink (args : list string) :
  emits (script w rev args) aborts_on_failed_unlink.
Proof.
  unfold script. apply emits_after_quiet.
  { eapply emits_mono; [apply env_loading_emits|].
    intros c es [-> Hq]. split; [done|].
    eapply Forall_impl; [exact Hq | apply env_loading_not_unlink]. }
  intros _. apply emits_after_quiet.
  { apply emits_ask. intros a. split; [done | constructor]. }
  intros env. destruct (negb _).
  - apply emits_after_quiet.
    { apply emits_log_error. split; [done|].
      repeat constructor. apply not_failed_unlink_log_error. }
    intros _. apply emits_after_quiet.
    { apply emits_log_error. split; [done|].
      repeat constructor. apply not_failed_unlink_log_error. }
    intros _. apply emits_exit. intros es1 path e es2 Heq. by destruct es1.
  - apply (emits_bind _ _
             (fun c es => Forall (fun ev => ¬ failed_unlink ev) es)
             (fun _ => aborts_on_failed_unlink)).
    + apply emits_perform; intros; repeat constructor;
        by apply not_failed_unlink_other.
    + intros _. apply main_aborts_on_failed_unlink.
    + intros a es1 c es2 Hq Hrest es1' path e es2' Heq.
      apply (occurrence_after failed_unlink) in Heq as (a' & -> & Heq);
        [ | done | by eexists _, _ ].
      by apply Hrest in Heq.
    + intros e es Hq es1 path e0 es2 Heq.
      exfalso. by eapply (no_occurrence failed_unlink); [exact Hq | eexists _, _ | exact Heq].
    + intros code es Hq es1 path e0 es2 Heq.
      exfalso. by eapply (no_occurrence failed_unlink); [exact Hq | eexists _, _ | exact Heq].
Qed.

(** C6, as amended.  If a deletion of a temporary image fails, the error
    is printed on the error stream and the process exits with status 1:
    in the trace of the run the failed [unlink] is followed by that one
    line and nothing else, so no further file or quality level is
    processed and no summary is printed. *)
Theorem failed_unlink_aborts_run (args : list string)
    (before after : list (event num)) (path : string) (e : error) :
  (script w rev args []).2 = before ++ Called (Unlink path) (Failed e) :: after →
  after = [LogError (ErrorLine e)]
  ∧ (script w rev args []).1 = Exit 1
  ∧ exit_status (script w rev args []).1 = 1%Z.
Proof.
  intros Htrace.
  destruct (script_aborts_on_failed_unlink args []) as (es & Hes & Hab).
  rewrite app_nil_l in Hes. rewrite Hes in Htrace.
  destruct (Hab _ _ _ _ Htrace) as [-> Hexit]. by rewrite Hexit.
Qed.

(** *** One file at one quality level *)

Lemma trivial_invariant : invariant (fun (_ : ending) (_ : list (event num)) => True).
Proof. by split. Qed.

Lemma grows {A : Type} (m : M num A) (t t' : list (event num)) (c : completion A) :
  keeps (fun _ _ => True) m → m t = (c, t') → ∃ es, t' = t ++ es.
Proof. intros Hm Hrun. destruct (Hm t) as (es & Hes & _). rewrite Hrun in Hes. eauto. Qed.

Lemma bind_normal {A B : Type} (m : M num A) (f : A -> M num B) t (b : B) t' :
  (m ≫= f) t = (Normal b, t') →
  ∃ a t1, m t = (Normal a, t1) ∧ f a t1 = (Normal b, t').
Proof.
  rewrite run_bind. destruct (m t) as [[a|e|code] t1]; intros Heq; try discriminate.
  eauto.
Qed.

Lemma rebuild_detections (detections : list (Detection num)) :
  (fun detection => {| tag_id := tag_id detection; corners := corners detection |})
    <$> detections = detections.
Proof.
  induction detections as [|[i cs] l IH]; [done|]. rewrite fmap_cons. by rewrite IH.
Qed.

Lemma detectAprilTags_normal (imagePath : string) t t' (tags : list (Detection num)) :
  detectAprilTags w imagePath t = (Normal tags, t') →
  t' = t ++ [Called (LoadImage imagePath) Returned; Called (Detect imagePath) (Tags tags)].
Proof.
  unfold detectAprilTags. intros Hrun.
  apply bind_normal in Hrun as ([] & t1 & H1 & Hrun).
  apply bind_normal in Hrun as (tags0 & t2 & H2 & Hrun).
  unfold do_call, perform in H1, H2.
  destruct (fails w t _); [discriminate|]. injection H1 as <-.
  destruct (fails w _ _); [discriminate|]. injection H2 as <- <-.
  injection Hrun as <- <-. by rewrite rebuild_detections, <- app_assoc.
Qed.

Lemma count_missing_complement (gt det : list (Detection num)) :
  count_missing gt det
  + length (filter (fun i => i ∈ id_set det) (tag_id <$> gt))
  = length gt.
Proof.
  unfold count_missing. induction gt as [|g gt IH]; [done|].
  rewrite fmap_cons, !filter_cons.
  destruct (decide (tag_id g ∈ id_set det)), (decide (tag_id g ∉ id_set det));
    cbn [length]; try tauto; rewrite ?Nat.add_succ_r; cbn [Nat.add]; f_equal; exact IH.
Qed.

Lemma count_missing_sets (gt det : list (Detection num)) :
  NoDup (tag_id <$> gt) →
  count_missing gt det = size (id_set gt) - size (id_set gt ∩ id_set det)
  ∧ size (id_set gt ∩ id_set det) ≤ size (id_set gt).
Proof.
  intros Hnd. pose proof (count_missing_complement gt det) as Hsum.
  pose proof (common_ids_size (tag_id <$> gt) (id_set det) Hnd) as Hcommon.
  pose proof (size_list_to_set (C := gset Z) (tag_id <$> gt) Hnd) as Hsize.
  rewrite length_fmap in Hsize. fold (id_set gt) in Hcommon, Hsize.
  rewrite Hcommon, Hsize. lia.
Qed.

(** C2.  Whenever the body of the file loop runs to its end for a file
    at a quality level, the detector was asked for the reference set on
    the PNG and for the comparison set on the JPEG; the running total of
    missing markers has grown by the driver's count for this pair; the
    pool of deltas has grown by what [calculateDeltas] returns, in which
    a reference marker absent from the comparison set has no entry; and
    when the reference identifiers are unique the count is
    |reference identifiers| - |reference identifiers ∩ comparison
    identifiers|. *)
Theorem missing_markers_accumulated (cfg : Config) (dir tempDir : string) (quality : Q)
    (pool pool' : Pool num) (arwFile : string) (t t' : list (event num)) :
  process_file w rev cfg dir tempDir quality pool arwFile t = (Normal pool', t') →
  let baseName := path_basename w arwFile ".ARW" in
  let pngPath := path_join w tempDir (baseName ++ "_gt.png")%string in
  let jpegPath :=
    path_join w tempDir (baseName ++ "_q" ++ quality_text quality ++ ".jpg")%string in
  ∃ (groundTruth detection : list (Detection num)) (deltas : list num)
    (es : list (event num)),
    t' = t ++ es
    ∧ Called (Detect pngPath) (Tags groundTruth) ∈ es
    ∧ Called (Detect jpegPath) (Tags detection) ∈ es
    ∧ totalMissingMarkers pool'
      = totalMissingMarkers pool + count_missing groundTruth detection
    ∧ calculateDeltas groundTruth detection = Normal deltas
    ∧ allDeltas pool' = allDeltas pool ++ deltas
    ∧ deltas = concat (marker_deltas detection <$> groundTruth)
    ∧ (∀ g, g ∈ groundTruth → tag_id g ∉ id_set detection →
         marker_deltas detection g = [])
    ∧ (NoDup (tag_id <$> groundTruth) →
         count_missing groundTruth detection
         = size (id_set groundTruth) - size (id_set groundTruth ∩ id_set detection)
         ∧ size (id_set groundTruth ∩ id_set detection) ≤ size (id_set groundTruth)).
Proof.
  pose proof trivial_invariant as HP.
  intros Hrun baseName pngPath jpegPath.
  unfold process_file in Hrun. cbv zeta in Hrun.
  fold baseName pngPath jpegPath in Hrun.
  apply bind_normal in Hrun as ([] & t1 & H1 & Hrun).
  apply bind_normal in Hrun as ([] & t2 & H2 & Hrun).
  apply bind_normal in Hrun as (groundTruth & t3 & H3 & Hrun).
  apply bind_normal in Hrun as ([] & t4 & H4 & Hrun).
  apply bind_normal in Hrun as ([] & t5 & H5 & Hrun).
  apply bind_normal in Hrun as ([] & t6 & H6 & Hrun).
  apply bind_normal in Hrun as ([] & t7 & H7 & Hrun).
  apply bind_normal in Hrun as (detection & t8 & H8 & Hrun).
  apply bind_normal in Hrun as ([] & t9 & H9 & Hrun).
  apply bind_normal in Hrun as ([] & t10 & H10 & Hrun).
  apply bind_normal in Hrun as (deltas & t11 & H11 & Hrun).
  apply bind_normal in Hrun as ([] & t12 & H12 & Hrun).
  injection Hrun as <- <-. injection H11 as Hdeltas <-.
  apply detectAprilTags_normal in H3, H8.
  apply grows in H1 as [es1 ->];
    [|unfold convertARWToPNG; repeat keeps_step HP].
  apply grows in H2 as [es2 ->]; [|repeat keeps_step HP].
  apply grows in H4 as [es4 ->]; [|repeat keeps_step HP].
  apply grows in H5 as [es5 ->]; [|unfold print_tags; repeat keeps_step HP].
  apply grows in H6 as [es6 ->];
    [|unfold convertARWToJPEG; repeat keeps_step HP].
  apply grows in H7 as [es7 ->]; [|repeat keeps_step HP].
  apply grows in H9 as [es9 ->]; [|repeat keeps_step HP].
  apply grows in H10 as [es10 ->]; [|unfold print_tags; repeat keeps_step HP].
  apply grows in H12 as [es12 ->]; [|repeat keeps_step HP].
  subst t3 t8.
  exists groundTruth, detection, deltas.
  eexists. rewrite <- !app_assoc. split; [reflexivity|].
  split; [rewrite !elem_of_app, !elem_of_cons; tauto|].
  split; [rewrite !elem_of_app, !elem_of_cons; tauto|].
  cbn [totalMissingMarkers allDeltas].
  split; [done|]. split; [done|]. split; [done|].
  split; [by apply calculateDeltas_returns|].
  split.
  - intros g _ Hno. unfold marker_deltas.
    apply find_by_id_None in Hno. by rewrite Hno.
  - apply count_missing_sets.
Qed.

End ScriptTheorems.

(** *** Which files are converted *)

Section Conversions.
Context {num : Type} `{JSNumber num} (w : World num) (rev : revision).
Implicit Types (t es : list (event num)) (expected : list (string * Q)).

Lemma conversions_app es1 es2 :
  conversions (es1 ++ es2) = conversions es1 ++ conversions es2.
Proof. unfold conversions. apply flat_map_app. Qed.

Lemma converts_expected {A : Type} (m : M num A) expected expected' :
  emits m (converts expected) → expected = expected' → emits m (converts expected').
Proof. by intros Hm <-. Qed.

Lemma converts_silent {A : Type} (c : completion A) : converts [] c ([] : list (event num)).
Proof. by split. Qed.

Lemma converts_ret {A : Type} (a : A) : emits (mret a : M num A) (converts []).
Proof. apply emits_ret, converts_silent. Qed.

Lemma converts_lift {A : Type} (c : completion A) : emits (lift c : M num A) (converts []).
Proof. apply emits_lift, converts_silent. Qed.

Lemma converts_ask {A : Type} (f : trace num -> A) : emits (ask f) (converts []).
Proof. apply emits_ask. intros. apply converts_silent. Qed.

Lemma converts_exit {A : Type} (code : Z) : emits (exit code : M num A) (converts []).
Proof. apply emits_exit, converts_silent. Qed.

Lemma converts_log (l : line num) : emits (log l : M num unit) (converts []).
Proof. apply emits_log. by split. Qed.

Lemma converts_log_error (l : line num) : emits (log_error l : M num unit) (converts []).
Proof. apply emits_log_error. by split. Qed.

Lemma converts_perform {A : Type} (c : call num) (answer : trace num -> A) (shown : A -> reply num) :
  emits (perform w c answer shown) (converts (conversion_of c)).
Proof.
  apply emits_perform; intros; (split; [|intros _]);
    destruct c as [| | | | | |? [?|]| | | | | |]; by cbn.
Qed.

Lemma converts_do_call (c : call num) : emits (do_call w c) (converts (conversion_of c)).
Proof. apply converts_perform. Qed.

Lemma converts_bind {A B : Type} (m : M num A) (f : A -> M num B) expected1 expected2 :
  emits m (converts expected1) →
  (∀ a, emits (f a) (converts expected2)) →
  emits (m ≫= f) (converts (expected1 ++ expected2)).
Proof.
  intros Hm Hf.
  apply (emits_bind m f (converts expected1) (fun _ => converts expected2) _ Hm Hf).
  - intros a es1 c es2 [_ H1] [Hpre H2]. specialize (H1 eq_refl).
    split.
    + rewrite conversions_app, H1. by apply prefix_app.
    + intros Hc. by rewrite conversions_app, H1, (H2 Hc).
  - intros e es [Hpre _]. split; [|done]. by apply prefix_app_r.
  - intros code es [Hpre _]. split; [|done]. by apply prefix_app_r.
Qed.

Lemma converts_bind_silent {A B : Type} (m : M num A) (f : A -> M num B) :
  emits m (converts []) →
  (∀ a, emits (f a) (converts [])) →
  emits (m ≫= f) (converts []).
Proof. intros Hm Hf. by apply (converts_bind m f [] []). Qed.

Lemma converts_when (b : bool) (m : M num unit) :
  emits m (converts []) → emits (when b m) (converts []).
Proof. intros Hm. destruct b; [done | apply converts_ret]. Qed.

Lemma converts_for_of {A S : Type} (xs : list A) (body : S -> A -> M num S) (acc : S)
    (each : A -> list (string * Q)) :
  (∀ acc x, emits (body acc x) (converts (each x))) →
  emits (for_of xs body acc) (converts (flat_map each xs)).
Proof.
  intros Hbody. revert acc. induction xs as [|x xs IH]; intros acc.
  - apply converts_ret.
  - rewrite for_of_cons. cbn [flat_map]. apply converts_bind; auto.
Qed.

Lemma converts_for_of_silent {A S : Type} (xs : list A) (body : S -> A -> M num S) (acc : S) :
  (∀ acc x, emits (body acc x) (converts [])) →
  emits (for_of xs body acc) (converts []).
Proof.
  intros Hbody. eapply converts_expected; [by apply (converts_for_of _ _ _ (fun _ => []))|].
  by induction xs.
Qed.

Lemma converts_try_call (c : call num) (handler : error -> M num unit) :
  conversion_of c = [] → (∀ e, emits (handler e) (converts [])) →
  emits (try_catch (do_call w c) handler) (converts []).
Proof.
  intros Hc Hh.
  apply (emits_try_catch _ _ (fun r es => conversions es = [])
           (fun _ => converts [])).
  - apply emits_perform; intros; cbn; rewrite app_nil_r;
      destruct c as [| | | | | |? [?|]| | | | | |]; done.
  - exact Hh.
  - intros a es Hes. split; [by rewrite Hes | done].
  - intros code es Hes. split; [by rewrite Hes | done].
  - intros e es1 r es2 Hes [Hpre Hfin].
    split; [|intros Hr]; rewrite conversions_app, Hes; [done | by apply Hfin].
Qed.

End Conversions.

Ltac converts_step :=
  lazymatch goal with
  | |- emits (mret _) _ => apply converts_ret
  | |- emits (_ ≫= _) (converts []) => apply converts_bind_silent; [|intros ?]
  | |- emits (_ ≫= _) _ => eapply converts_bind; [|intros ?]
  | |- emits (log _) _ => apply converts_log
  | |- emits (log_error _) _ => apply converts_log_error
  | |- emits (lift _) _ => apply converts_lift
  | |- emits (ask _) _ => apply converts_ask
  | |- emits (exit _) _ => apply converts_exit
  | |- emits (do_call _ _) _ =>
      eapply converts_expected; [apply converts_do_call | cbn; reflexivity]
  | |- emits (perform _ _ _ _) _ =>
      eapply converts_expected; [apply converts_perform | cbn; reflexivity]
  | |- emits (when _ _) _ => apply converts_when
  | |- emits (try_catch (do_call _ _) _) _ => apply converts_try_call; [done | intros ?]
  | |- emits (match ?x with _ => _ end) _ => destruct x
  | |- emits (let _ := _ in _) _ => cbv zeta
  end.

Section ConversionTheorems.
Context {num : Type} `{JSNumber num} (w : World num) (rev : revision).

Lemma converts_print_tags (tags : list (Detection num)) :
  emits (print_tags tags) (converts []).
Proof.
  unfold print_tags. apply converts_for_of_silent. intros _ tag.
  eapply converts_expected; [repeat converts_step | reflexivity].
Qed.

Lemma converts_process_file cfg dir tempDir quality pool arwFile :
  emits (process_file w rev cfg dir tempDir quality pool arwFile)
        (converts [(path_join w dir arwFile, quality)]).
Proof.
  unfold process_file, convertARWToPNG, convertARWToJPEG, detectAprilTags.
  eapply converts_expected.
  - repeat first [ apply converts_print_tags | converts_step ].
  - reflexivity.
Qed.

Lemma emits_bind_dep {A B : Type} (m : M num A) (f : A -> M num B)
    (post1 : completion A -> list (event num) -> Prop)
    (post : completion B -> list (event num) -> Prop) :
  emits m post1 →
  (∀ a es1, post1 (Normal a) es1 → emits (f a) (fun c es2 => post c (es1 ++ es2))) →
  (∀ e es, post1 (Throw e) es → post (Throw e) es) →
  (∀ code es, post1 (Exit code) es → post (Exit code) es) →
  emits (m ≫= f) post.
Proof.
  intros Hm Hf Hthrow Hexit t. rewrite run_bind.
  destruct (Hm t) as (es1 & Ht1 & Hp1).
  destruct (m t) as [[a|e|code] t1]; cbn in Ht1, Hp1; subst t1.
  - destruct (Hf a es1 Hp1 (t ++ es1)) as (es2 & Ht2 & Hp2).
    exists (es1 ++ es2). by rewrite Ht2, app_assoc.
  - exists es1. eauto.
  - exists es1. eauto.
Qed.

Lemma flat_map_singleton {X Y : Type} (g : X -> Y) (xs : list X) :
  flat_map (fun x => [g x]) xs = g <$> xs.
Proof. induction xs as [|x xs IH]; [done|]. cbn. by rewrite IH. Qed.

Lemma converts_process_quality cfg dir tempDir arwFiles acc quality :
  emits (process_quality w rev cfg dir tempDir arwFiles acc quality)
        (converts ((fun file => (path_join w dir file, quality)) <$> arwFiles)).
Proof.
  unfold process_quality. destruct acc as [results scatter].
  eapply converts_expected.
  - eapply converts_bind; [apply converts_log | intros _].
    eapply converts_bind.
    + apply (converts_for_of _ _ _ (fun file => [(path_join w dir file, quality)])).
      intros. apply converts_process_file.
    + intros pool. destruct (calculateStats _). apply converts_ret.
  - cbn [app]. by rewrite app_nil_r, flat_map_singleton.
Qed.

Lemma converts_quality_loop cfg dir tempDir arwFiles acc :
  emits (for_of QUALITY_VALUES (process_quality w rev cfg dir tempDir arwFiles) acc)
        (converts (plan w dir arwFiles)).
Proof.
  apply (converts_for_of _ _ _
           (fun quality => (fun file => (path_join w dir file, quality)) <$> arwFiles)).
  intros. apply converts_process_quality.
Qed.

Lemma converts_text_lines (lines : list string) :
  emits (for_of lines (fun _ s => log (Text s : line num)) tt) (converts []).
Proof. apply converts_for_of_silent. intros. apply converts_log. Qed.

(** The tail of [main_body], once the files are chosen. *)
Lemma converts_reports cfg tempDir (results : list (QualityResult num))
    (scatterData : list (ScatterPoint num)) :
  emits (for_of table_heading (fun _ s => log (Text s)) tt;;
         for_of results (fun _ result => log (TableRow result)) tt;;
         match rev with
         | WithPlot => saveTableToFile w results
         | Original => mret tt
         end;;
         (if negb (preserveFiles cfg) then do_call w (Rmdir tempDir)
          else log (PreservedFiles tempDir));;
         match rev with
         | WithPlot =>
             when (negb (noPlot cfg) && (0 <? length scatterData))
               (createScatterPlot w scatterData)
         | Original => mret tt
         end)
        (converts []).
Proof.
  unfold saveTableToFile, createScatterPlot.
  repeat first [ apply converts_text_lines
               | apply converts_for_of_silent; intros ? ?
               | converts_step ].
Qed.

Lemma converts_selected_quiet {A : Type} cfg dir (c : completion A) (es : list (event num)) :
  ending_of c ≠ Finished → conversions es = [] → converts_selected w cfg dir c es.
Proof.
  intros Hc Hes. exists (listing w [] dir). split; [by exists []|].
  split; [done|]. split; [|done].
  rewrite Hes. apply prefix_nil.
Qed.

Lemma main_body_converts cfg dir :
  emits (main_body w rev cfg dir) (converts_selected w cfg dir).
Proof.
  unfold main_body.
  apply (emits_bind_dep _ _ (converts [])).
  { unfold createTempDir. eapply converts_expected; [repeat converts_step | reflexivity]. }
  2: { intros e es [Hpre _]. apply converts_selected_quiet; [done|].
       by apply prefix_nil_inv in Hpre. }
  2: { intros code es [Hpre _]. apply converts_selected_quiet; [done|].
       by apply prefix_nil_inv in Hpre. }
  intros tempDir es0 [_ Hes0]. specialize (Hes0 eq_refl).
  apply (emits_bind_dep _ _ (converts [])); [apply converts_log | | | ].
  2: { intros e es [Hpre _]. apply converts_selected_quiet; [done|].
       apply prefix_nil_inv in Hpre. by rewrite conversions_app, Hes0, Hpre. }
  2: { intros code es [Hpre _]. apply converts_selected_quiet; [done|].
       apply prefix_nil_inv in Hpre. by rewrite conversions_app, Hes0, Hpre. }
  intros [] es1 [_ Hes1]. specialize (Hes1 eq_refl).
  apply (emits_bind_dep _ _
           (fun c es => conversions es = []
                        ∧ ∀ names, c = Normal names →
                                   es = [Called (Readdir dir) (Names names)]
                                   ∧ ∃ t, names = listing w t dir)).
  { intros t. unfold perform. destruct (fails w t (Readdir dir)) as [e|].
    - exists [Called (Readdir dir) (Failed e)]. by repeat split.
    - exists [Called (Readdir dir) (Names (listing w t dir))].
      split; [done|]. split; [done|]. intros names [= <-]. eauto. }
  2: { intros e es [Hes _]. apply converts_selected_quiet; [done|].
       by rewrite !conversions_app, Hes0, Hes1, Hes. }
  2: { intros code es [Hes _]. apply converts_selected_quiet; [done|].
       by rewrite !conversions_app, Hes0, Hes1, Hes. }
  intros names es2 [Hes2 Hnames].
  destruct (Hnames names eq_refl) as [-> Hlisting]. clear Hnames.
  apply (emits_mono _ (converts (plan w dir (selected_files cfg (raw_files names))))).
  - unfold selected_files.
    destruct (subset_applies cfg (raw_files names)) as [n|].
    + eapply converts_expected.
      * eapply converts_bind; [apply converts_log | intros _].
        eapply emits_ext; [intros t; apply run_bind_assoc|].
        eapply converts_bind; [apply converts_log | intros _].
        rewrite run_bind_ret.
        eapply converts_bind; [apply converts_quality_loop | intros [results scatter]].
        apply converts_reports.
      * cbn [app]. rewrite app_nil_r. reflexivity.
    + eapply converts_expected.
      * eapply converts_bind; [apply converts_log | intros _].
        rewrite run_bind_ret.
        eapply converts_bind; [apply converts_quality_loop | intros [results scatter]].
        apply converts_reports.
      * cbn [app]. rewrite app_nil_r. reflexivity.
  - intros c es [Hpre Hfin]. exists names. split; [done|]. split.
    + intros _. rewrite !elem_of_app, !elem_of_cons. tauto.
    + split; [|intros Hc]; rewrite !conversions_app, Hes0, Hes1; cbn; auto.
Qed.

Lemma converts_selected_after {A : Type} cfg dir (c : completion A)
    (es0 es : list (event num)) :
  conversions es0 = [] →
  converts_selected w cfg dir c es → converts_selected w cfg dir c (es0 ++ es).
Proof.
  intros Hes0 (names & Hlisting & Hin & Hpre & Hfin). exists names.
  split; [done|]. split.
  - intros Hc. apply elem_of_app. right. by apply Hin.
  - split; [|intros Hc]; rewrite conversions_app, Hes0; cbn; auto.
Qed.

Lemma main_converts cfg dir : emits (main w rev cfg dir) (converts_selected w cfg dir).
Proof.
  unfold main.
  apply (emits_bind_dep _ _ (converts [])); [apply converts_text_lines | | | ].
  2: { intros e es [Hpre _]. apply converts_selected_quiet; [done|].
       by apply prefix_nil_inv in Hpre. }
  2: { intros code es [Hpre _]. apply converts_selected_quiet; [done|].
       by apply prefix_nil_inv in Hpre. }
  intros [] es0 [_ Hes0]. specialize (Hes0 eq_refl).
  apply (emits_try_catch _ _ (converts_selected w cfg dir)
           (fun e c es => c = Exit 1 ∧ es = [LogError (ErrorLine e)])).
  - apply main_body_converts.
  - intros e t. exists [LogError (ErrorLine e)]. by repeat split.
  - intros a es Hsel. by apply converts_selected_after.
  - intros code es Hsel. by apply converts_selected_after.
  - intros e es1 c es2 (names & Hlisting & _ & Hpre & _) [-> ->].
    apply converts_selected_after; [done|].
    exists names. split; [done|]. split; [done|]. split; [|done].
    rewrite conversions_app. cbn. by rewrite app_nil_r.
Qed.

Lemma env_loading_no_conversion (es : list (event num)) :
  Forall env_loading es → conversions es = [].
Proof.
  induction 1 as [|ev es (path & r & [-> | ->]) _ IH]; [done| |]; cbn; exact IH.
Qed.

Lemma script_converts (args : list string) :
  emits (script w rev args)
        (fun c es => ∃ env,
           let cfg := parse_arguments args env in
           converts_selected w cfg (default "" (rawDir cfg)) c es).
Proof.
  unfold script.
  apply (emits_bind_dep _ _ _ _ (env_loading_emits w _)).
  2: { by intros e es [[=] _]. }
  2: { by intros code es [[=] _]. }
  intros [] es0 [_ Hes0]. apply env_loading_no_conversion in Hes0.
  intros t. rewrite run_bind. cbn [ask].
  set (cfg := parse_arguments args (RAW_DIR w t)).
  assert (emits (if negb (truthy (rawDir cfg))
                 then log_error (Text "Error: No RAW directory specified.");;
                      log_error (Text "Please provide a directory path as the second argument or set RAW_DIR in .env.local");;
                      exit 1
                 else do_call w NewDetector;; main w rev cfg (default "" (rawDir cfg)))
                (converts_selected w cfg (default "" (rawDir cfg)))) as Hrest.
  { destruct (negb _).
    - apply (emits_mono _ (fun c es => c = Exit 1 ∧ conversions es = [])).
      + intros t'. exists [LogError (Text "Error: No RAW directory specified.");
                           LogError (Text "Please provide a directory path as the second argument or set RAW_DIR in .env.local")].
        repeat (rewrite run_bind; unfold log_error, exit; cbn beta iota).
        cbn [fst snd]. by rewrite <- app_assoc.
      + intros c es [-> Hes]. by apply converts_selected_quiet.
    - apply (emits_bind_dep _ _ (converts [])).
      + eapply converts_expected; [apply converts_do_call | done].
      + intros [] es1 [_ Hes1]. specialize (Hes1 eq_refl).
        eapply emits_mono; [apply main_converts|].
        intros c es. by apply converts_selected_after.
      + intros e es [Hpre _]. apply converts_selected_quiet; [done|].
        by apply prefix_nil_inv in Hpre.
      + intros code es [Hpre _]. apply converts_selected_quiet; [done|].
        by apply prefix_nil_inv in Hpre. }
  destruct (Hrest t) as (es & Ht & Hsel). exists es. split; [done|].
  exists (RAW_DIR w t). by apply converts_selected_after.
Qed.

End ConversionTheorems.

(** *** Nothing but a failure stops a run *)

Section Progress.
Context {num : Type} `{JSNumber num} (w : World num) (rev : revision).
Context (Hw : obliging w).

Lemma finishes_mono {A : Type} (m : M num A) (Q Q' : A -> Prop) :
  finishes m Q → (∀ a, Q a → Q' a) → finishes m Q'.
Proof. intros Hm HQ t. destruct (Hm t) as (a & t' & Hrun & Ha). eauto. Qed.

Lemma finishes_ret {A : Type} (a : A) (Q : A -> Prop) : Q a → finishes (mret a : M num A) Q.
Proof. intros Ha t. by exists a, t. Qed.

Lemma finishes_bind {A B : Type} (m : M num A) (f : A -> M num B)
    (Q1 : A -> Prop) (Q : B -> Prop) :
  finishes m Q1 → (∀ a, Q1 a → finishes (f a) Q) → finishes (m ≫= f) Q.
Proof.
  intros Hm Hf t. rewrite run_bind. destruct (Hm t) as (a & t1 & -> & Ha).
  apply (Hf a Ha).
Qed.

Lemma finishes_seq {A B : Type} (m : M num A) (m' : M num B) (Q : B -> Prop) :
  finishes m (fun _ => True) → finishes m' Q → finishes (m ≫= fun _ => m') Q.
Proof. intros Hm Hm'. by apply (finishes_bind m _ (fun _ => True)). Qed.

Lemma finishes_log (l : line num) : finishes (log l) (fun _ => True).
Proof. intros t. by exists tt, (t ++ [Log l]). Qed.

Lemma finishes_ask {A : Type} (f : trace num -> A) : finishes (ask f) (fun _ => True).
Proof. intros t. by exists (f t), t. Qed.

Lemma finishes_perform {A : Type} (c : call num) (answer : trace num -> A)
    (shown : A -> reply num) (Q : A -> Prop) :
  (∀ t, Q (answer t)) → finishes (perform w c answer shown) Q.
Proof.
  intros HQ t. unfold perform. rewrite (proj1 Hw). eauto.
Qed.

Lemma finishes_do_call (c : call num) : finishes (do_call w c) (fun _ => True).
Proof. by apply finishes_perform. Qed.

Lemma finishes_when (b : bool) (m : M num unit) :
  finishes m (fun _ => True) → finishes (when b m) (fun _ => True).
Proof. intros Hm. destruct b; [done | by apply finishes_ret]. Qed.

Lemma finishes_for_of {A S : Type} (xs : list A) (body : S -> A -> M num S) (acc : S)
    (Q : A -> Prop) :
  Forall Q xs → (∀ acc x, Q x → finishes (body acc x) (fun _ => True)) →
  finishes (for_of xs body acc) (fun _ => True).
Proof.
  intros Hxs Hbody. revert acc. induction Hxs as [|x xs Hx Hxs IH]; intros acc.
  - by apply finishes_ret.
  - rewrite for_of_cons. apply (finishes_bind _ _ (fun _ => True)); auto.
Qed.

Lemma finishes_try_catch {A : Type} (body : M num A) (handler : error -> M num A)
    (Q : A -> Prop) :
  finishes body Q → finishes (try_catch body handler) Q.
Proof.
  intros Hbody t. unfold try_catch. destruct (Hbody t) as (a & t' & -> & Ha). eauto.
Qed.

Lemma finishes_text_lines (lines : list string) :
  finishes (for_of lines (fun _ s => log (Text s : line num)) tt) (fun _ => True).
Proof.
  apply (finishes_for_of _ _ _ (fun _ => True)); [by apply Forall_true|].
  intros. apply finishes_log.
Qed.

Lemma finishes_detectAprilTags (imagePath : string) :
  finishes (detectAprilTags w imagePath) (Forall well_formed).
Proof.
  unfold detectAprilTags. apply finishes_seq; [apply finishes_do_call|].
  eapply finishes_bind.
  - apply (finishes_perform _ _ _ (Forall well_formed)). intros t. apply (proj2 Hw).
  - intros detections Hd. apply finishes_ret. by rewrite rebuild_detections.
Qed.

Lemma corner_points_two (cs : list (list num)) :
  Forall (fun c => length c = 2) cs → ∃ points, corner_points cs = Normal points.
Proof.
  induction 1 as [|c cs Hc Hcs (points & IH)]; [by exists []|].
  destruct c as [|x [|y [|z c]]]; try done.
  cbn [corner_points]. unfold corner_point. cbn [lookup list_lookup].
  rewrite IH. eauto.
Qed.

Lemma finishes_print_tags (tags : list (Detection num)) :
  Forall well_formed tags → finishes (print_tags tags) (fun _ => True).
Proof.
  intros Htags. unfold print_tags.
  apply (finishes_for_of _ _ _ well_formed).
  - by rewrite array_sort_perm.
  - intros [] tag [_ Htag]. destruct (corner_points_two _ Htag) as (points & ->).
    eapply finishes_bind; [by apply (finishes_ret _ (fun _ => True))|].
    intros ? _. apply finishes_log.
Qed.

Lemma well_formed_deltas (gt det : list (Detection num)) :
  Forall well_formed gt → Forall well_formed det →
  ∃ deltas, calculateDeltas gt det = Normal deltas.
Proof.
  intros Hgt Hdet. eexists. apply calculateDeltas_four_corners.
  - eapply Forall_impl; [exact Hgt | by intros ? []].
  - eapply Forall_impl; [exact Hdet | by intros ? []].
Qed.

Lemma finishes_process_file cfg dir tempDir quality pool arwFile :
  finishes (process_file w rev cfg dir tempDir quality pool arwFile) (fun _ => True).
Proof.
  unfold process_file, convertARWToPNG, convertARWToJPEG. cbv zeta.
  apply finishes_seq; [repeat (apply finishes_seq; [apply finishes_do_call|]);
                       apply finishes_do_call|].
  apply finishes_seq; [apply finishes_when, finishes_log|].
  eapply finishes_bind; [apply finishes_detectAprilTags|]. intros groundTruth Hgt.
  apply finishes_seq; [apply finishes_log|].
  apply finishes_seq.
  { apply finishes_when. apply finishes_seq; [apply finishes_log|].
    by apply finishes_print_tags. }
  apply finishes_seq; [repeat (apply finishes_seq; [apply finishes_do_call|]);
                       apply finishes_do_call|].
  apply finishes_seq; [apply finishes_when, finishes_log|].
  eapply finishes_bind; [apply finishes_detectAprilTags|]. intros detection Hdet.
  apply finishes_seq; [apply finishes_log|].
  apply finishes_seq.
  { apply finishes_when. apply finishes_seq; [apply finishes_log|].
    by apply finishes_print_tags. }
  destruct (well_formed_deltas _ _ Hgt Hdet) as (deltas & ->).
  eapply finishes_bind; [by apply (finishes_ret _ (fun _ => True))|]. intros ? _.
  apply finishes_seq.
  { apply finishes_when. apply finishes_seq; apply finishes_do_call. }
  by apply finishes_ret.
Qed.

Lemma finishes_process_quality cfg dir tempDir arwFiles acc quality :
  finishes (process_quality w rev cfg dir tempDir arwFiles acc quality) (fun _ => True).
Proof.
  unfold process_quality. destruct acc as [results scatter].
  apply finishes_seq; [apply finishes_log|].
  eapply finishes_bind.
  - apply (finishes_for_of _ _ _ (fun _ => True)); [by apply Forall_true|].
    intros. apply finishes_process_file.
  - intros pool _. destruct (calculateStats _). by apply finishes_ret.
Qed.

Lemma finishes_main_body cfg dir : finishes (main_body w rev cfg dir) (fun _ => True).
Proof.
  unfold main_body, createTempDir.
  eapply finishes_bind.
  { eapply finishes_bind; [apply finishes_ask|]. intros now _.
    apply finishes_seq; [apply finishes_do_call | by apply (finishes_ret _ (fun _ => True))]. }
  intros tempDir _.
  apply finishes_seq; [apply finishes_log|].
  eapply finishes_bind; [by apply (finishes_perform _ _ _ (fun _ => True))|].
  intros names _.
  apply finishes_seq; [apply finishes_log|].
  eapply (finishes_bind _ _ (fun _ => True)).
  { destruct (subset_applies _ _).
    - apply finishes_seq; [apply finishes_log | by apply finishes_ret].
    - by apply finishes_ret. }
  intros arwFiles _.
  eapply (finishes_bind _ _ (fun _ => True)).
  { apply (finishes_for_of _ _ _ (fun _ => True)); [by apply Forall_true|].
    intros. apply finishes_process_quality. }
  intros [results scatterData] _.
  apply finishes_seq; [apply finishes_text_lines|].
  apply finishes_seq.
  { apply (finishes_for_of _ _ _ (fun _ => True)); [by apply Forall_true|].
    intros. apply finishes_log. }
  apply finishes_seq.
  { destruct rev; [by apply finishes_ret|]. unfold saveTableToFile.
    apply finishes_seq; [apply finishes_do_call|].
    eapply finishes_bind; [apply finishes_ask|]. intros timestamp _.
    apply finishes_seq; [apply finishes_do_call | apply finishes_log]. }
  apply finishes_seq.
  { destruct (negb _); [apply finishes_do_call | apply finishes_log]. }
  destruct rev; [by apply finishes_ret|].
  apply finishes_when. unfold createScatterPlot.
  apply finishes_seq; [apply finishes_do_call|].
  apply finishes_seq; [apply finishes_do_call|].
  apply finishes_seq; [apply finishes_log|].
  apply finishes_try_catch, finishes_do_call.
Qed.

(** In a world where no call throws and the detections are well
    formed, a script that finds its directory runs to its end. *)
Lemma script_finishes (args : list string) :
  directory_given w args → finishes (script w rev args) (fun _ => True).
Proof.
  intros Hdir. unfold script.
  apply finishes_seq.
  { apply finishes_try_catch. apply finishes_seq; apply finishes_do_call. }
  assert (∀ cfg dir, finishes (do_call w NewDetector;; main w rev cfg dir)
                              (fun _ => True)) as Hmain.
  { intros cfg dir. apply finishes_seq; [apply finishes_do_call|].
    unfold main. apply finishes_seq; [apply finishes_text_lines|].
    apply finishes_try_catch, finishes_main_body. }
  intros t. rewrite run_bind. cbn [ask]. rewrite (Hdir t). cbn [negb].
  apply Hmain.
Qed.

End Progress.

(** *** The subset of the files *)

Section SubsetTheorems.
Context {num : Type} `{JSNumber num} (w : World num) (rev : revision).

Lemma first_word_parsed (args : list string) (env : option string) (arg0 : string)
    (N : integral) :
  nonFlagArgs args !! 0 = Some arg0 → parseInt arg0 = Some N →
  subsetSize (parse_arguments args env) = Some N.
Proof.
  intros Harg Hparse. unfold parse_arguments. cbn [subsetSize].
  destruct (nonFlagArgs args) as [|arg0' rest]; [done|].
  cbn in Harg. by injection Harg as ->.
Qed.

Lemma selected_files_positive (cfg : Config) (arwFiles : list string) (N : Z) :
  subsetSize cfg = Some (Integer N) → (0 < N)%Z →
  selected_files cfg arwFiles
  = if (N <? Z.of_nat (length arwFiles))%Z then take (Z.to_nat N) arwFiles else arwFiles.
Proof.
  intros Hsize Hpos. unfold selected_files, subset_applies. rewrite Hsize.
  assert ((N =? 0)%Z = false) as -> by lia.
  assert ((0 <? N)%Z = true) as -> by lia.
  cbn [negb andb]. by destruct (N <? _)%Z.
Qed.

(** A numeral is read as the nearest double, which changes nothing as
    long as the array of files has a length that is a safe integer, as
    every array has. *)
Lemma selected_files_numeral (cfg : Config) (arwFiles : list string) (N : positive) :
  subsetSize cfg = Some (number_of_integer (Zpos N)) →
  (Z.of_nat (length arwFiles) < 2 ^ 53)%Z →
  selected_files cfg arwFiles
  = if Pos.to_nat N <? length arwFiles then take (Pos.to_nat N) arwFiles else arwFiles.
Proof.
  intros Hsize Hlen.
  destruct (Z.lt_ge_cases (Z.pos N) (2 ^ 53)) as [Hsmall|Hlarge].
  - rewrite number_of_small_integer in Hsize by (by rewrite Z.abs_eq).
    rewrite (selected_files_positive cfg arwFiles (Z.pos N)) by done.
    change (Z.to_nat (Z.pos N)) with (Pos.to_nat N).
    destruct (Z.ltb_spec (Z.pos N) (Z.of_nat (length arwFiles)));
      destruct (Nat.ltb_spec (Pos.to_nat N) (length arwFiles)); try done; lia.
  - assert ((Pos.to_nat N <? length arwFiles) = false) as -> by (apply Nat.ltb_ge; lia).
    unfold selected_files, subset_applies. rewrite Hsize.
    destruct (number_of_large_integer _ Hlarge) as [-> | (m & -> & Hm)]; [done|].
    assert ((m <? Z.of_nat (length arwFiles))%Z = false) as -> by lia.
    by rewrite andb_false_r.
Qed.

(** What [parseInt] makes a positive integer of is the size of the
    subset. *)
Lemma parsed_subset_processed (args : list string) (arg0 : string) (N : Z) :
  nonFlagArgs args !! 0 = Some arg0 → parseInt arg0 = Some (Integer N) → (0 < N)%Z →
  ∃ (dir : string) (names : list string),
    let arwFiles := raw_files names in
    let chosen :=
      if (N <? Z.of_nat (length arwFiles))%Z
      then take (Z.to_nat N) arwFiles else arwFiles in
    conversions (script w rev args []).2 `prefix_of` plan w dir chosen
    ∧ ((script w rev args []).1 = Normal tt →
         Called (Readdir dir) (Names names) ∈ (script w rev args []).2
         ∧ conversions (script w rev args []).2 = plan w dir chosen).
Proof.
  intros Harg Hparse Hpos.
  destruct (script_converts w rev args [])
    as (es & Hes & env & names & _ & Hin & Hpre & Hfin).
  rewrite app_nil_l in Hes. rewrite Hes.
  exists (default "" (rawDir (parse_arguments args env))), names. cbn zeta.
  rewrite <- (selected_files_positive (parse_arguments args env) _ N)
    by eauto using first_word_parsed.
  split; [done|]. intros Hc. rewrite Hc in Hin, Hfin. auto.
Qed.

(** C8.  When the first positional word is the numeral of a positive
    integer N, the JPEG conversions of the run are, for each quality
    level in turn, the first N RAW files of the directory listing in
    listing order when N is below their number, and all of them
    otherwise: the same files at every level.  A run that is cut short
    has converted a beginning of that list; a run that reaches its end
    has converted all of it, from the listing that [readdir] returned;
    and the run does reach its end when the script finds its directory,
    no call throws and the detections are well formed.  The numeral is
    read as a double: the listing is taken to be an array whose length
    is a safe integer, as every array of the language is. *)
Theorem subset_processed (args : list string) (N : positive) :
  nonFlagArgs args !! 0 = Some (decimal N) →
  (∀ t path, (Z.of_nat (length (listing w t path)) < 2 ^ 53)%Z) →
  ∃ (dir : string) (names : list string),
    let arwFiles := raw_files names in
    let chosen :=
      if Pos.to_nat N <? length arwFiles
      then take (Pos.to_nat N) arwFiles else arwFiles in
    conversions (script w rev args []).2 `prefix_of` plan w dir chosen
    ∧ ((script w rev args []).1 = Normal tt →
         Called (Readdir dir) (Names names) ∈ (script w rev args []).2
         ∧ conversions (script w rev args []).2 = plan w dir chosen)
    ∧ (obliging w → directory_given w args → (script w rev args []).1 = Normal tt).
Proof.
  intros Harg Hbound.
  destruct (script_converts w rev args [])
    as (es & Hes & env & names & (t & Hnames) & Hin & Hpre & Hfin).
  rewrite app_nil_l in Hes.
  exists (default "" (rawDir (parse_arguments args env))), names. cbn zeta.
  rewrite <- (selected_files_numeral (parse_arguments args env) _ N).
  - rewrite Hes. split; [done|]. split.
    + intros Hc. rewrite Hc in Hin, Hfin. auto.
    + intros Hw Hdir.
      destruct (script_finishes w rev Hw args Hdir []) as ([] & t' & Hrun & _).
      by rewrite Hrun.
  - eauto using first_word_parsed, parseInt_decimal.
  - pose proof (List.filter_length_le
                  (fun file => endsWith (toLowerCase file) ".arw") names) as Hle.
    specialize (Hbound t (default "" (rawDir (parse_arguments args env)))).
    rewrite <- Hnames in Hbound. unfold raw_files. lia.
Qed.

End SubsetTheorems.

(** ** The theorems at work on the sample world *)

Lemma missing_markers_accumulated_sample :
  Sample.file_run = (Normal Sample.pool_after, Sample.file_run.2)
  ∧ ∃ groundTruth detection : list (Detection float),
      totalMissingMarkers Sample.pool_after = 0 + count_missing groundTruth detection
      ∧ (NoDup (tag_id <$> groundTruth) →
           count_missing groundTruth detection
           = size (id_set groundTruth) - size (id_set groundTruth ∩ id_set detection)).
Proof.
  assert (Sample.file_run = (Normal Sample.pool_after, Sample.file_run.2)) as Hrun
    by (vm_compute; reflexivity).
  split; [exact Hrun|].
  destruct (missing_markers_accumulated Sample.world WithPlot _ _ _ _ _ _ _ _ _ Hrun)
    as (groundTruth & detection & deltas & es & _ & _ & _ & Htotal & _ & _ & _ & _ & Hsets).
  exists groundTruth, detection. split; [exact Htotal|].
  intros Hnd. by destruct (Hsets Hnd).
Defined.

Lemma failed_unlink_aborts_run_sample :
  let run := script Sample.world_without_unlink WithPlot Sample.args [] in
  run.2 = take 30 run.2
          ++ Called (Unlink "/tmp/apriltag-quality-1700000000000/a_gt.png")
                    (Failed (ExternalError "EACCES: permission denied"))
          :: drop 31 run.2
  ∧ drop 31 run.2 = [LogError (ErrorLine (ExternalError "EACCES: permission denied"))]
  ∧ run.1 = Exit 1.
Proof.
  intros run.
  assert (run.2 = take 30 run.2
                  ++ Called (Unlink "/tmp/apriltag-quality-1700000000000/a_gt.png")
                            (Failed (ExternalError "EACCES: permission denied"))
                  :: drop 31 run.2) as Htrace by (vm_compute; reflexivity).
  split; [exact Htrace|].
  destruct (failed_unlink_aborts_run Sample.world_without_unlink WithPlot Sample.args
              _ _ _ _ Htrace) as (Hafter & Hexit & _).
  by split.
Defined.

(** C6, the claim as stated.  In a world where no file can be deleted,
    with two RAW files in the directory, the run stops at the first
    deletion: the process exits with status 1 after one of the eighteen
    conversions, the last thing it prints is the error, and no row of
    the summary is printed. *)
Lemma failed_unlink_stops_sample_run :
  let run := script Sample.world_without_unlink WithPlot Sample.args [] in
  run.1 = Exit 1
  ∧ last run.2 = Some (LogError (ErrorLine (ExternalError "EACCES: permission denied")))
  ∧ conversions run.2 = [("/data/raw/a.ARW", 0.1%Q)]
  ∧ length (plan Sample.world "/data/raw" ["a.ARW"; "b.arw"]) = 18
  ∧ existsb Sample.is_table_row run.2 = false.
Proof. vm_compute. repeat split. Qed.

Lemma no_source_directory_sample :
  (length (nonFlagArgs ["5"; "--preserve"]) ≤ 1
   ∧ ∀ t, truthy (RAW_DIR Sample.world t) = false)
  ∧ ∃ loading,
      script Sample.world WithPlot ["5"; "--preserve"] []
      = (Exit 1,
         loading
         ++ [ LogError (Text "Error: No RAW directory specified.");
              LogError (Text "Please provide a directory path as the second argument or set RAW_DIR in .env.local") ])
      ∧ Forall env_loading loading.
Proof.
  assert (length (nonFlagArgs ["5"; "--preserve"]) ≤ 1) as Hargs by (vm_compute; lia).
  assert (∀ t, truthy (RAW_DIR Sample.world t) = false) as Henv by reflexivity.
  split; [by split|].
  destruct (no_source_directory Sample.world WithPlot ["5"; "--preserve"] Hargs Henv)
    as (loading & Hrun & Hloading & _).
  by exists loading.
Defined.

(** In the sample world nothing goes wrong. *)
Lemma sample_world_obliging : obliging Sample.world.
Proof.
  split; [reflexivity|]. intros t path. cbn [detected Sample.world].
  destruct (endsWith path "_gt.png"); apply sample_well_formed.
Qed.

Lemma subset_processed_sample :
  let args := ["1"; "/data/raw"] in
  let run := script Sample.world WithPlot args [] in
  (nonFlagArgs args !! 0 = Some (decimal 1)
   ∧ ∀ t path, (Z.of_nat (length (listing Sample.world t path)) < 2 ^ 53)%Z)
  ∧ (obliging Sample.world ∧ directory_given Sample.world args)
  ∧ run.1 = Normal tt
  ∧ (∃ (dir : string) (names : list string),
       let arwFiles := raw_files names in
       let chosen := if 1 <? length arwFiles then take 1 arwFiles else arwFiles in
       Called (Readdir dir) (Names names) ∈ run.2
       ∧ conversions run.2 = plan Sample.world dir chosen)
  ∧ conversions run.2 = plan Sample.world "/data/raw" ["a.ARW"]
  ∧ length (conversions run.2) = 9.
Proof.
  intros args run.
  assert (nonFlagArgs args !! 0 = Some (decimal 1)) as Harg by reflexivity.
  assert (∀ t path, (Z.of_nat (length (listing Sample.world t path)) < 2 ^ 53)%Z)
    as Hbound by (intros; reflexivity).
  pose proof sample_world_obliging as Hw.
  assert (directory_given Sample.world args) as Hdir by (intros t; reflexivity).
  destruct (subset_processed Sample.world WithPlot args 1 Harg Hbound)
    as (dir & names & _ & Hfin & Hrun).
  specialize (Hrun Hw Hdir).
  split; [by split|]. split; [by split|]. split; [exact Hrun|].
  split; [exists dir, names; exact (Hfin Hrun)|].
  vm_compute. by split.
Defined.

(** On the sample world the first of the two RAW files is converted at
    each of the nine levels, and nothing else. *)
Example subset_of_one :
  let run := script Sample.world WithPlot ["1"; "/data/raw"] [] in
  run.1 = Normal tt
  ∧ conversions run.2 = plan Sample.world "/data/raw" ["a.ARW"]
  ∧ raw_files ["a.ARW"; "notes.txt"; "b.arw"] = ["a.ARW"; "b.arw"].
Proof. vm_compute. repeat split. Qed.

(** * Further properties *)

#[local] Set Warnings "-clear-no-such-hyp".

(** ** More on the delta calculator *)

Section DeltaClosedForm.
Context {num : Type} `{JSNumber num}.
Implicit Types (gt det : list (Detection num)) (g d : Detection num).

Lemma calculateDeltas_loop_closed det gt acc :
  for_of gt (fun deltas gtTag =>
    match find_by_id det (tag_id gtTag) with
    | Some detTag =>
        for_of (seq 0 4) (fun deltas i =>
          delta ← calculateCornerDistance (corners gtTag !! i) (corners detTag !! i);
          Normal (deltas ++ [delta])) deltas
    | None => Normal deltas
    end) acc
  = if forallb (comparable det) gt
    then Normal (acc ++ concat (marker_deltas det <$> gt))
    else Throw (TypeError "Cannot read properties of undefined").
Proof.
  revert acc. induction gt as [|g gt IH]; intros acc.
  - cbn. by rewrite app_nil_r.
  - rewrite for_of_cons, fmap_cons. cbn [concat forallb].
    unfold comparable at 1, marker_deltas at 1.
    destruct (find_by_id det (tag_id g)) as [d|].
    + rewrite corner_loop. destruct (_ && _); [|done].
      rewrite completion_bind_normal, IH. cbn [andb]. by rewrite app_assoc.
    + rewrite completion_bind_normal, IH. done.
Qed.

Lemma calculateDeltas_closed gt det :
  calculateDeltas gt det
  = if forallb (comparable det) gt
    then Normal (concat (marker_deltas det <$> gt))
    else Throw (TypeError "Cannot read properties of undefined").
Proof. apply (calculateDeltas_loop_closed det gt []). Qed.

Lemma find_by_id_app det1 det2 (i : Z) :
  find_by_id (det1 ++ det2) i
  = match find_by_id det1 i with
    | Some d => Some d
    | None => find_by_id det2 i
    end.
Proof.
  unfold find_by_id. induction det1 as [|d det1 IH]; [done|].
  cbn. by destruct (tag_id d =? i)%Z.
Qed.

Lemma marker_deltas_block_length det g :
  comparable det g = true →
  length (marker_deltas det g) = if decide (tag_id g ∈ id_set det) then 4 else 0.
Proof.
  unfold comparable, marker_deltas.
  destruct (find_by_id det (tag_id g)) as [d|] eqn:Hf.
  - intros [Hg Hd]%andb_prop. apply Nat.leb_le in Hg, Hd.
    rewrite length_zip_with, !length_take.
    destruct (decide _) as [|Hno]; [lia|].
    apply find_by_id_None in Hno. congruence.
  - intros _. apply find_by_id_None in Hf. by destruct (decide _).
Qed.

(** X1.  [calculateDeltas] raises a TypeError exactly when some
    reference marker has a match and one of the two has fewer than four
    corners; a reference marker without a match is never read, whatever
    its shape.  Otherwise it returns, in reference order, the blocks of
    the first four corners; corners beyond the fourth are ignored. *)
Theorem calculateDeltas_raises_or_returns gt det :
  (calculateDeltas gt det = Throw (TypeError "Cannot read properties of undefined")
   ↔ ∃ g d, g ∈ gt ∧ find_by_id det (tag_id g) = Some d
            ∧ (length (corners g) < 4 ∨ length (corners d) < 4))
  ∧ (calculateDeltas gt det = Normal (concat (marker_deltas det <$> gt))
     ↔ ∀ g d, g ∈ gt → find_by_id det (tag_id g) = Some d →
              4 ≤ length (corners g) ∧ 4 ≤ length (corners d))
  ∧ ((∃ e, calculateDeltas gt det = Throw e)
     ∨ calculateDeltas gt det = Normal (concat (marker_deltas det <$> gt))).
Proof.
  rewrite calculateDeltas_closed.
  destruct (forallb (comparable det) gt) eqn:Hall.
  - rewrite forallb_forall in Hall.
    assert (∀ g d, g ∈ gt → find_by_id det (tag_id g) = Some d →
                   4 ≤ length (corners g) ∧ 4 ≤ length (corners d)) as Hok.
    { intros g d Hg Hf. apply list_elem_of_In, Hall in Hg.
      unfold comparable in Hg. rewrite Hf in Hg.
      apply andb_prop in Hg as [Hg Hd]. by apply Nat.leb_le in Hg, Hd. }
    split; [|split; [done | by right]].
    split; [done|]. intros (g & d & Hg & Hf & Hshort).
    destruct (Hok g d Hg Hf). lia.
  - assert (∃ g d, g ∈ gt ∧ find_by_id det (tag_id g) = Some d
                   ∧ (length (corners g) < 4 ∨ length (corners d) < 4)) as Hbad.
    { apply not_true_iff_false in Hall. rewrite forallb_forall in Hall.
      induction gt as [|g gt IH].
      - exfalso. apply Hall. intros x [].
      - destruct (comparable det g) eqn:Hg.
        + destruct IH as (g' & d & Hin & Hrest).
          { intros Hgt. apply Hall. intros x [<-|Hx]; auto. }
          exists g', d. split; [by right | done].
        + unfold comparable in Hg.
          destruct (find_by_id det (tag_id g)) as [d|] eqn:Hf; [|done].
          exists g, d. split; [by left|]. split; [done|].
          apply andb_false_iff in Hg as [Hg|Hg]; apply Nat.leb_gt in Hg; lia. }
    split; [done|]. split; [|left; eauto].
    split; [done|]. intros Hok. destruct Hbad as (g & d & Hg & Hf & Hshort).
    destruct (Hok g d Hg Hf). lia.
Qed.

(** X2.  Going through the reference markers in two parts gives the
    deltas of the first part followed by those of the second; if either
    part raises, so does the whole. *)
Theorem calculateDeltas_app gt1 gt2 det :
  calculateDeltas (gt1 ++ gt2) det
  = d1 ← calculateDeltas gt1 det; d2 ← calculateDeltas gt2 det; Normal (d1 ++ d2).
Proof.
  rewrite !calculateDeltas_closed, forallb_app, fmap_app, concat_app.
  destruct (forallb (comparable det) gt1); [|done]. cbn [andb].
  rewrite completion_bind_normal.
  by destruct (forallb (comparable det) gt2).
Qed.

(** X3.  Only the first comparison marker with a given identifier
    counts.  A comparison marker whose identifier already occurs
    earlier in the comparison set, or does not occur in the reference
    set, changes nothing: neither the deltas nor whether a TypeError is
    raised. *)
Theorem calculateDeltas_first_match gt det1 d det2 :
  tag_id d ∈ id_set det1 ∨ tag_id d ∉ id_set gt →
  calculateDeltas gt (det1 ++ d :: det2) = calculateDeltas gt (det1 ++ det2).
Proof.
  intros Hd.
  assert (∀ g, g ∈ gt →
            find_by_id (det1 ++ d :: det2) (tag_id g)
            = find_by_id (det1 ++ det2) (tag_id g)) as Hfind.
  { intros g Hg. rewrite !find_by_id_app.
    destruct (find_by_id det1 (tag_id g)) as [d1|] eqn:Hf1; [done|].
    unfold find_by_id at 1. cbn [find].
    destruct (Z.eqb_spec (tag_id d) (tag_id g)) as [Heq|Hne]; [|done].
    exfalso. destruct Hd as [Hin|Hout].
    - apply find_by_id_None in Hf1. by rewrite Heq in Hin.
    - apply Hout. rewrite Heq. unfold id_set.
      apply elem_of_list_to_set, list_elem_of_fmap. eauto. }
  rewrite !calculateDeltas_closed.
  assert (∀ l, (∀ g, g ∈ l → g ∈ gt) →
            forallb (comparable (det1 ++ d :: det2)) l
            = forallb (comparable (det1 ++ det2)) l
            ∧ concat (marker_deltas (det1 ++ d :: det2) <$> l)
              = concat (marker_deltas (det1 ++ det2) <$> l)) as Hgen.
  { induction l as [|g l IH]; intros Hsub; [done|].
    destruct IH as [IH1 IH2]; [intros; apply Hsub; by right|].
    rewrite !fmap_cons. cbn [forallb concat].
    unfold comparable at 1 3, marker_deltas at 1 3.
    rewrite Hfind by (apply Hsub; left). by rewrite IH1, IH2. }
  destruct (Hgen gt) as [-> ->]; auto.
Qed.

(** X4.  Whenever [calculateDeltas] returns, every reference marker
    either contributes four deltas or is counted as missing by the
    driver: the number of deltas plus four times the missing count is
    four times the number of reference markers, also when identifiers
    repeat. *)
Theorem deltas_and_missing_markers gt det deltas :
  calculateDeltas gt det = Normal deltas →
  length deltas + 4 * count_missing gt det = 4 * length gt.
Proof.
  rewrite calculateDeltas_closed.
  destruct (forallb (comparable det) gt) eqn:Hall; [|done].
  intros [= <-]. rewrite forallb_forall in Hall.
  pose proof (count_missing_complement gt det) as Hsum.
  assert (length (concat (marker_deltas det <$> gt))
          = 4 * length (filter (fun i => i ∈ id_set det) (tag_id <$> gt))) as Hlen.
  { clear Hsum. induction gt as [|g gt IH]; [done|].
    rewrite !fmap_cons. cbn [concat]. rewrite length_app, filter_cons.
    rewrite marker_deltas_block_length by (apply Hall; by left).
    rewrite IH by (intros x Hx; apply Hall; by right).
    destruct (decide (tag_id g ∈ id_set det)); cbn [length]; lia. }
  lia.
Qed.

End DeltaClosedForm.

Section MissingMarkers.
Context {num : Type} `{JSNumber num}.
Implicit Types (gt det : list (Detection num)) (g d : Detection num).

Lemma count_missing_cons g gt det :
  count_missing (g :: gt) det
  = (if decide (tag_id g ∈ id_set det) then 0 else 1) + count_missing gt det.
Proof.
  unfold count_missing. rewrite filter_cons.
  destruct (decide (tag_id g ∉ id_set det)), (decide (tag_id g ∈ id_set det));
    try tauto; done.
Qed.

Lemma id_set_cons g gt : id_set (g :: gt) = {[ tag_id g ]} ∪ id_set gt.
Proof. reflexivity. Qed.

Lemma count_missing_le gt det : count_missing gt det ≤ length gt.
Proof. pose proof (count_missing_complement gt det). lia. Qed.

Lemma count_missing_zero gt det : count_missing gt det = 0 ↔ id_set gt ⊆ id_set det.
Proof.
  induction gt as [|g gt IH]; [by split; [intros _ i Hi|]|].
  rewrite count_missing_cons, id_set_cons.
  destruct (decide (tag_id g ∈ id_set det)) as [Hin|Hout].
  - rewrite Nat.add_0_l, IH. set_solver.
  - split; [lia | set_solver].
Qed.

Lemma count_missing_all gt det :
  count_missing gt det = length gt ↔ id_set gt ## id_set det.
Proof.
  induction gt as [|g gt IH]; [by split; [set_solver|]|].
  rewrite count_missing_cons, id_set_cons. cbn [length].
  pose proof (count_missing_le gt det).
  destruct (decide (tag_id g ∈ id_set det)) as [Hin|Hout].
  - split; [lia | set_solver].
  - assert (1 + count_missing gt det = S (length gt)
            ↔ count_missing gt det = length gt) as -> by lia.
    rewrite IH. set_solver.
Qed.

Lemma count_missing_mono gt det det' :
  id_set det ⊆ id_set det' → count_missing gt det' ≤ count_missing gt det.
Proof.
  intros Hsub. induction gt as [|g gt IH]; [done|].
  rewrite !count_missing_cons.
  destruct (decide (tag_id g ∈ id_set det)), (decide (tag_id g ∈ id_set det'));
    try lia. set_solver.
Qed.

(** X5.  The missing count is at most the number of reference markers;
    it is zero exactly when every reference identifier is also among
    the comparison identifiers, and it is the number of reference
    markers exactly when the two sets share no identifier (so for an
    empty comparison set); more comparison markers never raise it. *)
Theorem count_missing_range gt det :
  count_missing gt det ≤ length gt
  ∧ (count_missing gt det = 0 ↔ id_set gt ⊆ id_set det)
  ∧ (count_missing gt det = length gt ↔ id_set gt ## id_set det)
  ∧ count_missing gt [] = length gt
  ∧ count_missing gt gt = 0
  ∧ (∀ det', id_set det ⊆ id_set det' → count_missing gt det' ≤ count_missing gt det).
Proof.
  split; [apply count_missing_le|]. split; [apply count_missing_zero|].
  split; [apply count_missing_all|].
  split; [apply count_missing_all; set_solver|].
  split; [by apply count_missing_zero|].
  intros det'. apply count_missing_mono.
Qed.

End MissingMarkers.

(** ** More on the statistics, in exact arithmetic *)

Section ExactOrder.
#[local] Open Scope R_scope.

Lemma ascending_first_last (s : list R) (x : R) :
  StronglySorted Rle s → x ∈ s → nth 0 s 0 <= x <= nth (length s - 1) s 0.
Proof.
  intros Hs Hx. pose proof (ascending_bounds s Hs) as Hb.
  rewrite Forall_forall in Hb. by apply Hb.
Qed.

Lemma extremes_exact (d : R) (ds : list R) :
  ∃ lo hi : R,
    min (calculateStats (XReal <$> d :: ds)).1 = XReal lo
    ∧ max (calculateStats (XReal <$> d :: ds)).1 = XReal hi
    ∧ lo ∈ d :: ds ∧ hi ∈ d :: ds
    ∧ Forall (fun x => lo <= x <= hi) (d :: ds).
Proof.
  rewrite calculateStats_real. cbn [fst min max].
  set (s := array_sort after_real (d :: ds)).
  assert (s ≡ₚ d :: ds) as Hp by apply array_sort_perm.
  assert (length s = S (length ds)) as Hn by (by rewrite Hp).
  pose proof (array_sort_ascending (d :: ds)) as Hs. fold s in Hs.
  eexists _, _. split; [reflexivity|]. split; [reflexivity|].
  split; [|split].
  - rewrite <- Hp. apply list_elem_of_In, nth_In. lia.
  - rewrite <- Hp. apply list_elem_of_In, nth_In. lia.
  - apply Forall_forall. intros x Hx. rewrite <- Hp in Hx.
    by apply ascending_first_last.
Qed.

End ExactOrder.

(** ** The arithmetic of IEEE numbers: signs and NaN *)

Section Binary64Signs.
#[local] Open Scope Z_scope.

Lemma plus_unsigned (x : spec_float) : plus_sf x = true → unsigned_sf x = true.
Proof. by destruct x. Qed.

Lemma unsigned_spec (x : spec_float) :
  SFltb x (S754_zero false) = negb (unsigned_sf x).
Proof. destruct x as [s|s| |s m e]; try done; by destruct s. Qed.

Lemma not_negative_spec (x : float) : not_negative x ↔ unsigned_sf (Prim2SF x) = true.
Proof.
  unfold not_negative. rewrite FloatAxioms.ltb_spec.
  change (Prim2SF 0) with (S754_zero false). rewrite unsigned_spec.
  by destruct (unsigned_sf _).
Qed.

Lemma binary_round_aux_plus (m e : Z) (l : location) :
  plus_sf (binary_round_aux prec emax false m e l) = true.
Proof.
  unfold binary_round_aux.
  destruct (shr_fexp prec emax m e l) as [mrs' e'].
  destruct (shr_fexp prec emax _ e' loc_Exact) as [mrs'' e''].
  destruct (shr_m mrs'') as [|m''|m'']; try done.
  by destruct (e'' <=? emax - prec).
Qed.

Lemma binary_normalize_plus (D e : Z) :
  0 <= D → plus_sf (binary_normalize prec emax D e false) = true.
Proof.
  intros HD. destruct D as [|m|m]; [done| |lia].
  cbn [binary_normalize]. unfold binary_round.
  destruct (shl_align m e _) as [mz ez]. apply binary_round_aux_plus.
Qed.

Lemma SFadd_unsigned (x y : spec_float) :
  unsigned_sf x = true → unsigned_sf y = true →
  unsigned_sf (SFadd prec emax x y) = true.
Proof.
  destruct x as [sx|sx| |sx mx ex], y as [sy|sy| |sy my ey]; cbn [unsigned_sf];
    try done; try (by destruct sx, sy).
  intros ->%negb_true_iff ->%negb_true_iff. unfold SFadd. cbv zeta.
  apply plus_unsigned, binary_normalize_plus. cbn [cond_Zopp]. lia.
Qed.

Lemma SFsqrt_unsigned (x : spec_float) : unsigned_sf (SFsqrt prec emax x) = true.
Proof.
  destruct x as [s|[]| |[] m e]; try done. unfold SFsqrt.
  destruct (SFsqrt_core_binary prec emax (Z.pos m) e) as [[mz ez] lz].
  apply plus_unsigned, binary_round_aux_plus.
Qed.

Lemma SFdiv_unsigned (x y : spec_float) :
  unsigned_sf x = true → plus_sf y = true →
  unsigned_sf (SFdiv prec emax x y) = true.
Proof.
  destruct x as [sx|sx| |sx mx ex], y as [sy|sy| |sy my ey];
    cbn [unsigned_sf plus_sf]; try done;
    try (intros _ ->%negb_true_iff; by destruct sx);
    try (intros ->%negb_true_iff ->%negb_true_iff; done);
    try (intros ->%negb_true_iff _; done).
  intros ->%negb_true_iff ->%negb_true_iff. unfold SFdiv.
  destruct (SFdiv_core_binary prec emax (Z.pos mx) ex (Z.pos my) ey) as [[mz ez] lz].
  apply plus_unsigned, binary_round_aux_plus.
Qed.

Lemma is_nan_spec (x : float) : PrimFloat.is_nan x = true ↔ Prim2SF x = S754_nan.
Proof.
  unfold PrimFloat.is_nan. rewrite FloatAxioms.eqb_spec. unfold SFeqb.
  destruct (Prim2SF x) as [s|s| |s m e]; cbn [SFcompare negb]; try done;
    try (by destruct s).
  change (Pos.compare_cont Eq m m) with (Pos.compare m m).
  rewrite Z.compare_refl, Pos.compare_refl. by destruct s.
Qed.

End Binary64Signs.

Section IEEENumbers.
#[local] Open Scope float_scope.

Lemma add_not_negative (x y : float) :
  not_negative x → not_negative y → not_negative (x + y).
Proof.
  rewrite !not_negative_spec, FloatAxioms.add_spec. apply SFadd_unsigned.
Qed.

Lemma sqrt_not_negative (x : float) : not_negative (PrimFloat.sqrt x).
Proof. rewrite not_negative_spec, FloatAxioms.sqrt_spec. apply SFsqrt_unsigned. Qed.

Lemma div_not_negative (x y : float) :
  not_negative x → plus_sf (Prim2SF y) = true → not_negative (x / y).
Proof.
  rewrite !not_negative_spec, FloatAxioms.div_spec. apply SFdiv_unsigned.
Qed.

Lemma of_length_plus (n : nat) : plus_sf (Prim2SF (IEEE.of_length n)) = true.
Proof.
  unfold IEEE.of_length. rewrite FloatAxioms.of_uint63_spec.
  apply binary_normalize_plus, Uint63.to_Z_bounded.
Qed.

Lemma sub_nan (x y : float) :
  PrimFloat.is_nan x = true ∨ PrimFloat.is_nan y = true →
  PrimFloat.is_nan (x - y) = true.
Proof.
  rewrite !is_nan_spec, FloatAxioms.sub_spec. unfold SF64sub.
  intros [->| ->]; [done|]. by destruct (Prim2SF x).
Qed.

Lemma add_nan (x y : float) :
  PrimFloat.is_nan x = true ∨ PrimFloat.is_nan y = true →
  PrimFloat.is_nan (x + y) = true.
Proof.
  rewrite !is_nan_spec, FloatAxioms.add_spec. unfold SF64add.
  intros [->| ->]; [done|]. by destruct (Prim2SF x).
Qed.

Lemma mul_nan (x y : float) :
  PrimFloat.is_nan x = true ∨ PrimFloat.is_nan y = true →
  PrimFloat.is_nan (x * y) = true.
Proof.
  rewrite !is_nan_spec, FloatAxioms.mul_spec. unfold SF64mul.
  intros [->| ->]; [done|]. by destruct (Prim2SF x).
Qed.

Lemma div_nan (x y : float) :
  PrimFloat.is_nan x = true → PrimFloat.is_nan (x / y) = true.
Proof.
  rewrite !is_nan_spec, FloatAxioms.div_spec. unfold SF64div. by intros ->.
Qed.

Lemma sqrt_nan (x : float) :
  PrimFloat.is_nan x = true → PrimFloat.is_nan (PrimFloat.sqrt x) = true.
Proof.
  rewrite !is_nan_spec, FloatAxioms.sqrt_spec. unfold SF64sqrt. by intros ->.
Qed.

Lemma finite_spec (x : float) :
  PrimFloat.is_finite x = true →
  ∃ s, Prim2SF x = S754_zero s ∨ ∃ m e, Prim2SF x = S754_finite s m e.
Proof.
  unfold PrimFloat.is_finite, PrimFloat.is_infinity.
  rewrite negb_true_iff, orb_false_iff. intros [Hnan Hinf].
  assert (Prim2SF x ≠ S754_nan) as Hnan'.
  { intros Hx. apply is_nan_spec in Hx. congruence. }
  rewrite FloatAxioms.eqb_spec, FloatAxioms.abs_spec in Hinf.
  change (Prim2SF infinity) with (S754_infinity false) in Hinf.
  destruct (Prim2SF x) as [s|s| |s m e]; try done; eauto.
Qed.

(** A finite number minus itself is zero, exactly. *)
Lemma sub_diag (x : float) : PrimFloat.is_finite x = true → x - x = 0.
Proof.
  intros Hx. apply Prim2SF_inj. rewrite FloatAxioms.sub_spec.
  change (Prim2SF 0) with (S754_zero false).
  destruct (finite_spec x Hx) as [s [-> | (m & e & ->)]].
  - by destruct s.
  - unfold SF64sub, SFsub. cbv zeta. by rewrite Z.sub_diag.
Qed.

Lemma at_most_refl (x : float) : PrimFloat.is_nan x = false → at_most x x.
Proof.
  unfold at_most, PrimFloat.is_nan.
  rewrite FloatAxioms.eqb_spec, FloatAxioms.leb_spec. unfold SFeqb, SFleb.
  by destruct (SFcompare _ _) as [[]|].
Qed.

End IEEENumbers.

Section SortedLists.
Context {A : Type} (R : A → A → Prop).

Lemma sorted_nth (s : list A) (i j : nat) (d : A) :
  StronglySorted R s → i < j → j < length s → R (nth i s d) (nth j s d).
Proof.
  intros Hs. revert i j. induction Hs as [|x s Hs IH Hx]; intros i j Hij Hj.
  - cbn in Hj. lia.
  - destruct j as [|j]; [lia|]. destruct i as [|i].
    + cbn [nth]. rewrite Forall_forall in Hx. apply Hx.
      apply list_elem_of_In, nth_In. cbn in Hj. lia.
    + cbn [nth]. apply IH; cbn in Hj; lia.
Qed.

Lemma sorted_first_last (s : list A) (x d : A) :
  (∀ y, y ∈ s → R y y) → StronglySorted R s → x ∈ s →
  R (nth 0 s d) x ∧ R x (nth (length s - 1) s d).
Proof.
  intros Hrefl Hs Hx. pose proof Hx as Hx'.
  apply list_elem_of_In, (In_nth _ _ d) in Hx as (i & Hi & <-).
  split.
  - destruct i as [|i]; [by apply Hrefl | apply sorted_nth; [done | lia | done]].
  - destruct (decide (i = length s - 1)) as [->|Hne]; [by apply Hrefl|].
    apply sorted_nth; [done | lia | lia].
Qed.

End SortedLists.

(** ** Deltas and statistics on IEEE numbers *)

Section IEEEDeltaTheorems.
#[local] Open Scope float_scope.
Implicit Types (gt det : list (Detection float)) (g d : Detection float).

Lemma distance_not_negative (c1 c2 : list float) : not_negative (distance c1 c2).
Proof. apply sqrt_not_negative. Qed.

(** X9.  On IEEE numbers no delta is ever below zero: whatever the
    coordinates (infinite, NaN or missing ones included), every entry
    of the list that [calculateDeltas] returns is NaN or a number that
    is not negative. *)
Theorem deltas_never_negative gt det (deltas : list float) :
  calculateDeltas gt det = Normal deltas → Forall not_negative deltas.
Proof.
  intros ->%calculateDeltas_returns.
  apply Forall_concat, Forall_fmap, Forall_forall. intros g _. cbn.
  unfold marker_deltas. destruct (find_by_id det (tag_id g)) as [d|]; [|constructor].
  generalize (take 4 (corners g)) (take 4 (corners d)).
  induction l as [|c1 l IH]; intros [|c2 l']; cbn; try constructor.
  - apply distance_not_negative.
  - apply IH.
Qed.

Lemma nth_Forall {A : Type} (P : A → Prop) (l : list A) (i : nat) (d : A) :
  Forall P l → P d → P (nth i l d).
Proof.
  intros Hl Hd. destruct (decide (i < length l)%nat) as [Hi|Hi].
  - rewrite Forall_forall in Hl. apply Hl, list_elem_of_In, nth_In, Hi.
  - rewrite nth_overflow by lia. done.
Qed.

Lemma sum_not_negative (l : list float) (a : float) :
  not_negative a → Forall not_negative l → not_negative (fold_left PrimFloat.add l a).
Proof.
  intros Ha Hl. revert a Ha. induction Hl as [|x l Hx Hl IH]; intros a Ha; [done|].
  cbn. apply IH. by apply add_not_negative.
Qed.

(** X10.  On IEEE numbers, when no delta is below zero, none of the
    four statistics is: the summary table never shows a negative
    minimum, mean, median or maximum, whatever rounding does. *)
Theorem statistics_never_negative (deltas : list float) :
  Forall not_negative deltas →
  let stats := (calculateStats deltas).1 in
  not_negative (min stats) ∧ not_negative (mean stats)
  ∧ not_negative (median stats) ∧ not_negative (max stats).
Proof.
  intros Hd. destruct deltas as [|d ds]; [done|].
  rewrite calculateStats_ieee. cbn [fst min mean median max].
  set (s := array_sort by_difference (d :: ds)).
  assert (Forall not_negative s) as Hs by (unfold s; by rewrite array_sort_perm).
  assert (not_negative PrimFloat.nan) as Hnan by done.
  split; [by apply nth_Forall|]. split; [|split; [|by apply nth_Forall]].
  - apply div_not_negative; [by apply sum_not_negative | apply of_length_plus].
  - unfold median_of_sorted_ieee. destruct (Nat.even (length s)).
    + apply div_not_negative; [|done].
      apply add_not_negative; by apply nth_Forall.
    + by apply nth_Forall.
Qed.

Lemma element_short (c : list float) (k : nat) :
  (length c <= k)%nat → PrimFloat.is_nan (element c k) = true.
Proof. intros Hk. unfold element. by rewrite lookup_ge_None_2. Qed.

Lemma distance_nan (c1 c2 : list float) (k : nat) :
  (k < 2)%nat →
  PrimFloat.is_nan (element c1 k) = true ∨ PrimFloat.is_nan (element c2 k) = true →
  PrimFloat.is_nan (distance c1 c2) = true.
Proof.
  intros Hk Hnan. unfold distance. apply sqrt_nan, add_nan.
  destruct k as [|[|k]]; [left | right | lia]; apply mul_nan; left; by apply sub_nan.
Qed.

(** X11.  A coordinate that is missing or NaN does not raise: on two
    corners that exist, [calculateCornerDistance] returns, and the
    distance is NaN as soon as one of the four coordinates it reads is
    NaN or absent (a corner with fewer than two entries). *)
Theorem missing_coordinate_gives_nan (c1 c2 : list float) :
  calculateCornerDistance (Some c1) (Some c2) = Normal (distance c1 c2)
  ∧ ((length c1 < 2)%nat ∨ (length c2 < 2)%nat →
     PrimFloat.is_nan (distance c1 c2) = true)
  ∧ (∀ k, (k < 2)%nat →
       PrimFloat.is_nan (element c1 k) = true ∨ PrimFloat.is_nan (element c2 k) = true →
       PrimFloat.is_nan (distance c1 c2) = true).
Proof.
  split; [done|]. split; [|apply distance_nan].
  intros [Hc|Hc].
  - apply (distance_nan c1 c2 1); [lia|]. left. apply element_short. lia.
  - apply (distance_nan c1 c2 1); [lia|]. right. apply element_short. lia.
Qed.

Lemma sum_nan (l : list float) (a : float) :
  PrimFloat.is_nan a = true ∨ Exists (fun x => PrimFloat.is_nan x = true) l →
  PrimFloat.is_nan (fold_left PrimFloat.add l a) = true.
Proof.
  revert a. induction l as [|x l IH]; intros a [Ha|Hl]; cbn.
  - done.
  - by apply Exists_nil in Hl.
  - apply IH. left. apply add_nan. by left.
  - apply IH. apply Exists_cons in Hl as [Hx|Hl]; [|by right].
    left. apply add_nan. by right.
Qed.

(** X12.  One NaN among the deltas makes the mean NaN: the sum runs
    over the whole array, and nothing removes a NaN from it. *)
Theorem nan_delta_spoils_mean (deltas : list float) :
  Exists (fun x => PrimFloat.is_nan x = true) deltas →
  PrimFloat.is_nan (mean (calculateStats deltas).1) = true.
Proof.
  intros Hnan. destruct deltas as [|d ds]; [by apply Exists_nil in Hnan|].
  rewrite calculateStats_ieee. cbn [fst mean].
  apply div_nan, sum_nan. right.
  rewrite Exists_exists in *. destruct Hnan as (x & Hx & Hn).
  exists x. split; [|done]. by rewrite array_sort_perm.
Qed.

Lemma distance_diag (c : list float) :
  length c = 2%nat → finite_corner c → distance c c = 0.
Proof.
  destruct c as [|x [|y [|? ?]]]; try done. intros _ Hc.
  apply Forall_cons in Hc as [Hx Hc]. apply Forall_cons in Hc as [Hy _].
  unfold distance, element. cbn [lookup list_lookup default].
  change ((nsub x x)) with (x - x). change (nsub y y) with (y - y).
  by rewrite !sub_diag.
Qed.

Lemma zip_with_distance_diag (cs : list (list float)) :
  Forall (fun c => length c = 2%nat) cs → Forall finite_corner cs →
  zip_with distance cs cs = replicate (length cs) 0.
Proof.
  induction 1 as [|c cs Hc Hcs IH]; intros Hf; [done|].
  apply Forall_cons in Hf as [Hfc Hf]. cbn [zip_with length replicate].
  by rewrite distance_diag, IH.
Qed.

(** X13.  Comparing a set of detections with itself gives no
    difference at all: when every marker has four corners of two
    finite coordinates and the identifiers are unique, every delta is
    exactly 0, four per marker, and no marker is missing. *)
Theorem identical_sets_zero_deltas gt :
  Forall well_formed gt → Forall finite_corners gt → NoDup (tag_id <$> gt) →
  calculateDeltas gt gt = Normal (replicate (4 * length gt) 0)
  ∧ count_missing gt gt = 0%nat.
Proof.
  intros Hwf Hfin Hnd. split.
  - rewrite calculateDeltas_four_corners
      by (eapply Forall_impl; [exact Hwf | by intros ? [? _]]).
    f_equal.
    assert (∀ l, (∀ g, g ∈ l → g ∈ gt) →
              concat (marker_deltas gt <$> l) = replicate (4 * length l) 0) as Hgen.
    { induction l as [|g l IH]; intros Hsub; [done|].
      rewrite fmap_cons. cbn [concat length].
      rewrite IH by (intros; apply Hsub; by right).
      assert (g ∈ gt) as Hg by (apply Hsub; left).
      unfold marker_deltas. rewrite (find_by_id_unique gt g Hnd Hg).
      rewrite Forall_forall in Hwf, Hfin.
      destruct (Hwf g Hg) as [H4 H2]. specialize (Hfin g Hg).
      rewrite take_ge by lia.
      rewrite zip_with_distance_diag, H4 by done.
      replace (4 * S (length l))%nat with (4 + 4 * length l)%nat by lia.
      by rewrite replicate_add. }
    apply Hgen. auto.
  - by apply count_missing_zero.
Qed.

(** X14.  [min] and [max] are the least and the greatest delta: for a
    non-empty list of real deltas in exact arithmetic, and for a
    non-empty list of IEEE deltas none of which is NaN, both are
    elements of the list and every delta lies between them. *)
Theorem extremes_are_attained :
  (∀ (d : R) (ds : list R),
     ∃ lo hi : R,
       min (calculateStats (XReal <$> d :: ds)).1 = XReal lo
       ∧ max (calculateStats (XReal <$> d :: ds)).1 = XReal hi
       ∧ lo ∈ d :: ds ∧ hi ∈ d :: ds
       ∧ Forall (fun x => (lo <= x <= hi)%R) (d :: ds))
  ∧ (∀ (d : float) (ds : list float),
       numbers (d :: ds) →
       let stats := (calculateStats (d :: ds)).1 in
       min stats ∈ d :: ds ∧ max stats ∈ d :: ds
       ∧ Forall (fun x => at_most (min stats) x ∧ at_most x (max stats)) (d :: ds)).
Proof.
  split; [apply extremes_exact|].
  intros d ds Hn. rewrite calculateStats_ieee. cbn [fst min max].
  set (s := array_sort by_difference (d :: ds)).
  assert (s ≡ₚ d :: ds) as Hp by apply array_sort_perm.
  assert (length s = S (length ds)) as Hlen by (by rewrite Hp).
  pose proof (array_sort_ascending_ieee (d :: ds) Hn) as Hs. fold s in Hs.
  split; [|split].
  - rewrite <- Hp. apply list_elem_of_In, nth_In. lia.
  - rewrite <- Hp. apply list_elem_of_In, nth_In. lia.
  - apply Forall_forall. intros x Hx. rewrite <- Hp in Hx.
    apply sorted_first_last; [|done|done].
    intros y Hy. apply at_most_refl. rewrite Hp in Hy.
    unfold numbers in Hn. rewrite Forall_forall in Hn. by apply Hn.
Qed.

End IEEEDeltaTheorems.

(** ** The order of the statistics *)

Section OrderedStatistics.

(** C5, as amended.  In the arithmetic of the code, for every
    non-empty list of IEEE deltas none of which is NaN: [min] is at
    most [max], and every delta lies between them; for a list of odd
    length the median is one of the deltas, so min <= median <= max;
    for a list of even length the median is the rounded half of the
    rounded sum of two deltas a <= b that lie between [min] and [max].
    In exact arithmetic, for every non-empty list of real deltas, the
    four statistics are real numbers with min <= median <= max and
    min <= mean <= max. *)
Theorem stats_ordered :
  (∀ (d : float) (ds : list float),
     numbers (d :: ds) →
     let stats := (calculateStats (d :: ds)).1 in
     at_most (min stats) (max stats)
     ∧ Forall (fun x => at_most (min stats) x ∧ at_most x (max stats)) (d :: ds)
     ∧ (Nat.even (length (d :: ds)) = false →
        median stats ∈ d :: ds
        ∧ at_most (min stats) (median stats) ∧ at_most (median stats) (max stats))
     ∧ (Nat.even (length (d :: ds)) = true →
        ∃ a b : float,
          a ∈ d :: ds ∧ b ∈ d :: ds
          ∧ at_most (min stats) a ∧ at_most a b ∧ at_most b (max stats)
          ∧ median stats = ((a + b) / 2)%float))
  ∧ (∀ (d : R) (ds : list R),
       ∃ lo avg mid hi : R,
         (calculateStats (XReal <$> d :: ds)).1
         = {| min := XReal lo; mean := XReal avg; median := XReal mid; max := XReal hi |}
         ∧ (lo <= mid <= hi)%R ∧ (lo <= avg <= hi)%R).
Proof.
  split; [|apply stats_ordered_real].
  intros d ds Hn. cbv zeta.
  rewrite calculateStats_ieee. cbn [fst min max median].
  set (s := array_sort by_difference (d :: ds)).
  assert (s ≡ₚ d :: ds) as Hp by apply array_sort_perm.
  assert (length s = length (d :: ds)) as Hlen by (by rewrite Hp).
  assert (0 < length s) as Hpos by (rewrite Hlen; cbn; lia).
  pose proof (array_sort_ascending_ieee (d :: ds) Hn) as Hs. fold s in Hs.
  assert (∀ y, y ∈ s → at_most y y) as Hrefl.
  { intros y Hy. apply at_most_refl. rewrite Hp in Hy.
    unfold numbers in Hn. rewrite Forall_forall in Hn. by apply Hn. }
  assert (∀ i, i < length s → nth i s PrimFloat.nan ∈ s) as Hin.
  { intros i Hi. by apply list_elem_of_In, nth_In. }
  assert (∀ x, x ∈ s → at_most (nth 0 s PrimFloat.nan) x
                       ∧ at_most x (nth (length s - 1) s PrimFloat.nan)) as Hbounds.
  { intros x Hx. by apply sorted_first_last. }
  assert (length s / 2 < length s) as Hhalf by (apply Nat.div_lt; lia).
  split; [|split; [|split]].
  - apply Hbounds, Hin. lia.
  - apply Forall_forall. intros x Hx. rewrite <- Hp in Hx. by apply Hbounds.
  - intros Hodd. unfold median_of_sorted_ieee. rewrite Hlen, Hodd, <- Hlen.
    split; [rewrite <- Hp; by apply Hin | by apply Hbounds, Hin].
  - intros Heven. unfold median_of_sorted_ieee. rewrite Hlen, Heven, <- Hlen.
    assert (2 ≤ length s) as Htwo.
    { rewrite Hlen in *. destruct ds; [done | cbn; lia]. }
    assert (1 ≤ length s / 2) as Hmid by (apply Nat.div_le_lower_bound; lia).
    exists (nth (length s / 2 - 1) s PrimFloat.nan), (nth (length s / 2) s PrimFloat.nan).
    split; [rewrite <- Hp; apply Hin; lia|].
    split; [rewrite <- Hp; by apply Hin|].
    split; [apply Hbounds, Hin; lia|].
    split; [apply sorted_nth; [done | lia | done]|].
    split; [by apply Hbounds, Hin | done].
Qed.

End OrderedStatistics.

Section Binary64Symmetry.
#[local] Open Scope Z_scope.

Lemma xorb_diag (s : bool) : xorb s s = false.
Proof. by destruct s. Qed.

(** The square of a datum does not depend on its sign. *)
Lemma SFmul_square_opp (x : spec_float) :
  SFmul prec emax (SFopp x) (SFopp x) = SFmul prec emax x x.
Proof. destruct x as [s|s| |s m e]; try done; cbn; by rewrite !xorb_diag. Qed.

Lemma binary_round_aux_opp (m e : Z) (l : location) :
  binary_round_aux prec emax true m e l = SFopp (binary_round_aux prec emax false m e l).
Proof.
  unfold binary_round_aux.
  destruct (shr_fexp prec emax m e l) as [mrs' e'].
  destruct (shr_fexp prec emax _ e' loc_Exact) as [mrs'' e''].
  destruct (shr_m mrs'') as [|m''|m'']; try done.
  by destruct (e'' <=? emax - prec).
Qed.

Lemma binary_normalize_square (D e : Z) :
  SFmul prec emax (binary_normalize prec emax (- D) e false)
                  (binary_normalize prec emax (- D) e false)
  = SFmul prec emax (binary_normalize prec emax D e false)
                    (binary_normalize prec emax D e false).
Proof.
  destruct D as [|m|m]; [done| |].
  - change (- Z.pos m) with (Z.neg m). cbn [binary_normalize]. unfold binary_round.
    destruct (shl_align m e _) as [mz ez].
    by rewrite binary_round_aux_opp, SFmul_square_opp.
  - change (- Z.neg m) with (Z.pos m). cbn [binary_normalize]. unfold binary_round.
    destruct (shl_align m e _) as [mz ez].
    by rewrite binary_round_aux_opp, SFmul_square_opp.
Qed.

(** The square of a difference is the same whichever way round the
    difference is taken. *)
Lemma SFsub_square_swap (x y : spec_float) :
  SFmul prec emax (SFsub prec emax y x) (SFsub prec emax y x)
  = SFmul prec emax (SFsub prec emax x y) (SFsub prec emax x y).
Proof.
  destruct x as [sx|sx| |sx mx ex], y as [sy|sy| |sy my ey]; try done;
    try (by destruct sx, sy); try (by destruct sx); try (by destruct sy);
    try (cbn; by rewrite !xorb_diag).
  unfold SFsub. cbv zeta. rewrite (Z.min_comm ey ex).
  set (ez := Z.min ex ey).
  rewrite <- (binary_normalize_square
                (cond_Zopp sx (Z.pos (fst (shl_align mx ex ez)))
                 - cond_Zopp sy (Z.pos (fst (shl_align my ey ez))))).
  by rewrite Z.opp_sub_distr, Z.add_comm, Z.add_opp_r.
Qed.

End Binary64Symmetry.

Section IEEESymmetry.
#[local] Open Scope float_scope.

Lemma sub_square_swap (x y : float) : (y - x) * (y - x) = (x - y) * (x - y).
Proof.
  apply Prim2SF_inj. rewrite !FloatAxioms.mul_spec, !FloatAxioms.sub_spec.
  apply SFsub_square_swap.
Qed.

(** X15.  On IEEE numbers the corner distance is symmetric, bit for
    bit: rounding does not depend on which corner comes first, so
    comparing the JPEG detections against the reference or the
    reference against the JPEG detections gives the same distance for
    a pair of corners, whatever their coordinates. *)
Theorem corner_distance_symmetric (c1 c2 : list float) :
  distance c1 c2 = distance c2 c1
  ∧ calculateCornerDistance (Some c1) (Some c2)
    = calculateCornerDistance (Some c2) (Some c1).
Proof.
  assert (distance c1 c2 = distance c2 c1) as Hd.
  { unfold distance. cbn [nsub nmul nadd nsqrt ieee].
    by rewrite (sub_square_swap (element c1 0)), (sub_square_swap (element c1 1)). }
  split; [exact Hd|]. by rewrite !calculateCornerDistance_some, Hd.
Qed.

End IEEESymmetry.

(** ** The order in which the deltas are collected *)

Section Binary64Order.
#[local] Open Scope Z_scope.

Lemma SFmul_square_plus (x : spec_float) : plus_sf (SFmul prec emax x x) = true.
Proof.
  destruct x as [s|s| |s m e]; try done; cbn [SFmul]; rewrite xorb_diag; try done.
  apply binary_round_aux_plus.
Qed.

Lemma SFadd_plus (x y : spec_float) :
  plus_sf x = true → plus_sf y = true → plus_sf (SFadd prec emax x y) = true.
Proof.
  destruct x as [sx|sx| |sx mx ex], y as [sy|sy| |sy my ey]; cbn [plus_sf];
    try done; try (by destruct sx, sy).
  intros ->%negb_true_iff ->%negb_true_iff. unfold SFadd. cbv zeta.
  apply binary_normalize_plus. cbn [cond_Zopp]. lia.
Qed.

Lemma SFsqrt_plus (x : spec_float) :
  plus_sf x = true → plus_sf (SFsqrt prec emax x) = true.
Proof.
  destruct x as [s|[]| |[] m e]; try done. intros _. unfold SFsqrt.
  destruct (SFsqrt_core_binary prec emax (Z.pos m) e) as [[mz ez] lz].
  apply binary_round_aux_plus.
Qed.

(** Of two data that are not NaN and have their sign bit clear, each at
    most the other, there is only one. *)
Lemma SFleb_antisym (x y : spec_float) :
  plus_sf x = true → plus_sf y = true → x ≠ S754_nan → y ≠ S754_nan →
  SFleb x y = true → SFleb y x = true → x = y.
Proof.
  unfold SFleb.
  destruct x as [sx|sx| |sx mx ex], y as [sy|sy| |sy my ey]; cbn [plus_sf SFcompare];
    try done; intros ->%negb_true_iff ->%negb_true_iff _ _; try done.
  rewrite (Z.compare_antisym ex ey).
  change (Pos.compare_cont Eq mx my) with (Pos.compare mx my).
  change (Pos.compare_cont Eq my mx) with (Pos.compare my mx).
  rewrite (Pos.compare_antisym mx my).
  destruct (Z.compare_spec ex ey) as [->| |]; cbn [CompOpp]; try done.
  destruct (Pos.compare_spec mx my) as [->| |]; done.
Qed.

End Binary64Order.

Section IEEEOrder.
#[local] Open Scope float_scope.

Lemma unsigned_plus (x : float) :
  unsigned x ↔ plus_sf (Prim2SF x) = true ∧ PrimFloat.is_nan x = false.
Proof.
  unfold unsigned. rewrite FloatAxioms.leb_spec.
  change (Prim2SF 0) with (S754_zero false).
  split.
  - intros [Hle Hne].
    assert (Prim2SF x ≠ S754_zero true) as Hz.
    { intros Hx. apply Hne, Prim2SF_inj. by rewrite Hx. }
    split.
    + destruct (Prim2SF x) as [[]|[]| |[] m e]; done.
    + apply not_true_is_false. rewrite is_nan_spec. intros Hx. by rewrite Hx in Hle.
  - intros [Hp Hn]. split.
    + assert (Prim2SF x ≠ S754_nan) as Hx.
      { rewrite <- is_nan_spec. by rewrite Hn. }
      destruct (Prim2SF x) as [[]|[]| |[] m e]; done.
    + intros ->. done.
Qed.

Lemma at_most_antisym (x y : float) :
  unsigned x → unsigned y → at_most x y → at_most y x → x = y.
Proof.
  rewrite !unsigned_plus. unfold at_most. rewrite !FloatAxioms.leb_spec.
  intros [Hx Hnx] [Hy Hny] Hxy Hyx. apply Prim2SF_inj.
  apply SFleb_antisym; try done.
  - rewrite <- is_nan_spec. by rewrite Hnx.
  - rewrite <- is_nan_spec. by rewrite Hny.
Qed.

Lemma unsigned_number (x : float) : unsigned x → PrimFloat.is_nan x = false.
Proof. rewrite unsigned_plus. by intros []. Qed.

(** There is one ascending arrangement of such numbers. *)
Lemma ascending_unique (s1 s2 : list float) :
  Forall unsigned s1 →
  StronglySorted at_most s1 → StronglySorted at_most s2 → s1 ≡ₚ s2 → s1 = s2.
Proof.
  intros Hu Hs1. revert s2. induction Hs1 as [|x1 s1 Hs1 IH Hx1]; intros s2 Hs2 Hp.
  - by apply Permutation_nil in Hp.
  - destruct Hs2 as [|x2 s2 Hs2 Hx2].
    + symmetry in Hp. by apply Permutation_nil in Hp.
    + assert (Forall unsigned (x2 :: s2)) as Hu2 by (by rewrite <- Hp).
      apply Forall_cons in Hu as [Hu1 Hu]. apply Forall_cons in Hu2 as [Hu2 _].
      assert (x1 = x2) as ->.
      { assert (x1 ∈ x2 :: s2) as H1 by (rewrite <- Hp; left).
        assert (x2 ∈ x1 :: s1) as H2 by (rewrite Hp; left).
        rewrite Forall_forall in Hx1, Hx2.
        apply elem_of_cons in H1 as [->|H1]; [done|].
        apply elem_of_cons in H2 as [->|H2]; [done|].
        apply at_most_antisym; auto. }
      f_equal. apply IH; [done | done|]. by apply Permutation_cons_inv in Hp.
Qed.

Lemma distance_plus (c1 c2 : list float) :
  plus_sf (Prim2SF (distance c1 c2)) = true.
Proof.
  unfold distance. cbn [nsub nmul nadd nsqrt ieee].
  rewrite FloatAxioms.sqrt_spec, FloatAxioms.add_spec, !FloatAxioms.mul_spec.
  apply SFsqrt_plus, SFadd_plus; apply SFmul_square_plus.
Qed.

(** X7.  On IEEE numbers the statistics do not depend on the order in
    which the deltas were collected, bit for bit.  No delta that
    [calculateDeltas] returns is the negative zero: each is NaN, or a
    number that is zero or above with its sign bit clear.  And two
    lists of such numbers (none NaN) that are permutations of each
    other get the same four statistics and leave the same sorted
    array: the sum, too, is taken over the sorted array. *)
Theorem calculateStats_order_independent :
  (∀ (gt det : list (Detection float)) (deltas : list float),
     calculateDeltas gt det = Normal deltas →
     Forall (fun x => PrimFloat.is_nan x = true ∨ unsigned x) deltas)
  ∧ (∀ l1 l2 : list float,
       Forall unsigned l1 → l1 ≡ₚ l2 → calculateStats l1 = calculateStats l2).
Proof.
  split.
  - intros gt det deltas ->%calculateDeltas_returns.
    apply Forall_concat, Forall_fmap, Forall_forall. intros g _. cbn.
    unfold marker_deltas. destruct (find_by_id det (tag_id g)) as [d|]; [|constructor].
    generalize (take 4 (corners g)) (take 4 (corners d)).
    induction l as [|c1 l IH]; intros [|c2 l']; cbn; try constructor; [|apply IH].
    destruct (PrimFloat.is_nan (distance c1 c2)) eqn:Hn; [by left | right].
    apply unsigned_plus. split; [apply distance_plus | done].
  - intros l1 l2 Hu Hp.
    assert (array_sort by_difference l1 = array_sort by_difference l2) as Hs.
    { assert (numbers l1) as Hn1
        by (eapply Forall_impl; [exact Hu | apply unsigned_number]).
      assert (numbers l2) as Hn2 by (unfold numbers; by rewrite <- Hp).
      apply ascending_unique.
      - by rewrite array_sort_perm.
      - by apply array_sort_ascending_ieee.
      - by apply array_sort_ascending_ieee.
      - by rewrite !array_sort_perm. }
    destruct l1 as [|d1 ds1], l2 as [|d2 ds2].
    + done.
    + by apply Permutation_nil_cons in Hp.
    + symmetry in Hp. by apply Permutation_nil_cons in Hp.
    + rewrite !calculateStats_ieee. cbv zeta. by rewrite Hs.
Qed.

(** The two zeros are the one case in which the order shows: they
    compare equal, and the sort leaves them as they came. *)
Example zeros_keep_their_order :
  min (calculateStats [0; -0]).1 = 0 ∧ min (calculateStats [-0; 0]).1 = -0.
Proof. vm_compute. by split. Qed.

End IEEEOrder.

(** ** More on the command line *)

Lemma nonFlagArgs_option (l1 l2 : list string) (flag : string) :
  startsWith flag "-" = true →
  nonFlagArgs (l1 ++ flag :: l2) = nonFlagArgs (l1 ++ l2).
Proof.
  intros Hflag. unfold nonFlagArgs. rewrite !List.filter_app. cbn [List.filter].
  by rewrite Hflag.
Qed.

Lemma includes_other (l1 l2 : list string) (flag x : string) :
  x ≠ flag → includes (l1 ++ flag :: l2) x = includes (l1 ++ l2) x.
Proof.
  intros Hne. unfold includes. rewrite !existsb_app. cbn [existsb].
  by apply String.eqb_neq in Hne as ->.
Qed.

(** X16.  Options may stand anywhere on the command line: a word that
    starts with [-] takes no part in the positional arguments, so it
    changes neither the subset size nor the directory, wherever it is
    put; and a word that starts with [-] but is none of the five known
    options changes nothing at all: it is silently ignored. *)
Theorem options_anywhere (l1 l2 : list string) (flag : string) (env : option string) :
  startsWith flag "-" = true →
  subsetSize (parse_arguments (l1 ++ flag :: l2) env)
  = subsetSize (parse_arguments (l1 ++ l2) env)
  ∧ rawDir (parse_arguments (l1 ++ flag :: l2) env)
    = rawDir (parse_arguments (l1 ++ l2) env)
  ∧ (flag ∉ known_options →
     parse_arguments (l1 ++ flag :: l2) env = parse_arguments (l1 ++ l2) env).
Proof.
  intros Hflag. unfold parse_arguments. cbn [subsetSize rawDir].
  rewrite (nonFlagArgs_option l1 l2 flag Hflag). split; [done|]. split; [done|].
  intros Hunknown. unfold known_options in Hunknown.
  rewrite !not_elem_of_cons in Hunknown.
  destruct Hunknown as (H1 & H2 & H3 & H4 & H5 & _).
  by rewrite !(includes_other l1 l2 flag) by done.
Qed.

(** ** The corner listing *)

Section SortedById.
Context {A : Type} (after : A -> A -> bool) (le : A -> A -> Prop).
Context (Hafter : ∀ a b, after a b = true → le b a).
Context (Hbefore : ∀ a b, after a b = false → le a b).
Context (Htrans : ∀ a b c, le a b → le b c → le a c).

Lemma sort_insert_sorted (x : A) (s : list A) :
  StronglySorted le s → StronglySorted le (sort_insert after x s).
Proof.
  induction 1 as [|y s Hs IH Hy]; cbn [sort_insert].
  - repeat constructor.
  - destruct (after x y) eqn:Hxy.
    + constructor; [done|]. rewrite sort_insert_perm. constructor; [by apply Hafter | done].
    + constructor; [by constructor|]. constructor; [by apply Hbefore|].
      eapply Forall_impl; [exact Hy|]. intros z Hz.
      apply (Htrans x y z); [by apply Hbefore | done].
Qed.

Lemma array_sort_sorted (l : list A) : StronglySorted le (array_sort after l).
Proof.
  induction l as [|x l IH]; [constructor|].
  change (array_sort after (x :: l)) with (sort_insert after x (array_sort after l)).
  by apply sort_insert_sorted.
Qed.

End SortedById.

Section CornerListing.
Context {num : Type} `{JSNumber num}.
Implicit Types (t es : list (event num)) (tag : Detection num).

Lemma corner_points_complete (cs : list (list num)) :
  Forall (fun c => 2 ≤ length c) cs →
  corner_points cs = Normal ((fun c => (element c 0, element c 1)) <$> cs).
Proof.
  induction 1 as [|c cs Hc Hcs IH]; [done|]. cbn [corner_points].
  destruct c as [|x [|y c]]; cbn in Hc; try lia.
  unfold corner_point. cbn [lookup list_lookup]. rewrite IH. done.
Qed.

Lemma corner_points_short (cs : list (list num)) :
  Exists (fun c => length c < 2) cs →
  corner_points cs = Throw (TypeError "Cannot read properties of undefined").
Proof.
  induction cs as [|c cs IH]; intros Hex; [by apply Exists_nil in Hex|].
  cbn [corner_points]. unfold corner_point.
  destruct c as [|x [|y c]]; try done.
  apply Exists_cons in Hex as [Hc|Hcs]; [cbn in Hc; lia|].
  cbn [lookup list_lookup]. by rewrite IH.
Qed.

Lemma short_corner_dec tag : short_corner tag ∨ Forall (fun c => 2 ≤ length c) (corners tag).
Proof.
  unfold short_corner. induction (corners tag) as [|c cs IH]; [right; constructor|].
  destruct IH as [IH|IH]; [left; by right|].
  destruct (decide (length c < 2)); [left; by left | right; constructor; [lia | done]].
Qed.

Lemma listing_run (tags : list (Detection num)) t :
  Forall (fun tag => ¬ short_corner tag) tags →
  for_of tags (fun _ tag =>
      points ← lift (corner_points (corners tag));
      log (TagCorners (tag_id tag) points)) tt t
  = (Normal tt, t ++ (corner_line <$> tags)).
Proof.
  intros Hok. revert t. induction Hok as [|tag tags Htag Hok IH]; intros t.
  - cbn. by rewrite app_nil_r.
  - rewrite for_of_cons, run_bind, run_bind. unfold lift at 1.
    destruct (short_corner_dec tag) as [|Hcs]; [done|].
    rewrite (corner_points_complete _ Hcs). unfold log at 1. rewrite IH.
    by rewrite fmap_cons, <- app_assoc.
Qed.

Lemma listing_raises (tags : list (Detection num)) t :
  Exists short_corner tags →
  ∃ printed,
    for_of tags (fun _ tag =>
        points ← lift (corner_points (corners tag));
        log (TagCorners (tag_id tag) points)) tt t
    = (Throw (TypeError "Cannot read properties of undefined"),
       t ++ (corner_line <$> printed))
    ∧ printed `prefix_of` tags.
Proof.
  revert t. induction tags as [|tag tags IH]; intros t Hex;
    [by apply Exists_nil in Hex|].
  rewrite for_of_cons, run_bind, run_bind. unfold lift at 1.
  destruct (short_corner_dec tag) as [Hshort|Hcs].
  - rewrite (corner_points_short _ Hshort). exists [].
    rewrite app_nil_r. split; [done | apply prefix_nil].
  - rewrite (corner_points_complete _ Hcs). unfold log at 1.
    apply Exists_cons in Hex as [Hshort|Hex].
    + exfalso. unfold short_corner in Hshort. rewrite Exists_exists in Hshort.
      destruct Hshort as (c & Hc & Hlen). rewrite Forall_forall in Hcs.
      specialize (Hcs c Hc). lia.
    + destruct (IH (t ++ [corner_line tag]) Hex) as (printed & Hrun & Hpre).
      exists (tag :: printed). unfold corner_line at 1 in Hrun. rewrite Hrun.
      rewrite fmap_cons, <- app_assoc. split; [done|]. by apply prefix_cons.
Qed.

(** X17.  The corner listing goes through the markers in ascending
    order of identifier, whatever order the detector returned them in,
    and prints one line per marker with all its corners.  It needs
    both coordinates of every corner: if some corner lacks one, the
    listing raises a TypeError after the lines of the markers that
    come before the faulty one in identifier order. *)
Theorem corners_listed_by_id (tags : list (Detection num)) t :
  ∃ sorted : list (Detection num),
    sorted ≡ₚ tags
    ∧ StronglySorted (fun a b => (tag_id a <= tag_id b)%Z) sorted
    ∧ (Forall (fun tag => ¬ short_corner tag) tags →
       print_tags tags t = (Normal tt, t ++ (corner_line <$> sorted)))
    ∧ (Exists short_corner tags →
       ∃ printed,
         print_tags tags t
         = (Throw (TypeError "Cannot read properties of undefined"),
            t ++ (corner_line <$> printed))
         ∧ printed `prefix_of` sorted).
Proof.
  exists (array_sort by_id tags).
  split; [apply array_sort_perm|]. split; [|split].
  - apply array_sort_sorted; unfold by_id; intros; lia.
  - intros Hok. apply listing_run. by rewrite array_sort_perm.
  - intros Hex. apply listing_raises. by rewrite array_sort_perm.
Qed.

End CornerListing.

(** ** The discipline of runs *)

Section Orderly.
Context {num : Type} `{JSNumber num} (w : World num) (Q : event num -> Prop).
Implicit Types (t es : list (event num)).

Lemma unfailing_log (l : line num) : ¬ fatal_failure (Log l : event num).
Proof. by intros (c & e & [=] & _). Qed.

Lemma unfailing_log_error (l : line num) : ¬ fatal_failure (LogError l : event num).
Proof. by intros (c & e & [=] & _). Qed.

Lemma unfailing_returned (c : call num) (r : reply num) :
  (∀ e, r ≠ Failed e) → ¬ fatal_failure (Called c r).
Proof. intros Hr (c' & e & [= -> ->] & _). by apply (Hr e). Qed.

Lemma unfailing_open (path : string) (r : reply num) :
  ¬ fatal_failure (Called (OpenBrowser path) r).
Proof. intros (c' & e & [= <- ->] & Hc). by apply (Hc path). Qed.

Lemma orderly_silent : orderly Q Finished [].
Proof. split; constructor. Qed.

Lemma orderly_app es1 k es2 :
  orderly Q Finished es1 → orderly Q k es2 → orderly Q k (es1 ++ es2).
Proof.
  intros [HQ1 Hf1] [HQ2 Hk]. split; [by apply Forall_app|].
  destruct k as [|e|code]; [by apply Forall_app| |done].
  destruct Hk as [(es' & c & -> & Hes')|[Hty Hes2]].
  - left. exists (es1 ++ es'), c. rewrite app_assoc. split; [done|].
    by apply Forall_app.
  - right. split; [done | by apply Forall_app].
Qed.

Lemma orderly_single (ev : event num) :
  Q ev → ¬ fatal_failure ev → orderly Q Finished [ev].
Proof. intros HQ Hev. split; by repeat constructor. Qed.

Lemma orderly_ret {A : Type} (a : A) : keeps (orderly Q) (mret a : M num A).
Proof. apply emits_ret, orderly_silent. Qed.

Lemma orderly_ask {A : Type} (f : trace num -> A) : keeps (orderly Q) (ask f).
Proof. apply emits_ask. intros. apply orderly_silent. Qed.

Lemma orderly_log (l : line num) : Q (Log l) → keeps (orderly Q) (log l).
Proof.
  intros HQ. apply emits_log, orderly_single; [done | apply unfailing_log].
Qed.

Lemma orderly_lift {A : Type} (c : completion A) :
  (∀ e, c = Throw e → ∃ what, e = TypeError what) → (∀ code, c ≠ Exit code) →
  keeps (orderly Q) (lift c).
Proof.
  intros Hthrow Hexit. apply emits_lift. destruct c as [a|e|code]; cbn.
  - apply orderly_silent.
  - split; [constructor|]. right. split; [by apply Hthrow | constructor].
  - by destruct (Hexit code).
Qed.

Lemma orderly_perform {A : Type} (c : call num) (answer : trace num -> A)
    (shown : A -> reply num) :
  (∀ r, Q (Called c r)) → (∀ a e, shown a ≠ Failed e) →
  keeps (orderly Q) (perform w c answer shown).
Proof.
  intros HQ Hs. apply emits_perform.
  - intros a. apply orderly_single; [done|]. apply unfailing_returned. apply Hs.
  - intros e. split; [by repeat constructor|]. left. exists [], c.
    split; [done | constructor].
Qed.

Lemma orderly_do_call (c : call num) :
  (∀ r, Q (Called c r)) → keeps (orderly Q) (do_call w c).
Proof. intros HQ. by apply orderly_perform. Qed.

(** What the first part returns may be known to the second. *)
Lemma orderly_bind_dep {A B : Type} (m : M num A) (f : A -> M num B) (R : A -> Prop) :
  emits m (fun c es => orderly Q (ending_of c) es ∧ ∀ a, c = Normal a → R a) →
  (∀ a, R a → keeps (orderly Q) (f a)) →
  keeps (orderly Q) (m ≫= f).
Proof.
  intros Hm Hf. apply (emits_bind_dep _ _ _ _ Hm).
  - intros a es1 [H1 HR]. eapply emits_mono; [apply Hf; by apply HR|].
    intros c es2 H2. by apply orderly_app.
  - by intros e es [H1 _].
  - by intros code es [H1 _].
Qed.

Lemma orderly_bind {A B : Type} (m : M num A) (f : A -> M num B) :
  keeps (orderly Q) m → (∀ a, keeps (orderly Q) (f a)) →
  keeps (orderly Q) (m ≫= f).
Proof.
  intros Hm Hf. apply (orderly_bind_dep m f (fun _ => True)); [|auto].
  eapply emits_mono; [exact Hm|]. by intros c es Hc.
Qed.

Lemma orderly_when (b : bool) (m : M num unit) :
  (b = true → keeps (orderly Q) m) → keeps (orderly Q) (when b m).
Proof. intros Hm. destruct b; [by apply Hm | apply orderly_ret]. Qed.

Lemma orderly_for_of {A S : Type} (xs : list A) (body : S -> A -> M num S) (acc : S) :
  (∀ acc x, x ∈ xs → keeps (orderly Q) (body acc x)) →
  keeps (orderly Q) (for_of xs body acc).
Proof.
  revert acc. induction xs as [|x xs IH]; intros acc Hbody.
  - apply orderly_ret.
  - rewrite for_of_cons. apply orderly_bind.
    + apply Hbody. left.
    + intros acc'. apply IH. intros acc'' y Hy. apply Hbody. by right.
Qed.

(** The one failure that is forgiven. *)
Lemma orderly_try_open (path : string) (handler : error -> M num unit) :
  (∀ r, Q (Called (OpenBrowser path) r)) →
  (∀ e, keeps (orderly Q) (handler e)) →
  keeps (orderly Q) (try_catch (do_call w (OpenBrowser path)) handler).
Proof.
  intros HQ Hh.
  eapply emits_try_catch with
    (post1 := fun r es => match r with
                          | Throw e => es = [Called (OpenBrowser path) (Failed e)]
                          | _ => orderly Q (ending_of r) es
                          end)
    (post2 := fun _ r es => orderly Q (ending_of r) es).
  - apply emits_perform; [|done].
    intros []. apply orderly_single; [done | apply unfailing_open].
  - exact Hh.
  - done.
  - done.
  - cbn. intros e es1 r es2 -> Hr. apply orderly_app; [|done].
    apply orderly_single; [done | apply unfailing_open].
Qed.

End Orderly.

Ltac orderly_step :=
  lazymatch goal with
  | |- keeps _ (mret _) => apply orderly_ret
  | |- keeps _ (_ ≫= _) => apply orderly_bind; [|intros ?]
  | |- keeps _ (log _) => apply orderly_log
  | |- keeps _ (ask _) => apply orderly_ask
  | |- keeps _ (do_call _ _) => apply orderly_do_call; intros ?
  | |- keeps _ (perform _ _ _ _) => apply orderly_perform; [intros ?|done]
  | |- keeps _ (when _ _) => apply orderly_when; intros ?
  | |- keeps _ (let _ := _ in _) => cbv zeta
  | |- keeps _ (match ?x with _ => _ end) => destruct x eqn:?
  end.

(** What is left to check: that an event is one of the expected ones. *)
Ltac expected :=
  cbn [expected_event expected_call expected_line];
  repeat match goal with
         | Hb : (_ && _)%bool = true |- _ => apply andb_prop in Hb as [? ?]
         | Hb : negb _ = true |- _ => apply negb_true_iff in Hb
         | Hb : negb _ = false |- _ => apply negb_false_iff in Hb
         end;
  try done; try (split; [done|]); try done; try (by intros ? [= <-]); eauto.

Section OrderlyMain.
Context {num : Type} `{JSNumber num} (w : World num) (rev : revision).
Context (cfg : Config) (dir : string).

Lemma corner_points_raises (cs : list (list num)) (e : error) :
  corner_points cs = Throw e → ∃ what, e = TypeError what.
Proof.
  induction cs as [|c cs IH]; [done|]. cbn [corner_points].
  unfold corner_point. destruct (c !! 0), (c !! 1); cbn; try (intros [= <-]; by eauto).
  destruct (corner_points cs) as [ps|e'|code]; cbn; [done| |done].
  intros [= <-]. by apply IH.
Qed.

Lemma corner_points_no_exit (cs : list (list num)) (code : Z) :
  corner_points cs ≠ Exit code.
Proof.
  induction cs as [|c cs IH]; [done|]. cbn [corner_points].
  unfold corner_point. destruct (c !! 0), (c !! 1); cbn; try done.
  destruct (corner_points cs); cbn; done.
Qed.

Lemma orderly_print_tags (tags : list (Detection num)) :
  printCorners cfg = true →
  keeps (orderly (expected_event w rev cfg dir)) (print_tags tags).
Proof.
  intros Hc. unfold print_tags. apply orderly_for_of. intros [] tag _.
  apply orderly_bind; [|intros points; by apply orderly_log].
  apply orderly_lift; [apply corner_points_raises | apply corner_points_no_exit].
Qed.

Lemma orderly_deltas (gt det : list (Detection num)) :
  keeps (orderly (expected_event w rev cfg dir)) (lift (calculateDeltas gt det)).
Proof.
  apply orderly_lift; rewrite calculateDeltas_closed; destruct (forallb _ _); try done.
  intros e [= <-]. eauto.
Qed.

Lemma orderly_process_file tempDir quality pool arwFile :
  temp_dir w tempDir → endsWith (toLowerCase arwFile) ".arw" = true →
  quality ∈ QUALITY_VALUES →
  keeps (orderly (expected_event w rev cfg dir))
        (process_file w rev cfg dir tempDir quality pool arwFile).
Proof.
  intros Htemp Hraw Hq.
  assert (raw_file w dir (path_join w dir arwFile)) as Hfile by (by exists arwFile).
  assert (∀ name, temp_file w (path_join w tempDir name)) as Hname
    by (intros name; by exists tempDir, name).
  unfold process_file, convertARWToPNG, convertARWToJPEG, detectAprilTags.
  repeat first [ apply orderly_deltas | apply orderly_print_tags | orderly_step ];
    expected.
Qed.

Lemma orderly_process_quality tempDir arwFiles acc quality :
  temp_dir w tempDir →
  Forall (fun file => endsWith (toLowerCase file) ".arw" = true) arwFiles →
  quality ∈ QUALITY_VALUES →
  keeps (orderly (expected_event w rev cfg dir))
        (process_quality w rev cfg dir tempDir arwFiles acc quality).
Proof.
  intros Htemp Hraw Hq. unfold process_quality. destruct acc as [results scatter].
  orderly_step; [orderly_step; expected|].
  apply orderly_bind.
  - apply orderly_for_of. intros pool arwFile Hin.
    rewrite Forall_forall in Hraw. by apply orderly_process_file; [|apply Hraw|].
  - intros pool. destruct (calculateStats _). apply orderly_ret.
Qed.

Lemma createTempDir_orderly :
  emits (createTempDir w)
        (fun c es => orderly (expected_event w rev cfg dir) (ending_of c) es
                     ∧ ∀ tempDir, c = Normal tempDir → temp_dir w tempDir).
Proof.
  intros t. unfold createTempDir. rewrite run_bind. cbn [ask].
  rewrite run_bind. unfold do_call, perform.
  set (tempDir := path_join w (tmpdir w) ("apriltag-quality-" +:+ date_now w t)).
  assert (temp_dir w tempDir) as Htemp by (by exists (date_now w t)).
  destruct (fails w t (Mkdir tempDir)) as [e|].
  - exists [Called (Mkdir tempDir) (Failed e)]. split; [done|]. split; [|done].
    split; [constructor; [by left | constructor]|]. left. exists [], (Mkdir tempDir).
    split; [done | constructor].
  - exists [Called (Mkdir tempDir) Returned]. split; [done|]. split.
    + apply orderly_single; [by left | by apply unfailing_returned].
    + by intros ? [= <-].
Qed.

Lemma chosen_files_orderly (arwFiles : list string) :
  Forall (fun file => endsWith (toLowerCase file) ".arw" = true) arwFiles →
  emits (match subset_applies cfg arwFiles with
         | Some n => log (UsingSubset n);; mret (take (Z.to_nat n) arwFiles)
         | None => mret arwFiles
         end : M num (list string))
        (fun c es => orderly (expected_event w rev cfg dir) (ending_of c) es
                     ∧ ∀ chosen, c = Normal chosen →
                         Forall (fun file => endsWith (toLowerCase file) ".arw" = true)
                                chosen).
Proof.
  intros Hraw t. destruct (subset_applies cfg arwFiles) as [n|] eqn:Hn.
  - exists [Log (UsingSubset n)]. split; [done|]. split.
    + apply orderly_single; [|apply unfailing_log]. cbn.
      unfold subset_applies in Hn. destruct (subsetSize cfg) as [[n'|]|]; try done.
      destruct (_ && _); [|done]. by injection Hn as ->.
    + intros ? [= <-]. by apply Forall_take.
  - exists []. rewrite app_nil_r. split; [done|]. split; [apply orderly_silent|].
    by intros ? [= <-].
Qed.

Lemma orderly_text_lines (lines : list string) :
  keeps (orderly (expected_event w rev cfg dir))
        (for_of lines (fun _ s => log (Text s : line num)) tt).
Proof. apply orderly_for_of. intros [] s _. by apply orderly_log. Qed.

Lemma orderly_reports tempDir (results : list (QualityResult num))
    (scatterData : list (ScatterPoint num)) :
  temp_dir w tempDir →
  keeps (orderly (expected_event w rev cfg dir))
        (match rev with
         | WithPlot => saveTableToFile w results
         | Original => mret tt
         end;;
         (if negb (preserveFiles cfg) then do_call w (Rmdir tempDir)
          else log (PreservedFiles tempDir));;
         match rev with
         | WithPlot =>
             when (negb (noPlot cfg) && (0 <? length scatterData))
               (createScatterPlot w scatterData)
         | Original => mret tt
         end).
Proof.
  intros Htemp. unfold saveTableToFile, createScatterPlot.
  destruct rev; repeat orderly_step; expected.
  - split; [done|]. split; [done|]. by intros ->.
  - apply orderly_try_open; [intros r|intros e; apply orderly_log]; expected.
Qed.

Lemma orderly_main_body :
  keeps (orderly (expected_event w rev cfg dir)) (main_body w rev cfg dir).
Proof.
  unfold main_body.
  apply (orderly_bind_dep _ _ _ _ createTempDir_orderly). intros tempDir Htemp.
  apply orderly_bind; [by apply orderly_log | intros _].
  apply orderly_bind; [orderly_step; expected | intros names].
  apply orderly_bind; [by apply orderly_log | intros _].
  assert (Forall (fun file => endsWith (toLowerCase file) ".arw" = true)
                 (raw_files names)) as Hfiles.
  { apply Forall_forall. intros file Hin. unfold raw_files in Hin.
    apply list_elem_of_In, filter_In in Hin. tauto. }
  apply (orderly_bind_dep _ _ _ _ (chosen_files_orderly (raw_files names) Hfiles)).
  intros arwFiles Hraw.
  apply orderly_bind.
  { apply orderly_for_of. intros acc quality Hq. by apply orderly_process_quality. }
  intros [results scatterData].
  apply orderly_bind; [apply orderly_text_lines | intros _].
  apply orderly_bind;
    [apply orderly_for_of; intros [] result _; by apply orderly_log | intros _].
  by apply orderly_reports.
Qed.

End OrderlyMain.

Section MainTheorems.
Context {num : Type} `{JSNumber num} (w : World num) (rev : revision).
Implicit Types (t es : list (event num)).

Lemma text_lines_run (lines : list string) t :
  for_of lines (fun _ s => log (Text s : line num)) tt t
  = (Normal tt, t ++ ((fun s => Log (Text s)) <$> lines)).
Proof.
  revert t. induction lines as [|s lines IH]; intros t.
  - cbn. by rewrite app_nil_r.
  - rewrite for_of_cons, run_bind. unfold log at 1. rewrite IH.
    by rewrite fmap_cons, <- app_assoc.
Qed.

Lemma unfailing_text_lines (lines : list string) :
  unfailing ((fun s => Log (Text s) : event num) <$> lines).
Proof. apply Forall_fmap, Forall_forall. intros s _. apply unfailing_log. Qed.

(** The shape of every run of [main]. *)
Lemma main_shape cfg dir t :
  ∃ body : list (event num),
    let banner := (fun s => Log (Text s)) <$> usage rev in
    Forall (expected_event w rev cfg dir) body
    ∧ ((main w rev cfg dir t = (Normal tt, t ++ banner ++ body) ∧ unfailing body)
       ∨ ∃ e, main w rev cfg dir t
              = (Exit 1, t ++ banner ++ body ++ [LogError (ErrorLine e)])
              ∧ ((∃ body' c, body = body' ++ [Called c (Failed e)] ∧ unfailing body')
                 ∨ ((∃ what, e = TypeError what) ∧ unfailing body))).
Proof.
  unfold main. rewrite run_bind, text_lines_run.
  destruct (orderly_main_body w rev cfg dir
              (t ++ ((fun s => Log (Text s)) <$> usage rev)))
    as (body & Hrun & HQ & Hbody).
  unfold try_catch.
  destruct (main_body w rev cfg dir _) as [[[]|e|code] t1]; cbn in Hrun, Hbody; subst t1.
  - exists body. split; [done|]. left. by rewrite app_assoc.
  - exists body. rewrite run_bind. unfold log_error, exit.
    split; [done|]. right. exists e. by rewrite <- !app_assoc.
  - done.
Qed.

(** X18.  [main] lets no exception escape.  After the usage banner a
    run either goes to its end, with no failed call other than a
    forgiven failure to open the browser and nothing on the error
    stream, or it ends with [process.exit(1)], and then the last thing
    it did was to print the error on the error stream; that error was
    thrown by the call made just before, or is a TypeError raised by
    the computation on malformed detections. *)
Theorem main_catches_every_error (cfg : Config) (dir : string) t :
  ∃ body : list (event num),
    let banner := (fun s => Log (Text s)) <$> usage rev in
    Forall (fun ev => ∀ l, ev ≠ LogError l) body
    ∧ ((main w rev cfg dir t = (Normal tt, t ++ banner ++ body) ∧ unfailing body)
       ∨ ∃ e, main w rev cfg dir t
              = (Exit 1, t ++ banner ++ body ++ [LogError (ErrorLine e)])
              ∧ ((∃ body' c, body = body' ++ [Called c (Failed e)] ∧ unfailing body')
                 ∨ ((∃ what, e = TypeError what) ∧ unfailing body))).
Proof.
  destruct (main_shape cfg dir t) as (body & HQ & Hrun).
  exists body. split; [|exact Hrun].
  eapply Forall_impl; [exact HQ|]. intros ev Hev l ->. exact Hev.
Qed.

(** X19.  Whatever call fails inside [main], other than the opening of
    the browser (creating the temporary directory, listing or reading
    the RAW directory, a conversion, a detection, a write, a deletion),
    the run stops there: the error is printed on the error stream and
    the process exits with status 1; nothing else follows. *)
Theorem failed_call_aborts_main (cfg : Config) (dir : string) t
    (before after : list (event num)) (c : call num) (e : error) :
  (main w rev cfg dir t).2 = t ++ before ++ Called c (Failed e) :: after →
  (∀ path, c ≠ OpenBrowser path) →
  after = [LogError (ErrorLine e)] ∧ (main w rev cfg dir t).1 = Exit 1.
Proof.
  intros Htrace Hc.
  assert (fatal_failure (Called c (Failed e))) as Hfatal by (by exists c, e).
  destruct (main_shape cfg dir t) as (body & _ & Hrun).
  cbv zeta in *. pose proof (unfailing_text_lines (usage rev)) as Hbanner.
  destruct Hrun as [[Hrun Hbody]|(e0 & Hrun & Hshape)]; rewrite Hrun in Htrace |- *;
    cbn [fst snd] in *; apply app_inv_head in Htrace.
  - exfalso. eapply (no_occurrence fatal_failure); [|exact Hfatal|exact Htrace].
    by apply Forall_app.
  - destruct Hshape as [(body' & c0 & -> & Hbody')|[_ Hbody]].
    + rewrite <- !app_assoc in Htrace. cbn [app] in Htrace. rewrite app_assoc in Htrace.
      apply (first_occurrence fatal_failure) in Htrace as (_ & [= _ ->] & <-); try done.
      * by apply Forall_app.
      * repeat constructor. apply unfailing_log_error.
    + exfalso. eapply (no_occurrence fatal_failure); [|exact Hfatal|exact Htrace].
      apply Forall_app. split; [done|]. apply Forall_app. split; [done|].
      repeat constructor. apply unfailing_log_error.
Qed.

End MainTheorems.

Section ScriptAlphabet.
Context {num : Type} `{JSNumber num} (w : World num) (rev : revision).
Implicit Types (t es : list (event num)).

Lemma env_file_emits :
  emits (try_catch (do_call w (Access (env_file w));; do_call w (Dotenv (env_file w)))
                   (fun _ => mret tt))
        (fun c es => c = Normal tt ∧ Forall (reads_env_file w) es).
Proof.
  intros t. unfold try_catch. rewrite run_bind. unfold do_call, perform.
  destruct (fails w t (Access (env_file w))) as [e|].
  - exists [Called (Access (env_file w)) (Failed e)]. repeat split.
    repeat constructor. exists (Failed e). by left.
  - destruct (fails w _ (Dotenv (env_file w))) as [e|]; cbn.
    + exists [Called (Access (env_file w)) Returned; Called (Dotenv (env_file w)) (Failed e)].
      rewrite <- app_assoc. repeat split.
      repeat constructor; eexists; eauto.
    + exists [Called (Access (env_file w)) Returned; Called (Dotenv (env_file w)) Returned].
      rewrite <- app_assoc. repeat split.
      repeat constructor; eexists; eauto.
Qed.

(** Every event of a run of the script is one that the script is
    written to produce under the configuration it has parsed. *)
Lemma script_alphabet (args : list string) :
  ∃ loading, let cfg := parse_arguments args (RAW_DIR w loading) in
             Forall (script_event w rev cfg (default "" (rawDir cfg)))
                    (script w rev args []).2.
Proof.
  unfold script. rewrite run_bind. fold (env_file w).
  destruct (env_file_emits []) as (es0 & Ht0 & Hc0 & Hes0).
  destruct (try_catch _ _ []) as [c0 t0]. cbn in Ht0, Hc0. subst c0 t0.
  rewrite run_bind. cbn [ask]. exists es0.
  set (cfg := parse_arguments args (RAW_DIR w es0)). cbv zeta.
  assert (Forall (script_event w rev cfg (default "" (rawDir cfg))) es0) as Henv.
  { eapply Forall_impl; [exact Hes0|]. intros ev Hev. by left. }
  destruct (negb (truthy (rawDir cfg))).
  - repeat (rewrite run_bind; unfold log_error, exit; cbn beta iota). cbn [snd].
    rewrite <- app_assoc. apply Forall_app. split; [done|].
    constructor; [right; left; eauto|]. constructor; [right; left; eauto|]. constructor.
  - rewrite run_bind. unfold do_call, perform.
    destruct (fails w es0 NewDetector) as [e|].
    + cbn [snd]. apply Forall_app. split; [done|].
      constructor; [|constructor]. right; right; left. eauto.
    + destruct (main_shape w rev cfg (default "" (rawDir cfg))
                  (es0 ++ [Called NewDetector Returned])) as (body & HQ & Hrun).
      cbv zeta in Hrun.
      assert (Forall (script_event w rev cfg (default "" (rawDir cfg)))
                     ((es0 ++ [Called NewDetector Returned])
                      ++ ((fun s => Log (Text s)) <$> usage rev) ++ body)) as Hall.
      { apply Forall_app. split.
        - apply Forall_app. split; [done|]. constructor; [|constructor].
          right; right; left. eauto.
        - apply Forall_app. split.
          + apply Forall_fmap, Forall_forall. intros s _. cbn.
            right; right; right; left. eauto.
          + eapply Forall_impl; [exact HQ|]. intros ev Hev. by do 4 right. }
      destruct Hrun as [[Hrun _]|(e & Hrun & _)]; rewrite Hrun; cbn [snd]; [done|].
      assert (Forall (script_event w rev cfg (default "" (rawDir cfg)))
                     [LogError (ErrorLine e)]) as Hlast.
      { constructor; [|constructor]. right; left. eauto. }
      rewrite !Forall_app in Hall |- *. destruct Hall as ((H1 & H2) & H3 & H4).
      repeat split; try done. by apply Forall_app.
Qed.

(** X20.  With [--preserve] (or [-p]) on the command line the program
    deletes nothing: no run contains a call of [fs.unlink] or
    [fs.rmdir], whether it returned or threw. *)
Theorem preserve_deletes_nothing (args : list string) :
  includes args "--preserve" || includes args "-p" = true →
  Forall (fun ev => ∀ path r, ev ≠ Called (Unlink path) r ∧ ev ≠ Called (Rmdir path) r)
         (script w rev args []).2.
Proof.
  intros Hp. destruct (script_alphabet args) as (env & Hall). cbv zeta in Hall.
  eapply Forall_impl; [exact Hall|]. intros ev Hev path r.
  assert (preserveFiles (parse_arguments args (RAW_DIR w env)) = true) as Hcfg
    by exact Hp.
  destruct Hev as [(r' & [-> | ->])|[[l ->]|[[r' ->]|[[s ->]|Hev]]]]; try done.
  split; intros ->; cbn in Hev; destruct Hev as [Hev _]; congruence.
Qed.

(** X21.  The scatter plot belongs to the later revision and can be
    switched off: in the earlier revision, and with [--no-plot] in the
    later one, no run writes a plot page, announces one or opens the
    browser; and the earlier revision writes no table file either. *)
Theorem no_plot_without_asking (args : list string) :
  rev = Original ∨ includes args "--no-plot" = true →
  Forall (fun ev => ∀ path data r,
            ev ≠ Called (WriteFile path (PlotPage data)) r
            ∧ ev ≠ Called (OpenBrowser path) r
            ∧ ev ≠ Log (PlotSaved path)
            ∧ (rev = Original → ∀ rows, ev ≠ Called (WriteFile path (TableFile rows)) r))
         (script w rev args []).2.
Proof.
  intros Hp. destruct (script_alphabet args) as (env & Hall). cbv zeta in Hall.
  eapply Forall_impl; [exact Hall|]. intros ev Hev path data r.
  destruct Hev as [(r' & [-> | ->])|[[l ->]|[[r' ->]|[[s ->]|Hev]]]]; try done.
  split; [|split; [|split]].
  - intros ->. cbn in Hev. destruct Hev as (Hr & Hn & _). destruct Hp; congruence.
  - intros ->. cbn in Hev. destruct Hev as (Hr & Hn & _). destruct Hp; congruence.
  - intros ->. cbn in Hev. destruct Hev as (Hr & Hn). destruct Hp; congruence.
  - intros Hrev rows ->. cbn in Hev. destruct Hev as [Hr _]. congruence.
Qed.

(** X22.  The program changes the file system in two places only.
    Every file it writes is a file of its temporary directory
    [<tmpdir>/apriltag-quality-<time>] or of the directory [out] under
    the working directory; it deletes only files of the temporary
    directory, removes only that directory, and creates only these two
    directories. *)
Theorem writes_stay_in_own_directories (args : list string) :
  Forall (fun ev => ∀ path r,
            (∀ c, ev = Called (WriteFile path c) r →
                  temp_file w path ∨ ∃ name, path = path_join w (out_dir w) name)
            ∧ (ev = Called (Unlink path) r → temp_file w path)
            ∧ (ev = Called (Rmdir path) r → temp_dir w path)
            ∧ (ev = Called (Mkdir path) r → temp_dir w path ∨ path = out_dir w))
         (script w rev args []).2.
Proof.
  destruct (script_alphabet args) as (env & Hall). cbv zeta in Hall.
  eapply Forall_impl; [exact Hall|]. intros ev Hev path r.
  destruct Hev as [(r' & [-> | ->])|[[l ->]|[[r' ->]|[[s ->]|Hev]]]]; try done.
  split; [|split; [|split]].
  - intros c ->. cbn in Hev. destruct c as [arwPath q|rows|data].
    + left. by destruct Hev.
    + right. by destruct Hev.
    + right. destruct Hev as (_ & _ & -> & _). by eexists.
  - intros ->. cbn in Hev. by destruct Hev.
  - intros ->. cbn in Hev. by destruct Hev.
  - intros ->. cbn in Hev. destruct Hev as [Hev|[_ ->]]; auto.
Qed.

(** X23.  The program reads one file of its own and the RAW directory,
    and nothing else of the user's: the file it looks for and loads at
    the start is [.env.local] in the working directory; the one
    directory it lists is the configured one; every file it reads or
    converts is [path.join] of that directory and a name that ends in
    [.arw], in any letter case; and images are only ever loaded, and
    the detector only ever run, on files of the temporary directory. *)
Theorem reads_only_raw_files (args : list string) :
  ∃ loading : list (event num),
    let cfg := parse_arguments args (RAW_DIR w loading) in
    let dir := default "" (rawDir cfg) in
    Forall (fun ev => ∀ path r,
              (ev = Called (Access path) r ∨ ev = Called (Dotenv path) r →
               path = path_join w (cwd w) ".env.local")
              ∧ (ev = Called (Readdir path) r → path = dir)
              ∧ (ev = Called (ReadFile path) r →
                 ∃ file, path = path_join w dir file
                         ∧ endsWith (toLowerCase file) ".arw" = true)
              ∧ (∀ q, ev = Called (ConvertRaw path q) r →
                 ∃ file, path = path_join w dir file
                         ∧ endsWith (toLowerCase file) ".arw" = true)
              ∧ (ev = Called (LoadImage path) r ∨ ev = Called (Detect path) r →
                 temp_file w path))
           (script w rev args []).2.
Proof.
  destruct (script_alphabet args) as (loading & Hall). exists loading.
  cbv zeta in *. eapply Forall_impl; [exact Hall|]. intros ev Hev path r.
  destruct Hev as [(r' & [-> | ->])|[[l ->]|[[r' ->]|[[s ->]|Hev]]]];
    try (by repeat split; intros; destruct_or?; simplify_eq).
  split; [|split; [|split; [|split]]].
  - intros [-> | ->]; cbn in Hev; done.
  - by intros ->.
  - by intros ->.
  - intros q ->. cbn in Hev. by destruct Hev.
  - by intros [-> | ->].
Qed.

(** X24.  [createScatterPlot] ends in one of four ways.  If the [out]
    directory cannot be made or the page cannot be written, that error
    is thrown and nothing else is done.  Otherwise the page is written
    before its path is announced, and the browser is opened last; if
    that fails, the failure is forgiven with a hint on the console and
    the function still returns. *)
Theorem createScatterPlot_outcomes (data : list (ScatterPoint num)) t :
  let made := Called (Mkdir (out_dir w)) Returned in
  let written := Called (WriteFile (plot_path w) (PlotPage data)) Returned in
  let announced := Log (PlotSaved (plot_path w)) in
  (∃ e, createScatterPlot w data t
        = (Throw e, t ++ [Called (Mkdir (out_dir w)) (Failed e)]))
  ∨ (∃ e, createScatterPlot w data t
          = (Throw e, t ++ [made; Called (WriteFile (plot_path w) (PlotPage data))
                                         (Failed e)]))
  ∨ createScatterPlot w data t
    = (Normal tt, t ++ [made; written; announced;
                        Called (OpenBrowser (plot_path w)) Returned])
  ∨ (∃ e, createScatterPlot w data t
          = (Normal tt,
             t ++ [made; written; announced;
                   Called (OpenBrowser (plot_path w)) (Failed e);
                   Log (Text "Could not automatically open the plot. Please open manually.")])).
Proof.
  cbv zeta. unfold createScatterPlot, try_catch, do_call, perform, log.
  fold (out_dir w). fold (plot_path w).
  rewrite run_bind. destruct (fails w t (Mkdir (out_dir w))) as [e|]; [left; eauto|].
  rewrite run_bind. destruct (fails w _ (WriteFile _ _)) as [e|].
  { right; left. exists e. by rewrite <- app_assoc. }
  rewrite run_bind. destruct (fails w _ (OpenBrowser _)) as [e|].
  - do 3 right. exists e. by rewrite <- !app_assoc.
  - right; right; left. by rewrite <- !app_assoc.
Qed.

End ScriptAlphabet.

(** ** What a run that goes to its end has done *)

Section TallyRules.
Context {num : Type} `{JSNumber num} (w : World num).
Context {X : Type} (of_line : line num -> list X) (of_call : call num -> list X).
Implicit Types (t es : list (event num)) (expected : list X).

Lemma tokens_app es1 es2 :
  tokens of_line of_call (es1 ++ es2)
  = tokens of_line of_call es1 ++ tokens of_line of_call es2.
Proof. apply flat_map_app. Qed.

Lemma tallies_expected {A : Type} (m : M num A) expected expected' :
  emits m (tallies of_line of_call expected) → expected = expected' →
  emits m (tallies of_line of_call expected').
Proof. by intros Hm <-. Qed.

Lemma tallies_ret {A : Type} (a : A) :
  emits (mret a : M num A) (tallies of_line of_call []).
Proof. by apply emits_ret. Qed.

Lemma tallies_lift {A : Type} (c : completion A) :
  emits (lift c : M num A) (tallies of_line of_call []).
Proof. by apply emits_lift. Qed.

Lemma tallies_ask {A : Type} (f : trace num -> A) :
  emits (ask f) (tallies of_line of_call []).
Proof. by apply emits_ask. Qed.

Lemma tallies_log (l : line num) :
  of_line l = [] → emits (log l : M num unit) (tallies of_line of_call []).
Proof.
  intros Hl. apply emits_log. intros _. unfold tokens. cbn. by rewrite Hl.
Qed.

Lemma tallies_perform {A : Type} (c : call num) (answer : trace num -> A)
    (shown : A -> reply num) :
  emits (perform w c answer shown) (tallies of_line of_call (of_call c)).
Proof.
  apply emits_perform; intros; intros _; unfold tokens; cbn; by rewrite app_nil_r.
Qed.

Lemma tallies_do_call (c : call num) :
  emits (do_call w c) (tallies of_line of_call (of_call c)).
Proof. apply tallies_perform. Qed.

Lemma tallies_bind {A B : Type} (m : M num A) (f : A -> M num B) expected1 expected2 :
  emits m (tallies of_line of_call expected1) →
  (∀ a, emits (f a) (tallies of_line of_call expected2)) →
  emits (m ≫= f) (tallies of_line of_call (expected1 ++ expected2)).
Proof.
  intros Hm Hf.
  apply (emits_bind m f (tallies of_line of_call expected1)
           (fun _ => tallies of_line of_call expected2) _ Hm Hf); try done.
  intros a es1 c es2 H1 H2 Hc. by rewrite tokens_app, (H1 eq_refl), (H2 Hc).
Qed.

Lemma tallies_bind_quiet {A B : Type} (m : M num A) (f : A -> M num B) :
  emits m (tallies of_line of_call []) →
  (∀ a, emits (f a) (tallies of_line of_call [])) →
  emits (m ≫= f) (tallies of_line of_call []).
Proof. intros Hm Hf. by apply (tallies_bind m f [] []). Qed.

Lemma tallies_when (b : bool) (m : M num unit) expected :
  emits m (tallies of_line of_call expected) →
  emits (when b m) (tallies of_line of_call (if b then expected else [])).
Proof. intros Hm. destruct b; [done | apply tallies_ret]. Qed.

Lemma tallies_for_of {A S : Type} (xs : list A) (body : S -> A -> M num S) (acc : S)
    (each : A -> list X) :
  (∀ acc x, emits (body acc x) (tallies of_line of_call (each x))) →
  emits (for_of xs body acc) (tallies of_line of_call (flat_map each xs)).
Proof.
  intros Hbody. revert acc. induction xs as [|x xs IH]; intros acc.
  - apply tallies_ret.
  - rewrite for_of_cons. cbn [flat_map]. apply tallies_bind; auto.
Qed.

Lemma tallies_for_of_quiet {A S : Type} (xs : list A) (body : S -> A -> M num S)
    (acc : S) :
  (∀ acc x, emits (body acc x) (tallies of_line of_call [])) →
  emits (for_of xs body acc) (tallies of_line of_call []).
Proof.
  intros Hbody.
  eapply tallies_expected; [by apply (tallies_for_of _ _ _ (fun _ => []))|].
  by induction xs.
Qed.

Lemma tallies_try_call (c : call num) (handler : error -> M num unit) :
  of_call c = [] → (∀ e, emits (handler e) (tallies of_line of_call [])) →
  emits (try_catch (do_call w c) handler) (tallies of_line of_call []).
Proof.
  intros Hc Hh.
  apply (emits_try_catch _ _ (fun r es => tokens of_line of_call es = [])
           (fun _ => tallies of_line of_call [])).
  - apply emits_perform; intros; unfold tokens; cbn; by rewrite Hc.
  - exact Hh.
  - by intros a es Hes _.
  - by intros code es Hes [=].
  - intros e es1 r es2 Hes Hfin Hr. by rewrite tokens_app, Hes, (Hfin Hr).
Qed.

(** What a run that has ended has tallied. *)
Lemma tallied {A : Type} (m : M num A) expected t (a : A) t' :
  emits m (tallies of_line of_call expected) → m t = (Normal a, t') →
  ∃ es, t' = t ++ es ∧ tokens of_line of_call es = expected.
Proof.
  intros Hm Hrun. destruct (Hm t) as (es & Hes & Htally). rewrite Hrun in Hes, Htally.
  exists es. split; [done | by apply Htally].
Qed.

End TallyRules.

Ltac tallies_step :=
  lazymatch goal with
  | |- emits (mret _) _ => apply tallies_ret
  | |- emits (_ ≫= _) (tallies _ _ []) => apply tallies_bind_quiet; [|intros ?]
  | |- emits (_ ≫= _) _ => eapply tallies_bind; [|intros ?]
  | |- emits (log _) _ => apply tallies_log; reflexivity
  | |- emits (lift _) _ => apply tallies_lift
  | |- emits (ask _) _ => apply tallies_ask
  | |- emits (do_call _ _) _ =>
      eapply tallies_expected; [apply tallies_do_call | cbn; reflexivity]
  | |- emits (perform _ _ _ _) _ =>
      eapply tallies_expected; [apply tallies_perform | cbn; reflexivity]
  | |- emits (when _ _) _ => eapply tallies_when
  | |- emits (try_catch (do_call _ _) _) _ => apply tallies_try_call; [done | intros ?]
  | |- emits (let _ := _ in _) _ => cbv zeta
  end.

Section FinishedRuns.
Context {num : Type} `{JSNumber num} (w : World num) (rev : revision).
Implicit Types (t es : list (event num)).

Lemma print_tags_leaves_nothing {X : Type} (of_line : line num -> list X)
    (of_call : call num -> list X) (tags : list (Detection num)) :
  (∀ id points, of_line (TagCorners id points) = []) →
  emits (print_tags tags) (tallies of_line of_call []).
Proof.
  intros Hline. unfold print_tags. apply tallies_for_of_quiet. intros [] tag.
  apply tallies_bind_quiet; [apply tallies_lift | intros points].
  apply tallies_log, Hline.
Qed.

Lemma process_file_temp_ops cfg dir tempDir quality pool arwFile :
  emits (process_file w rev cfg dir tempDir quality pool arwFile)
        (tallies (fun _ => []) temp_op_of (file_ops w cfg tempDir quality arwFile)).
Proof.
  unfold process_file, convertARWToPNG, convertARWToJPEG, detectAprilTags.
  eapply tallies_expected.
  - repeat first [ apply print_tags_leaves_nothing; done | tallies_step ].
  - unfold file_ops. cbn [app negb].
    by destruct (preserveFiles cfg), (is_first_quality quality), (printCorners cfg).
Qed.

Lemma process_file_no_rows cfg dir tempDir quality pool arwFile :
  emits (process_file w rev cfg dir tempDir quality pool arwFile)
        (tallies (fun l => match l with TableRow r => [r] | _ => [] end)
                 (fun _ => []) []).
Proof.
  unfold process_file, convertARWToPNG, convertARWToJPEG, detectAprilTags.
  eapply tallies_expected.
  - repeat first [ apply print_tags_leaves_nothing; done | tallies_step ].
  - cbn [app]. by destruct (_ && _), (_ && _), (preserveFiles cfg), (printCorners cfg),
      (negb _).
Qed.

Lemma process_quality_temp_ops cfg dir tempDir arwFiles acc quality :
  emits (process_quality w rev cfg dir tempDir arwFiles acc quality)
        (tallies (fun _ => []) temp_op_of
                 (flat_map (file_ops w cfg tempDir quality) arwFiles)).
Proof.
  unfold process_quality. destruct acc as [results scatter].
  eapply tallies_expected.
  - eapply tallies_bind; [by apply tallies_log | intros _].
    eapply tallies_bind.
    + apply (tallies_for_of _ _ _ _ _ (file_ops w cfg tempDir quality)).
      intros. apply process_file_temp_ops.
    + intros pool. destruct (calculateStats _). apply tallies_ret.
  - cbn [app]. by rewrite app_nil_r.
Qed.

Lemma process_quality_no_rows cfg dir tempDir arwFiles acc quality :
  emits (process_quality w rev cfg dir tempDir arwFiles acc quality)
        (tallies (fun l => match l with TableRow r => [r] | _ => [] end)
                 (fun _ => []) []).
Proof.
  unfold process_quality. destruct acc as [results scatter].
  apply tallies_bind_quiet; [by apply tallies_log | intros _].
  apply tallies_bind_quiet.
  - apply tallies_for_of_quiet. intros. apply process_file_no_rows.
  - intros pool. destruct (calculateStats _). apply tallies_ret.
Qed.

(** What one quality level adds to the results. *)
Lemma process_quality_normal cfg dir tempDir arwFiles results scatter quality t
    results' scatter' t' :
  process_quality w rev cfg dir tempDir arwFiles (results, scatter) quality t
  = (Normal (results', scatter'), t') →
  ∃ pool,
    results' = results ++ [{| quality := quality;
                              stats := (calculateStats (allDeltas pool)).1;
                              missingMarkers := totalMissingMarkers pool |}]
    ∧ scatter' = scatterData pool
    ∧ (arwFiles = [] →
       pool = {| allDeltas := []; totalMissingMarkers := 0; scatterData := scatter |}).
Proof.
  unfold process_quality. intros Hrun.
  apply bind_normal in Hrun as ([] & t1 & _ & Hrun).
  apply bind_normal in Hrun as (pool & t2 & Hloop & Hrun).
  exists pool. destruct (calculateStats (allDeltas pool)) as [stats rest].
  injection Hrun as <- <- <-. split; [done|]. split; [done|].
  intros ->. by injection Hloop as <- _.
Qed.

Lemma quality_loop_normal cfg dir tempDir arwFiles (qs : list Q) acc t res t' :
  for_of qs (process_quality w rev cfg dir tempDir arwFiles) acc t = (Normal res, t') →
  quality <$> res.1 = (quality <$> acc.1) ++ qs
  ∧ (arwFiles = [] → res.1 = acc.1 ++ (empty_row <$> qs) ∧ res.2 = acc.2).
Proof.
  revert acc t. induction qs as [|q qs IH]; intros [results scatter] t.
  - intros [= <- _]. cbn. by rewrite !app_nil_r.
  - rewrite for_of_cons. intros Hrun.
    apply bind_normal in Hrun as ([results' scatter'] & t1 & Hq & Hrun).
    apply process_quality_normal in Hq as (pool & -> & -> & Hempty).
    apply IH in Hrun as [Hqual Hrows]. cbn [fst snd] in *. split.
    + rewrite Hqual, fmap_app. cbn. by rewrite <- app_assoc.
    + intros Hnone. destruct (Hrows Hnone) as [-> ->]. rewrite (Hempty Hnone).
      cbn. by rewrite <- app_assoc.
Qed.

(** The end of [main_body], after the table has been printed. *)
Lemma reports_temp_ops cfg tempDir (results : list (QualityResult num))
    (scatterData : list (ScatterPoint num)) :
  emits (match rev with
         | WithPlot => saveTableToFile w results
         | Original => mret tt
         end;;
         (if negb (preserveFiles cfg) then do_call w (Rmdir tempDir)
          else log (PreservedFiles tempDir));;
         match rev with
         | WithPlot =>
             when (negb (noPlot cfg) && (0 <? length scatterData))
               (createScatterPlot w scatterData)
         | Original => mret tt
         end)
        (tallies (fun _ => []) temp_op_of
                 (if preserveFiles cfg then [] else [Removed tempDir])).
Proof.
  unfold saveTableToFile, createScatterPlot.
  destruct rev, (preserveFiles cfg); cbn [negb];
    (eapply tallies_expected; [repeat tallies_step|]); try done.
  - by destruct (_ && _).
  - by destruct (_ && _).
Qed.

Lemma reports_no_rows cfg tempDir (results : list (QualityResult num))
    (scatterData : list (ScatterPoint num)) :
  emits (match rev with
         | WithPlot => saveTableToFile w results
         | Original => mret tt
         end;;
         (if negb (preserveFiles cfg) then do_call w (Rmdir tempDir)
          else log (PreservedFiles tempDir));;
         match rev with
         | WithPlot =>
             when (negb (noPlot cfg) && (0 <? length scatterData))
               (createScatterPlot w scatterData)
         | Original => mret tt
         end)
        (tallies (fun l => match l with TableRow r => [r] | _ => [] end)
                 (fun _ => []) []).
Proof.
  unfold saveTableToFile, createScatterPlot.
  destruct rev, (preserveFiles cfg); cbn [negb];
    (eapply tallies_expected; [repeat tallies_step|]); try done.
  - by destruct (_ && _).
  - by destruct (_ && _).
Qed.

Lemma tokens_text_lines {X : Type} (of_line : line num -> list X)
    (of_call : call num -> list X) (lines : list string) :
  (∀ s, of_line (Text s) = []) →
  tokens of_line of_call ((fun s => Log (Text s)) <$> lines) = [].
Proof.
  intros Hline. induction lines as [|s lines IH]; [done|].
  rewrite fmap_cons. unfold tokens in *. cbn [flat_map]. by rewrite Hline, IH.
Qed.

Lemma rows_run (results : list (QualityResult num)) t :
  for_of results (fun _ result => log (TableRow result)) tt t
  = (Normal tt, t ++ ((fun r => Log (TableRow r)) <$> results)).
Proof.
  revert t. induction results as [|r results IH]; intros t.
  - cbn. by rewrite app_nil_r.
  - rewrite for_of_cons, run_bind. unfold log at 1. rewrite IH.
    by rewrite fmap_cons, <- app_assoc.
Qed.

Lemma saveTableToFile_normal (rows : list (QualityResult num)) t t' :
  saveTableToFile w rows t = (Normal tt, t') →
  ∃ path es, t' = t ++ es ∧ Called (WriteFile path (TableFile rows)) Returned ∈ es.
Proof.
  unfold saveTableToFile. intros Hrun.
  apply bind_normal in Hrun as ([] & t1 & H1 & Hrun).
  apply bind_normal in Hrun as (timestamp & t2 & H2 & Hrun).
  apply bind_normal in Hrun as ([] & t3 & H3 & Hrun).
  unfold do_call, perform in H1, H3. injection H2 as <- <-.
  destruct (fails w t _); [done|]. injection H1 as <-.
  destruct (fails w _ _); [done|]. injection H3 as <-.
  injection Hrun as <-. eexists _, _. rewrite <- !app_assoc.
  split; [reflexivity|]. cbn [app]. rewrite !elem_of_cons. tauto.
Qed.

(** The stages of a run of the [try] block that goes to its end. *)
Lemma main_body_normal cfg dir t t' :
  main_body w rev cfg dir t = (Normal tt, t') →
  ∃ tempDir names results scatterData es_loop es_end,
    let files := selected_files cfg (raw_files names) in
    let t1 := t ++ [Called (Mkdir tempDir) Returned; Log (UsingTempDir tempDir);
                    Called (Readdir dir) (Names names);
                    Log (FoundFiles (length (raw_files names)))]
                ++ match subset_applies cfg (raw_files names) with
                   | Some n => [Log (UsingSubset n)]
                   | None => []
                   end in
    let t2 := (t1 ++ es_loop) ++ ((fun s => Log (Text s)) <$> table_heading)
                ++ ((fun r => Log (TableRow r)) <$> results) in
    temp_dir w tempDir
    ∧ for_of QUALITY_VALUES (process_quality w rev cfg dir tempDir files) ([], []) t1
      = (Normal (results, scatterData), t1 ++ es_loop)
    ∧ (match rev with
       | WithPlot => saveTableToFile w results
       | Original => mret tt
       end;;
       (if negb (preserveFiles cfg) then do_call w (Rmdir tempDir)
        else log (PreservedFiles tempDir));;
       match rev with
       | WithPlot =>
           when (negb (noPlot cfg) && (0 <? length scatterData))
             (createScatterPlot w scatterData)
       | Original => mret tt
       end) t2 = (Normal tt, t2 ++ es_end)
    ∧ t' = t2 ++ es_end.
Proof.
  unfold main_body. intros Hrun.
  apply bind_normal in Hrun as (tempDir & t1 & Htemp & Hrun).
  apply bind_normal in Hrun as ([] & t2 & Hlog & Hrun).
  apply bind_normal in Hrun as (names & t3 & Hdir & Hrun).
  apply bind_normal in Hrun as ([] & t4 & Hfound & Hrun).
  apply bind_normal in Hrun as (files & t5 & Hfiles & Hrun).
  apply bind_normal in Hrun as ([results scatterData] & t6 & Hloop & Hrun).
  apply bind_normal in Hrun as ([] & t7 & Hhead & Hrun).
  apply bind_normal in Hrun as ([] & t8 & Hrows & Hrun).
  unfold createTempDir in Htemp.
  apply bind_normal in Htemp as (now & t0 & Hnow & Htemp).
  apply bind_normal in Htemp as ([] & t0' & Hmk & Htemp).
  injection Hnow as <- <-. injection Htemp as <- <-.
  unfold do_call, perform in Hmk. destruct (fails w t _); [done|]. injection Hmk as <-.
  injection Hlog as <-. unfold perform in Hdir.
  destruct (fails w _ _); [done|]. injection Hdir as <- <-. injection Hfound as <-.
  rewrite text_lines_run in Hhead. injection Hhead as <-.
  rewrite rows_run in Hrows. injection Hrows as <-.
  set (tempDir := path_join w (tmpdir w) ("apriltag-quality-" +:+ date_now w t)) in *.
  set (names := listing w _ dir) in *.
  assert (files = selected_files cfg (raw_files names)
          ∧ t5 = (t ++ [Called (Mkdir tempDir) Returned; Log (UsingTempDir tempDir);
                        Called (Readdir dir) (Names names);
                        Log (FoundFiles (length (raw_files names)))])
                 ++ match subset_applies cfg (raw_files names) with
                    | Some n => [Log (UsingSubset n)]
                    | None => []
                    end) as [-> ->].
  { unfold selected_files. destruct (subset_applies cfg (raw_files names)) as [n|].
    - apply bind_normal in Hfiles as ([] & t9 & Hsub & Hfiles).
      injection Hsub as <-. injection Hfiles as <- <-.
      by rewrite <- !app_assoc.
    - injection Hfiles as <- <-. by rewrite app_nil_r, <- !app_assoc. }
  pose proof Hloop as Hgrow.
  apply (grows (num := num)) in Hgrow as [es_loop ->].
  2: { pose proof (trivial_invariant (num := num)) as HP.
       apply (keeps_for_of _ HP). intros acc q.
       unfold process_quality. destruct acc.
       repeat first [ apply keeps_process_file; exact HP | keeps_step HP ]. }
  pose proof Hrun as Hgrow.
  apply (grows (num := num)) in Hgrow as [es_end ->].
  2: { pose proof (trivial_invariant (num := num)) as HP.
       unfold saveTableToFile, createScatterPlot. repeat keeps_step HP. }
  exists tempDir, names, results, scatterData, es_loop, es_end. cbv zeta.
  split; [by exists (date_now w t)|]. rewrite <- !app_assoc in *.
  split; [exact Hloop|]. split; [exact Hrun | done].
Qed.

End FinishedRuns.

Section FinishedScript.
Context {num : Type} `{JSNumber num} (w : World num) (rev : revision).
Implicit Types (t es : list (event num)).

(** A run of the script that goes to its end has loaded the
    environment, made the detector, printed the banner and gone
    through the [try] block of [main]. *)
Lemma script_normal (args : list string) :
  (script w rev args []).1 = Normal tt →
  ∃ loading body,
    let cfg := parse_arguments args (RAW_DIR w loading) in
    let dir := default "" (rawDir cfg) in
    let t0 := loading ++ [Called NewDetector Returned]
                ++ ((fun s => Log (Text s)) <$> usage rev) in
    Forall env_loading loading
    ∧ main_body w rev cfg dir t0 = (Normal tt, t0 ++ body)
    ∧ (script w rev args []).2 = t0 ++ body.
Proof.
  unfold script. rewrite run_bind.
  destruct (env_loading_emits w (path_join w (cwd w) ".env.local") [])
    as (es0 & Ht0 & Hc0 & Hes0).
  destruct (try_catch _ _ []) as [c0 t0]. cbn in Ht0, Hc0. subst c0 t0.
  rewrite run_bind. cbn [ask].
  set (cfg := parse_arguments args (RAW_DIR w es0)).
  destruct (negb (truthy (rawDir cfg))).
  { repeat (rewrite run_bind; unfold log_error, exit; cbn beta iota). done. }
  rewrite run_bind. unfold do_call, perform.
  destruct (fails w es0 NewDetector) as [e|]; [done|].
  unfold main. rewrite run_bind, text_lines_run. unfold try_catch.
  destruct (main_body w rev cfg (default "" (rawDir cfg)) _) as [[[]|e|code] t1] eqn:Hbody;
    cbn [fst snd]; try done.
  intros _.
  destruct (orderly_main_body w rev cfg (default "" (rawDir cfg))
              ((es0 ++ [Called NewDetector Returned])
               ++ ((fun s => Log (Text s)) <$> usage rev))) as (body & Hrun & _).
  rewrite Hbody in Hrun. cbn [snd] in Hrun. subst t1.
  exists es0, body. cbv zeta. fold cfg. rewrite <- !app_assoc in *. done.
Qed.

Lemma env_loading_tokens {X : Type} (of_line : line num -> list X)
    (of_call : call num -> list X) (loading : list (event num)) :
  (∀ path, of_call (Access path) = []) → (∀ path, of_call (Dotenv path) = []) →
  Forall env_loading loading → tokens of_line of_call loading = [].
Proof.
  intros Ha Hd. unfold tokens.
  induction 1 as [|ev es (path & r & [-> | ->]) _ IH]; [done| |]; cbn;
    by rewrite ?Ha, ?Hd, IH.
Qed.

(** X25.  A run that goes to its end leaves its temporary directory as
    it says.  It has created the directory; at every quality level, for
    every selected RAW file in turn, it has written the reference
    picture and the JPEG and, unless [--preserve] is given, deleted the
    two again before turning to the next file; and at the end, unless
    [--preserve] is given, it has removed the directory.  There is no
    other write of a picture, deletion or removal in the run. *)
Theorem temporary_files_cleaned_up (args : list string) :
  (script w rev args []).1 = Normal tt →
  ∃ (loading : list (event num)) (tempDir : string) (names : list string),
    let cfg := parse_arguments args (RAW_DIR w loading) in
    let dir := default "" (rawDir cfg) in
    let files := selected_files cfg (raw_files names) in
    temp_dir w tempDir
    ∧ Called (Mkdir tempDir) Returned ∈ (script w rev args []).2
    ∧ Called (Readdir dir) (Names names) ∈ (script w rev args []).2
    ∧ temp_ops (script w rev args []).2
      = flat_map (fun quality => flat_map (file_ops w cfg tempDir quality) files)
                 QUALITY_VALUES
        ++ (if preserveFiles cfg then [] else [Removed tempDir]).
Proof.
  intros Hnormal.
  destruct (script_normal args Hnormal) as (loading & body & Hload & Hbody & Htrace).
  cbv zeta in *. set (cfg := parse_arguments args (RAW_DIR w loading)) in *.
  apply main_body_normal in Hbody
    as (tempDir & names & results & scatterData & es_loop & es_end
        & Htemp & Hloop & Hend & Hbody).
  cbv zeta in *. exists loading, tempDir, names. fold cfg.
  rewrite Htrace, Hbody. split; [done|].
  split; [rewrite !elem_of_app, !elem_of_cons; tauto|].
  split; [rewrite !elem_of_app, !elem_of_cons; tauto|].
  eapply (tallied (fun _ => []) temp_op_of) in Hloop as (es1 & Hes1 & Hops1);
    [|apply (tallies_for_of _ _ _ _ _
               (fun quality => flat_map (file_ops w cfg tempDir quality)
                                        (selected_files cfg (raw_files names))));
      intros; apply process_quality_temp_ops].
  apply app_inv_head in Hes1. subst es1.
  eapply (tallied (fun _ => []) temp_op_of) in Hend as (es2 & Hes2 & Hops2);
    [|apply reports_temp_ops].
  apply app_inv_head in Hes2. subst es2.
  unfold temp_ops. rewrite !tokens_app, Hops1, Hops2.
  rewrite (env_loading_tokens _ _ loading) by done.
  rewrite !tokens_text_lines by done.
  assert (tokens (fun _ : line num => []) temp_op_of
            ((fun r => Log (TableRow r)) <$> results) = []) as ->.
  { clear. by induction results. }
  cbn [app]. rewrite !app_nil_r.
  by destruct (subset_applies cfg (raw_files names)).
Qed.

(** X26.  A run that goes to its end prints a table of exactly nine
    rows, one per quality level from 0.1 to 0.9 in that order; the
    later revision writes the same rows to the table file.  If no RAW
    file was selected (the directory holds none), every row shows four
    zeros and no missing marker. *)
Theorem table_has_a_row_per_quality (args : list string) :
  (script w rev args []).1 = Normal tt →
  ∃ (loading : list (event num)) (names : list string),
    let cfg := parse_arguments args (RAW_DIR w loading) in
    let dir := default "" (rawDir cfg) in
    let rows := table_rows (script w rev args []).2 in
    Called (Readdir dir) (Names names) ∈ (script w rev args []).2
    ∧ quality <$> rows = QUALITY_VALUES
    ∧ (rev = WithPlot →
       ∃ path, Called (WriteFile path (TableFile rows)) Returned
               ∈ (script w rev args []).2)
    ∧ (raw_files names = [] → rows = empty_row <$> QUALITY_VALUES).
Proof.
  intros Hnormal.
  destruct (script_normal args Hnormal) as (loading & body & Hload & Hbody & Htrace).
  cbv zeta in *. set (cfg := parse_arguments args (RAW_DIR w loading)) in *.
  apply main_body_normal in Hbody
    as (tempDir & names & results & scatterData & es_loop & es_end
        & Htemp & Hloop & Hend & Hbody).
  cbv zeta in *. exists loading, names. fold cfg.
  rewrite Htrace, Hbody.
  pose proof Hloop as Hvalues. apply quality_loop_normal in Hvalues as [Hqual Hnone].
  cbn [fst snd app fmap] in Hqual, Hnone.
  eapply (tallied (fun l => match l with TableRow r => [r] | _ => [] end)
                  (fun _ => [])) in Hloop as (es1 & Hes1 & Hrows1);
    [|apply tallies_for_of_quiet; intros; apply process_quality_no_rows].
  apply app_inv_head in Hes1. subst es1.
  pose proof Hend as Hfile.
  eapply (tallied (fun l => match l with TableRow r => [r] | _ => [] end)
                  (fun _ => [])) in Hend as (es2 & Hes2 & Hrows2);
    [|apply reports_no_rows].
  apply app_inv_head in Hes2. subst es2.
  match goal with |- context [table_rows ?l] => set (run := l) end.
  assert (table_rows run = results) as Hrows.
  { unfold run, table_rows. rewrite !tokens_app, Hrows1, Hrows2.
    rewrite (env_loading_tokens _ _ loading) by done.
    rewrite !tokens_text_lines by done.
    assert (tokens (fun l : line num => match l with TableRow r => [r] | _ => [] end)
              (fun _ => []) ((fun r => Log (TableRow r)) <$> results) = results) as ->.
    { clear. induction results as [|r results IH]; [done|].
      rewrite fmap_cons. unfold tokens in *. cbn. by rewrite IH. }
    cbn [app]. rewrite !app_nil_r.
    by destruct (subset_applies cfg (raw_files names)). }
  rewrite Hrows.
  split; [unfold run; rewrite !elem_of_app, !elem_of_cons; tauto|].
  split; [done|]. split.
  - intros ->. apply bind_normal in Hfile as ([] & t1 & Hsave & Hrest).
    apply saveTableToFile_normal in Hsave as (path & es & -> & Hin).
    apply (grows (num := num)) in Hrest as [es' Hes'].
    2: { pose proof (trivial_invariant (num := num)) as HP.
         unfold createScatterPlot. repeat keeps_step HP. }
    assert (es_end = es ++ es') as ->.
    { rewrite <- !app_assoc in Hes'. by repeat apply app_inv_head in Hes'. }
    exists path. unfold run. rewrite !elem_of_app. right. by left.
  - intros Hraw. apply Hnone. unfold selected_files. rewrite Hraw.
    destruct (subset_applies cfg []); [apply take_nil | done].
Qed.

End FinishedScript.

Section WholeDirectory.
Context {num : Type} `{JSNumber num} (w : World num) (rev : revision).

Lemma selected_files_all (cfg : Config) (arwFiles : list string) :
  (∀ n, subsetSize cfg = Some (Integer n) → (n <= 0)%Z) →
  selected_files cfg arwFiles = arwFiles.
Proof.
  intros Hsize. unfold selected_files, subset_applies.
  destruct (subsetSize cfg) as [[n|]|]; try done.
  specialize (Hsize n eq_refl).
  destruct (Z.eqb_spec n 0); [done|]. assert ((0 <? n)%Z = false) as -> by lia. done.
Qed.

(** X27.  Without a usable subset size every RAW file is processed:
    when the command line has no positional word, or [parseInt] makes
    of the first one NaN, an infinity, zero or a negative number, the
    JPEG conversions of the run are those of all the [.arw] files of
    the listing, at each quality level in turn: a beginning of them
    when the run is cut short, all of them when it reaches its end, as
    it does when the script finds its directory, no call throws and
    the detections are well formed. *)
Theorem whole_directory_processed (args : list string) :
  (∀ arg0 n, nonFlagArgs args !! 0 = Some arg0 → parseInt arg0 = Some (Integer n) →
             (n <= 0)%Z) →
  ∃ (dir : string) (names : list string),
    conversions (script w rev args []).2 `prefix_of` plan w dir (raw_files names)
    ∧ ((script w rev args []).1 = Normal tt →
       Called (Readdir dir) (Names names) ∈ (script w rev args []).2
       ∧ conversions (script w rev args []).2 = plan w dir (raw_files names))
    ∧ (obliging w → directory_given w args → (script w rev args []).1 = Normal tt).
Proof.
  intros Hargs.
  destruct (script_converts w rev args [])
    as (es & Hes & env & names & _ & Hin & Hpre & Hfin).
  rewrite app_nil_l in Hes.
  assert (∀ n, subsetSize (parse_arguments args env) = Some (Integer n) → (n <= 0)%Z)
    as Hsize.
  { intros n Hn. unfold parse_arguments in Hn. cbn [subsetSize] in Hn.
    destruct (nonFlagArgs args) as [|arg0 rest] eqn:Hnf; [done|].
    by apply (Hargs arg0 n). }
  exists (default "" (rawDir (parse_arguments args env))), names.
  rewrite selected_files_all in Hpre, Hfin by done.
  rewrite Hes. split; [done|]. split.
  - intros Hc. rewrite Hc in Hin, Hfin. auto.
  - intros Hw Hdir.
    destruct (script_finishes w rev Hw args Hdir []) as ([] & t' & Hrun & _).
    by rewrite Hrun.
Qed.

End WholeDirectory.

(** ** The theorems at work on the sample data *)

Lemma stats_ordered_sample :
  numbers [3; 1; 2]%float
  ∧ let stats := (calculateStats [3; 1; 2]%float).1 in
    at_most (min stats) (max stats)
    ∧ at_most (min stats) (median stats) ∧ at_most (median stats) (max stats).
Proof.
  assert (numbers [3; 1; 2]%float) as Hn by (repeat constructor).
  split; [exact Hn|].
  destruct (proj1 stats_ordered 3%float [1; 2]%float Hn) as (Hmm & _ & Hodd & _).
  destruct (Hodd eq_refl) as (_ & Hlo & Hhi). by repeat split.
Defined.

Lemma calculateDeltas_first_match_sample :
  (tag_id {| tag_id := 1; corners := Sample.square 3 |} ∈ id_set Sample.comparison
   ∨ tag_id {| tag_id := 1; corners := Sample.square 3 |} ∉ id_set Sample.reference)
  ∧ calculateDeltas Sample.reference
      (Sample.comparison ++ {| tag_id := 1; corners := Sample.square 3 |} :: [])
    = calculateDeltas Sample.reference (Sample.comparison ++ []).
Proof.
  assert (tag_id {| tag_id := 1; corners := Sample.square 3 |} ∈ id_set Sample.comparison
          ∨ tag_id {| tag_id := 1; corners := Sample.square 3 |} ∉ id_set Sample.reference)
    as Hd by (left; apply (bool_decide_unpack _); vm_compute; exact I).
  split; [exact Hd|].
  exact (calculateDeltas_first_match Sample.reference Sample.comparison _ [] Hd).
Defined.

Lemma deltas_and_missing_markers_sample :
  calculateDeltas Sample.reference Sample.comparison = Normal [0; 0; 0; 1]%float
  ∧ length [0; 0; 0; 1]%float + 4 * count_missing Sample.reference Sample.comparison
    = 4 * length Sample.reference.
Proof.
  assert (calculateDeltas Sample.reference Sample.comparison = Normal [0; 0; 0; 1]%float)
    as Hrun by (vm_compute; reflexivity).
  split; [exact Hrun|].
  exact (deltas_and_missing_markers Sample.reference Sample.comparison _ Hrun).
Defined.

Lemma calculateStats_order_independent_sample :
  (Forall unsigned [3; 1; 2]%float ∧ [3; 1; 2]%float ≡ₚ [1; 2; 3]%float)
  ∧ calculateStats [3; 1; 2]%float = calculateStats [1; 2; 3]%float.
Proof.
  assert (Forall unsigned [3; 1; 2]%float) as Hu.
  { repeat constructor; try done; intros H; apply (f_equal Prim2SF) in H;
      vm_compute in H; discriminate. }
  assert ([3; 1; 2]%float ≡ₚ [1; 2; 3]%float) as Hp.
  { etransitivity; [apply perm_swap|]. apply perm_skip, perm_swap. }
  split; [by split|]. exact (proj2 calculateStats_order_independent _ _ Hu Hp).
Defined.

Lemma deltas_never_negative_sample :
  calculateDeltas Sample.reference Sample.comparison = Normal [0; 0; 0; 1]%float
  ∧ Forall not_negative [0; 0; 0; 1]%float.
Proof.
  assert (calculateDeltas Sample.reference Sample.comparison = Normal [0; 0; 0; 1]%float)
    as Hrun by (vm_compute; reflexivity).
  split; [exact Hrun|].
  exact (deltas_never_negative Sample.reference Sample.comparison _ Hrun).
Defined.

Lemma statistics_never_negative_sample :
  Forall not_negative Sample.tenths
  ∧ not_negative (mean (calculateStats Sample.tenths).1).
Proof.
  assert (Forall not_negative Sample.tenths) as Hd by (repeat constructor).
  split; [exact Hd|].
  exact (proj1 (proj2 (statistics_never_negative Sample.tenths Hd))).
Defined.

Lemma missing_coordinate_gives_nan_sample :
  (length [0]%float < 2 ∨ length [1; 1]%float < 2)
  ∧ PrimFloat.is_nan (distance [0]%float [1; 1]%float) = true.
Proof.
  assert (length [0]%float < 2 ∨ length [1; 1]%float < 2) as Hc by (left; cbn; lia).
  split; [exact Hc|].
  exact (proj1 (proj2 (missing_coordinate_gives_nan [0]%float [1; 1]%float)) Hc).
Defined.

Lemma nan_delta_spoils_mean_sample :
  Exists (fun x => PrimFloat.is_nan x = true) [1; PrimFloat.nan; 2]%float
  ∧ PrimFloat.is_nan (mean (calculateStats [1; PrimFloat.nan; 2]%float).1) = true.
Proof.
  assert (Exists (fun x => PrimFloat.is_nan x = true) [1; PrimFloat.nan; 2]%float) as Hn
    by (right; left; reflexivity).
  split; [exact Hn|]. exact (nan_delta_spoils_mean _ Hn).
Defined.

Lemma sample_finite_corners : Forall finite_corners Sample.reference.
Proof. repeat constructor. Qed.

Lemma identical_sets_zero_deltas_sample :
  (Forall well_formed Sample.reference ∧ Forall finite_corners Sample.reference
   ∧ NoDup (tag_id <$> Sample.reference))
  ∧ calculateDeltas Sample.reference Sample.reference
    = Normal (replicate (4 * length Sample.reference) 0%float).
Proof.
  pose proof (proj1 sample_well_formed) as Hwf.
  pose proof sample_finite_corners as Hfin.
  pose proof (proj1 sample_unique_ids) as Hnd.
  split; [done|].
  exact (proj1 (identical_sets_zero_deltas Sample.reference Hwf Hfin Hnd)).
Defined.

Lemma extremes_are_attained_sample :
  numbers [3; 1; 2]%float
  ∧ min (calculateStats [3; 1; 2]%float).1 ∈ [3; 1; 2]%float
  ∧ max (calculateStats [3; 1; 2]%float).1 ∈ [3; 1; 2]%float.
Proof.
  assert (numbers [3; 1; 2]%float) as Hn by (repeat constructor).
  split; [exact Hn|].
  destruct (proj2 extremes_are_attained 3%float [1; 2]%float Hn) as (Hmin & Hmax & _).
  by split.
Defined.

Lemma options_anywhere_sample :
  startsWith "--verbose" "-" = true
  ∧ parse_arguments (["5"] ++ "--verbose" :: ["/data/raw"]) None
    = parse_arguments (["5"] ++ ["/data/raw"]) None.
Proof.
  assert (startsWith "--verbose" "-" = true) as Hflag by reflexivity.
  split; [exact Hflag|].
  apply (options_anywhere ["5"] ["/data/raw"] "--verbose" None Hflag).
  apply (bool_decide_unpack _). vm_compute. exact I.
Defined.

Lemma corners_listed_by_id_sample :
  Forall (fun tag => ¬ short_corner tag) Sample.reference
  ∧ ∃ sorted,
      sorted ≡ₚ Sample.reference
      ∧ print_tags Sample.reference [] = (Normal tt, [] ++ (corner_line <$> sorted)).
Proof.
  assert (Forall (fun tag => ¬ short_corner tag) Sample.reference) as Hok.
  { repeat constructor; intros Hs; unfold short_corner in Hs; cbn in Hs;
      repeat (apply Exists_cons in Hs as [Hs|Hs]; [cbn in Hs; lia|]);
      by apply Exists_nil in Hs. }
  split; [exact Hok|].
  destruct (corners_listed_by_id Sample.reference []) as (sorted & Hp & _ & Hrun & _).
  exists sorted. split; [exact Hp | exact (Hrun Hok)].
Defined.

Lemma failed_call_aborts_main_sample :
  let run := main Sample.world_without_unlink WithPlot
               (parse_arguments Sample.args None) "/data/raw" [] in
  (run.2 = [] ++ take 27 run.2
           ++ Called (Unlink "/tmp/apriltag-quality-1700000000000/a_gt.png")
                     (Failed (ExternalError "EACCES: permission denied"))
           :: drop 28 run.2
   ∧ ∀ path, Unlink "/tmp/apriltag-quality-1700000000000/a_gt.png"
             ≠ (OpenBrowser path : call float))
  ∧ drop 28 run.2 = [LogError (ErrorLine (ExternalError "EACCES: permission denied"))]
  ∧ run.1 = Exit 1.
Proof.
  intros run.
  assert (run.2 = [] ++ take 27 run.2
                  ++ Called (Unlink "/tmp/apriltag-quality-1700000000000/a_gt.png")
                            (Failed (ExternalError "EACCES: permission denied"))
                  :: drop 28 run.2) as Htrace by (vm_compute; reflexivity).
  assert (∀ path, Unlink "/tmp/apriltag-quality-1700000000000/a_gt.png"
                  ≠ (OpenBrowser path : call float)) as Hc by done.
  split; [by split|].
  exact (failed_call_aborts_main Sample.world_without_unlink WithPlot _ _ _ _ _ _ _
           Htrace Hc).
Defined.

Lemma preserve_deletes_nothing_sample :
  includes ["5"; "/data/raw"; "-p"] "--preserve" || includes ["5"; "/data/raw"; "-p"] "-p"
  = true
  ∧ Forall (fun ev => ∀ path r, ev ≠ Called (Unlink path) r ∧ ev ≠ Called (Rmdir path) r)
           (script Sample.world WithPlot ["5"; "/data/raw"; "-p"] []).2.
Proof.
  assert (includes ["5"; "/data/raw"; "-p"] "--preserve"
          || includes ["5"; "/data/raw"; "-p"] "-p" = true) as Hp by reflexivity.
  split; [exact Hp|].
  exact (preserve_deletes_nothing Sample.world WithPlot _ Hp).
Defined.

Lemma no_plot_without_asking_sample :
  (WithPlot = Original ∨ includes ["5"; "/data/raw"; "--no-plot"] "--no-plot" = true)
  ∧ Forall (fun ev => ∀ path r, ev ≠ Called (OpenBrowser path) r)
           (script Sample.world WithPlot ["5"; "/data/raw"; "--no-plot"] []).2.
Proof.
  assert (WithPlot = Original ∨ includes ["5"; "/data/raw"; "--no-plot"] "--no-plot" = true)
    as Hp by (right; reflexivity).
  split; [exact Hp|].
  eapply Forall_impl; [exact (no_plot_without_asking Sample.world WithPlot _ Hp)|].
  intros ev Hev path r. exact (proj1 (proj2 (Hev path [] r))).
Defined.

Lemma temporary_files_cleaned_up_sample :
  (script Sample.world WithPlot Sample.args []).1 = Normal tt
  ∧ ∃ tempDir, temp_dir Sample.world tempDir
               ∧ Called (Mkdir tempDir) Returned
                 ∈ (script Sample.world WithPlot Sample.args []).2.
Proof.
  assert ((script Sample.world WithPlot Sample.args []).1 = Normal tt) as Hrun
    by (vm_compute; reflexivity).
  split; [exact Hrun|].
  destruct (temporary_files_cleaned_up Sample.world WithPlot Sample.args Hrun)
    as (loading & tempDir & names & Htemp & Hmade & _).
  exists tempDir. split; [exact Htemp | exact Hmade].
Defined.

Lemma table_has_a_row_per_quality_sample :
  (script Sample.world WithPlot Sample.args []).1 = Normal tt
  ∧ quality <$> table_rows (script Sample.world WithPlot Sample.args []).2
    = QUALITY_VALUES.
Proof.
  assert ((script Sample.world WithPlot Sample.args []).1 = Normal tt) as Hrun
    by (vm_compute; reflexivity).
  split; [exact Hrun|].
  destruct (table_has_a_row_per_quality Sample.world WithPlot Sample.args Hrun)
    as (loading & names & _ & Hrows & _).
  exact Hrows.
Defined.

Lemma whole_directory_processed_sample :
  let args := ["all"; "/data/raw"] in
  let run := script Sample.world WithPlot args [] in
  (∀ arg0 n, nonFlagArgs args !! 0 = Some arg0 → parseInt arg0 = Some (Integer n) →
             (n <= 0)%Z)
  ∧ (obliging Sample.world ∧ directory_given Sample.world args)
  ∧ run.1 = Normal tt
  ∧ (∃ (dir : string) (names : list string),
       Called (Readdir dir) (Names names) ∈ run.2
       ∧ conversions run.2 = plan Sample.world dir (raw_files names))
  ∧ conversions run.2 = plan Sample.world "/data/raw" ["a.ARW"; "b.arw"]
  ∧ length (conversions run.2) = 18.
Proof.
  intros args run.
  assert (∀ arg0 n, nonFlagArgs args !! 0 = Some arg0 →
                    parseInt arg0 = Some (Integer n) → (n <= 0)%Z) as Hargs.
  { intros arg0 n [= <-]. vm_compute. discriminate. }
  pose proof sample_world_obliging as Hw.
  assert (directory_given Sample.world args) as Hdir by (intros t; reflexivity).
  destruct (whole_directory_processed Sample.world WithPlot args Hargs)
    as (dir & names & _ & Hfin & Hrun).
  specialize (Hrun Hw Hdir).
  split; [exact Hargs|]. split; [by split|]. split; [exact Hrun|].
  split; [exists dir, names; exact (Hfin Hrun)|].
  vm_compute. by split.
Defined.
